(** * currency: fixed-point money arithmetic over JavaScript numbers

    A shallow embedding of [src/mod.ts].  The program stores an amount as an
    integer count of minor units in a JavaScript number, that is, an IEEE-754
    binary64 value, and goes through [toFixed], string-to-number conversion
    and [Math.round] on every construction.  The embedding therefore starts
    with a model of the JavaScript numbers the program uses, then the string
    operations, then the program itself. *)

From Stdlib Require Import ZArith QArith Qround Qabs Qreduction Qpower Lia Lqa.
From Stdlib Require Import Bool List String Ascii.
From Stdlib Require Import SpecFloat.
Import ListNotations.

Open Scope Z_scope.

(** ** JavaScript numbers

    A number is NaN, an infinity, or a finite binary64 value, kept as the
    exact rational it denotes (always in lowest terms).  The two zeros are
    identified: the program can observe the sign of a zero only as the sign
    of the infinity obtained by dividing by it. *)

Module JS.

Local Open Scope Q_scope.

Inductive number : Type :=
| NaN
| PosInf
| NegInf
| Fin (q : Q).

Definition fin (q : Q) : number := Fin (Qred q).
Definition of_Z (z : Z) : number := Fin (inject_Z z).

Definition two : Q := 2 # 1.

(** [pow2 e] is 2^e as a rational, for any integer [e]. *)
Definition pow2 (e : Z) : Q := two ^ e.

(** Floor of the base-2 logarithm of a positive rational. *)
Definition ilog2 (q : Q) : Z :=
  let t := (Z.log2 (Qnum q) - Z.log2 (Zpos (Qden q)))%Z in
  if Qle_bool (pow2 t) q then t else (t - 1)%Z.

(** Nearest integer, ties to the even one. *)
Definition rne (x : Q) : Z :=
  let f := Qfloor x in
  match Qcompare (x - inject_Z f) (1 # 2) with
  | Lt => f
  | Gt => (f + 1)%Z
  | Eq => if Z.even f then f else (f + 1)%Z
  end.

(** binary64: 53 bits of precision, least exponent of a unit in the last
    place -1074, overflow at 2^1024.  [ulp_exp a] is the exponent of the
    unit in the last place of the binary64 values around [a > 0]. *)
Definition ulp_exp (a : Q) : Z := Z.max (ilog2 a - 52) (-1074)%Z.

Definition rnd_abs (a : Q) : Q :=
  inject_Z (rne (a / pow2 (ulp_exp a))) * pow2 (ulp_exp a).

(** [rnd q]: the binary64 value nearest to the real [q] (ties to even), the
    rounding every arithmetic operation applies to its exact result. *)
Definition rnd (q : Q) : number :=
  match Qcompare q 0 with
  | Eq => Fin 0
  | Gt => let r := rnd_abs q in
          if Qle_bool (pow2 1024) r then PosInf else fin r
  | Lt => let r := rnd_abs (- q) in
          if Qle_bool (pow2 1024) r then NegInf else fin (- r)
  end.

Definition is_zero (x : number) : bool :=
  match x with Fin q => Qeq_bool q 0 | _ => false end.

Definition is_neg (x : number) : bool :=
  match x with
  | NegInf => true
  | Fin q => match Qcompare q 0 with Lt => true | _ => false end
  | _ => false
  end.

Definition neg (x : number) : number :=
  match x with
  | NaN => NaN
  | PosInf => NegInf
  | NegInf => PosInf
  | Fin q => Fin (- q)
  end.

Definition inf_of_sign (negative : bool) : number :=
  if negative then NegInf else PosInf.

(** [x + y] *)
Definition add (x y : number) : number :=
  match x, y with
  | NaN, _ | _, NaN => NaN
  | PosInf, NegInf | NegInf, PosInf => NaN
  | PosInf, _ | _, PosInf => PosInf
  | NegInf, _ | _, NegInf => NegInf
  | Fin a, Fin b => rnd (a + b)
  end.

(** [x - y] *)
Definition sub (x y : number) : number := add x (neg y).

(** [x * y] *)
Definition mul (x y : number) : number :=
  match x, y with
  | NaN, _ | _, NaN => NaN
  | Fin a, Fin b => rnd (a * b)
  | _, _ =>
      if is_zero x || is_zero y then NaN
      else inf_of_sign (xorb (is_neg x) (is_neg y))
  end.

(** [x / y] *)
Definition div (x y : number) : number :=
  match x, y with
  | NaN, _ | _, NaN => NaN
  | Fin a, Fin b =>
      if Qeq_bool b 0
      then (if Qeq_bool a 0 then NaN else inf_of_sign (is_neg x))
      else rnd (a / b)
  | Fin _, _ => Fin 0
  | _, Fin _ => inf_of_sign (xorb (is_neg x) (is_neg y))
  | _, _ => NaN
  end.

(** Truncation toward zero of a rational. *)
Definition Qtrunc (q : Q) : Z :=
  match Qcompare q 0 with
  | Lt => Qceiling q
  | _ => Qfloor q
  end.

(** [x % y]: the remainder has the sign of the dividend and is exact. *)
Definition rem (x y : number) : number :=
  match x, y with
  | Fin a, Fin b =>
      if Qeq_bool b 0 then NaN
      else fin (a - b * inject_Z (Qtrunc (a / b)))
  | Fin a, (PosInf | NegInf) => Fin a
  | _, _ => NaN
  end.

(** [x >= y] *)
Definition ge (x y : number) : bool :=
  match x, y with
  | NaN, _ | _, NaN => false
  | PosInf, _ => true
  | _, NegInf => true
  | NegInf, _ => false
  | _, PosInf => false
  | Fin a, Fin b => Qle_bool b a
  end.

(** [x > y] *)
Definition gt (x y : number) : bool :=
  match x, y with
  | NaN, _ | _, NaN => false
  | PosInf, PosInf => false
  | PosInf, _ => true
  | NegInf, _ => false
  | _, NegInf => true
  | _, PosInf => false
  | Fin a, Fin b => negb (Qle_bool a b)
  end.

(** [x !== y] on numbers. *)
Definition strict_ne (x y : number) : bool :=
  match x, y with
  | NaN, _ | _, NaN => true
  | PosInf, PosInf | NegInf, NegInf => false
  | Fin a, Fin b => negb (Qeq_bool a b)
  | _, _ => true
  end.

(** Truthiness of a number: false for 0 and NaN. *)
Definition truthy (x : number) : bool :=
  match x with
  | NaN => false
  | Fin q => negb (Qeq_bool q 0)
  | _ => true
  end.

Definition lift_int (f : Q -> Z) (x : number) : number :=
  match x with
  | Fin q => of_Z (f q)
  | _ => x
  end.

(** [Math.floor], [Math.ceil], [Math.abs] and [Math.round]; all exact.
    [Math.round] takes the nearest integer and, on a tie, the one toward
    +Infinity. *)
Definition floor : number -> number := lift_int Qfloor.
Definition ceil : number -> number := lift_int Qceiling.

Definition abs (x : number) : number :=
  match x with
  | NaN => NaN
  | PosInf | NegInf => PosInf
  | Fin q => Fin (Qabs q)
  end.

Definition round : number -> number :=
  lift_int (fun q => Qfloor (q + (1 # 2))).

(** [Math.pow(10, p)] for a natural [p], taken as the binary64 value nearest
    to 10^p (exact up to 10^22). *)
Definition pow10 (p : nat) : number := rnd (inject_Z (10 ^ Z.of_nat p)).

(** ToInt32, and with it [~~x]: NaN and the infinities give 0; a finite
    value is truncated and wrapped into [-2^31, 2^31). *)
Definition to_int32 (x : number) : Z :=
  match x with
  | Fin q =>
      let k := ((Qtrunc q) mod 2 ^ 32)%Z in
      if (k <? 2 ^ 31)%Z then k else (k - 2 ^ 32)%Z
  | _ => 0%Z
  end.

Definition bitnot2 (x : number) : number := of_Z (to_int32 x).

End JS.

(** ** Strings

    JavaScript strings are modelled by [string]; the program only ever
    inspects ASCII characters of them. *)

Module Str.

Local Open Scope string_scope.

Definition is_digit (c : ascii) : bool :=
  let n := nat_of_ascii c in (48 <=? n)%nat && (n <=? 57)%nat.

Definition digit_val (c : ascii) : Z := Z.of_nat (nat_of_ascii c) - 48.

Definition digit_char (d : Z) : ascii := ascii_of_nat (Z.to_nat (48 + d)).

(** A word character of a regular expression: [A-Za-z0-9_]. *)
Definition is_word (c : ascii) : bool :=
  let n := nat_of_ascii c in
  is_digit c
  || ((65 <=? n)%nat && (n <=? 90)%nat)
  || ((97 <=? n)%nat && (n <=? 122)%nat)
  || (n =? 95)%nat.

(** Line terminators, which [.] does not match. *)
Definition is_line_terminator (c : ascii) : bool :=
  let n := nat_of_ascii c in (n =? 10)%nat || (n =? 13)%nat.

(** White space trimmed by the string-to-number conversion. *)
Definition is_space (c : ascii) : bool :=
  let n := nat_of_ascii c in
  (n =? 32)%nat || ((9 <=? n)%nat && (n <=? 13)%nat) || (n =? 160)%nat.

Fixpoint all_digits (s : string) : bool :=
  match s with
  | EmptyString => true
  | String c r => is_digit c && all_digits r
  end.

(** Value of a string of decimal digits, most significant first. *)
Fixpoint digits_value (acc : Z) (s : string) : Z :=
  match s with
  | EmptyString => acc
  | String c r => digits_value (10 * acc + digit_val c) r
  end.

(** Decimal digits of a non-negative integer, prepended to [acc]. *)
Fixpoint digits_onto (fuel : nat) (n : Z) (acc : string) : string :=
  match fuel with
  | O => acc
  | S f =>
      let acc' := String (digit_char (n mod 10)) acc in
      if (n <? 10)%Z then acc' else digits_onto f (n / 10) acc'
  end.

Definition digits_of (n : Z) : string :=
  digits_onto (S (Z.to_nat (Z.log2 n))) n EmptyString.

Fixpoint repeat0 (n : nat) : string :=
  match n with
  | O => EmptyString
  | S k => String "0"%char (repeat0 k)
  end.

Fixpoint take (n : nat) (s : string) : string :=
  match n, s with
  | S k, String c r => String c (take k r)
  | _, _ => EmptyString
  end.

Fixpoint drop (n : nat) (s : string) : string :=
  match n, s with
  | S k, String _ r => drop k r
  | _, _ => s
  end.

Fixpoint span (p : ascii -> bool) (s : string) : string * string :=
  match s with
  | String c r =>
      if p c then let '(a, b) := span p r in (String c a, b)
      else (EmptyString, s)
  | EmptyString => (EmptyString, EmptyString)
  end.

Fixpoint filter (p : ascii -> bool) (s : string) : string :=
  match s with
  | EmptyString => EmptyString
  | String c r => if p c then String c (filter p r) else filter p r
  end.

Fixpoint map (f : ascii -> ascii) (s : string) : string :=
  match s with
  | EmptyString => EmptyString
  | String c r => String (f c) (map f r)
  end.

Fixpoint rev_onto (s acc : string) : string :=
  match s with
  | EmptyString => acc
  | String c r => rev_onto r (String c acc)
  end.

Definition rev (s : string) : string := rev_onto s EmptyString.

Definition trim (s : string) : string :=
  let s1 := snd (span is_space s) in
  rev (snd (span is_space (rev s1))).

(** [s.split(".")] for a one-character separator. *)
Fixpoint split_on (sep : ascii) (s : string) : list string :=
  match s with
  | EmptyString => [EmptyString]
  | String c r =>
      if Ascii.eqb c sep then EmptyString :: split_on sep r
      else match split_on sep r with
           | h :: t => String c h :: t
           | [] => [String c EmptyString]
           end
  end.

(** Index of the first occurrence of [pat] in [s], with the text before
    and after it. *)
Fixpoint find_first (pat s : string) : option (string * string) :=
  if prefix pat s then Some (EmptyString, drop (length pat) s)
  else match s with
       | EmptyString => None
       | String c r =>
           match find_first pat r with
           | Some (b, a) => Some (String c b, a)
           | None => None
           end
       end.

(** GetSubstitution: the replacement text of [String.prototype.replace] for
    the template [tmpl], given the matched text, the text before and after
    it and the captures of the match. *)
Definition capture (caps : list (option string)) (n : nat) : option string :=
  match n with
  | O => None
  | S k => match nth_error caps k with
           | Some (Some s) => Some s
           | Some None => Some EmptyString
           | None => None
           end
  end.

Fixpoint expand (tmpl matched before after : string)
    (caps : list (option string)) : string :=
  match tmpl with
  | EmptyString => EmptyString
  | String "$"%char (String d1 r as rest) =>
      if Ascii.eqb d1 "$" then String "$" (expand r matched before after caps)
      else if Ascii.eqb d1 "&" then
        matched ++ expand r matched before after caps
      else if Ascii.eqb d1 "`" then
        before ++ expand r matched before after caps
      else if Ascii.eqb d1 "'" then
        after ++ expand r matched before after caps
      else if is_digit d1 then
        let one := Z.to_nat (digit_val d1) in
        let two :=
          match r with
          | String d2 r2 =>
              if is_digit d2
              then match capture caps (10 * one + Z.to_nat (digit_val d2)) with
                   | Some s => Some (s ++ expand r2 matched before after caps)
                   | None => None
                   end
              else None
          | EmptyString => None
          end in
        match two with
        | Some out => out
        | None =>
            match capture caps one with
            | Some s => s ++ expand r matched before after caps
            | None => String "$" (expand rest matched before after caps)
            end
        end
      else String "$" (expand rest matched before after caps)
  | String c r => String c (expand r matched before after caps)
  end.

(** [s.replace(pat, tmpl)] for a string pattern: the first occurrence. *)
Definition replace_first (pat tmpl s : string) : string :=
  match find_first pat s with
  | Some (b, a) => b ++ expand tmpl pat b a [] ++ a
  | None => s
  end.

End Str.

(** ** Errors

    The exceptions the program can raise: its own [Error("Invalid Input")],
    the [RangeError] of [toFixed] for a digit count above 100, and the
    [SyntaxError] of [new RegExp] for a source that is not an expression. *)

Inductive error : Type :=
| InvalidInput
| RangeError
| SyntaxError.

Inductive result (A : Type) : Type :=
| Ok (a : A)
| Throw (e : error).

Arguments Ok {A} a.
Arguments Throw {A} e.

Definition bind {A B : Type} (r : result A) (k : A -> result B) : result B :=
  match r with
  | Ok a => k a
  | Throw e => Throw e
  end.

Notation "x <- r ;; k" := (bind r (fun x => k))
  (at level 61, r at next level, right associativity).

(** ** Conversions between numbers and strings *)

Module Conv.

Import JS Str.
Local Open Scope string_scope.
Local Open Scope Z_scope.

Definition pow10Q (e : Z) : Q := (10 # 1) ^ e.

Fixpoint strip_trailing_zeros_rev (s : string) : string :=
  match s with
  | String "0"%char r => strip_trailing_zeros_rev r
  | _ => s
  end.

Definition strip_trailing_zeros (s : string) : string :=
  rev (strip_trailing_zeros_rev (rev s)).

(** Floor of the base-10 logarithm of a positive rational. *)
Definition ilog10 (q : Q) : Z :=
  let e := ilog2 q * 30103 / 100000 in
  if Qle_bool (pow10Q (e + 1)) q then e + 1
  else if Qle_bool (pow10Q e) q then e
  else e - 1.

(** The shortest decimal that reads back as the binary64 value [q > 0]:
    the least number of digits [k] for which some [c * 10^(n - k)] rounds
    to [q], and among such [c] the one nearest to [q]. *)
Fixpoint shortest_digits (tries : nat) (k : Z) (n : Z) (q : Q) : Z * Z :=
  let sc := pow10Q (n - k) in
  let lo := Qfloor (q / sc) in
  let ok c := match rnd (inject_Z c * sc) with
              | Fin r => Qeq_bool r q
              | _ => false
              end in
  let dist c := Qabs (inject_Z c * sc - q) in
  match tries with
  | O => (lo, n - k)
  | S t =>
      match ok lo, ok (lo + 1) with
      | true, true =>
          match Qcompare (dist lo) (dist (lo + 1)) with
          | Lt => (lo, n - k)
          | Gt => (lo + 1, n - k)
          | Eq => ((if Z.even lo then lo else lo + 1), n - k)
          end
      | true, false => (lo, n - k)
      | false, true => (lo + 1, n - k)
      | false, false => shortest_digits t (k + 1) n q
      end
  end.

Definition exponent_text (e : Z) : string :=
  if e <? 0 then "e-" ++ digits_of (- e) else "e+" ++ digits_of e.

(** Number::toString of a positive binary64 value. *)
Definition to_string_pos (q : Q) : string :=
  let '(c, e10) := shortest_digits 17 1 (ilog10 q + 1) q in
  let all := digits_of c in
  let n := Z.of_nat (length all) + e10 in
  let ds := strip_trailing_zeros all in
  let k := Z.of_nat (length ds) in
  if (k <=? n) && (n <=? 21) then ds ++ repeat0 (Z.to_nat (n - k))
  else if (0 <? n) && (n <=? 21) then
    take (Z.to_nat n) ds ++ "." ++ drop (Z.to_nat n) ds
  else if (-6 <? n) && (n <=? 0) then
    "0." ++ repeat0 (Z.to_nat (- n)) ++ ds
  else
    match ds with
    | String d EmptyString => String d (exponent_text (n - 1))
    | String d r => String d ("." ++ r ++ exponent_text (n - 1))
    | EmptyString => "0"
    end.

(** ToString on a number. *)
Definition number_to_string (x : number) : string :=
  match x with
  | NaN => "NaN"
  | PosInf => "Infinity"
  | NegInf => "-Infinity"
  | Fin q =>
      match Qcompare q 0 with
      | Eq => "0"
      | Gt => to_string_pos q
      | Lt => "-" ++ to_string_pos (- q)
      end
  end.

(** The text [toFixed] prints for a non-negative integer [n] of units in
    the [f]-th decimal place: the digits of [n], padded with zeros on the
    left to [f + 1] digits, with a point before the last [f]. *)
Definition fixed_text (n : Z) (f : nat) : string :=
  let m := digits_of n in
  match f with
  | O => m
  | S _ =>
      let m := repeat0 (S f - length m) ++ m in
      let k := length m in
      take (k - f) m ++ "." ++ drop (k - f) m
  end.

(** [x.toFixed(f)]: the integer [n] for which [n / 10^f] is nearest to the
    exact value of [x], the larger one on a tie. *)
Definition to_fixed (x : number) (f : nat) : result string :=
  if (100 <? f)%nat then Throw RangeError
  else
    match x with
    | NaN => Ok "NaN"
    | PosInf => Ok "Infinity"
    | NegInf => Ok "-Infinity"
    | Fin q =>
        let s := if is_neg x then "-" else "" in
        let a := Qabs q in
        if Qle_bool (inject_Z (10 ^ 21)) a then Ok (s ++ to_string_pos a)
        else
          Ok (s ++ fixed_text
                     (Qfloor (a * inject_Z (10 ^ Z.of_nat f) + (1 # 2))) f)
    end.

(** An unsigned decimal literal: digits, an optional fraction and an
    optional exponent, nothing else. *)
Definition unsigned_decimal (s : string) : option Q :=
  let '(d1, r1) := span is_digit s in
  let '(d2, r2) :=
    match r1 with
    | String "."%char r => span is_digit r
    | _ => (EmptyString, r1)
    end in
  let dotted := match r1 with String "."%char _ => true | _ => false end in
  if ((length d1 =? 0)%nat && (length d2 =? 0)%nat) then None
  else
    let mant := digits_value 0 (d1 ++ d2) in
    let frac := Z.of_nat (length d2) in
    match r2 with
    | EmptyString => Some (inject_Z mant * pow10Q (- frac))%Q
    | String c r3 =>
        if Ascii.eqb c "e" || Ascii.eqb c "E" then
          let '(sg, r4) :=
            match r3 with
            | String "+"%char r => (1, r)
            | String "-"%char r => (-1, r)
            | _ => (1, r3)
            end in
          if (0 <? length r4)%nat && all_digits r4
          then Some (inject_Z mant * pow10Q (sg * digits_value 0 r4 - frac))%Q
          else None
        else None
    end.

(** The value of a character as a digit of [radix] (2, 8 or 16). *)
Definition radix_digit (radix : Z) (c : ascii) : option Z :=
  let n := Z.of_nat (nat_of_ascii c) in
  let v :=
    if is_digit c then Some (n - 48)
    else if (97 <=? n) && (n <=? 102) then Some (n - 87)
    else if (65 <=? n) && (n <=? 70) then Some (n - 55)
    else None in
  match v with
  | Some d => if d <? radix then Some d else None
  | None => None
  end.

Fixpoint radix_value (radix acc : Z) (s : string) : option Z :=
  match s with
  | EmptyString => Some acc
  | String c r =>
      match radix_digit radix c with
      | Some d => radix_value radix (acc * radix + d) r
      | None => None
      end
  end.

(** A hexadecimal, octal or binary integer literal: [0x], [0o] or [0b], in
    either case, and one or more digits of the radix; it takes no sign. *)
Definition non_decimal (s : string) : option Z :=
  match s with
  | String z (String p (String c r)) =>
      if Ascii.eqb z "0" then
        if Ascii.eqb p "x" || Ascii.eqb p "X" then radix_value 16 0 (String c r)
        else if Ascii.eqb p "o" || Ascii.eqb p "O" then radix_value 8 0 (String c r)
        else if Ascii.eqb p "b" || Ascii.eqb p "B" then radix_value 2 0 (String c r)
        else None
      else None
  | _ => None
  end.

(** ToNumber on a string (StringToNumber): white space is trimmed, the empty
    string is 0, a hexadecimal, octal or binary integer literal, a signed
    decimal literal or [Infinity] is read and rounded to the nearest
    binary64 value, anything else is NaN. *)
Definition string_to_number (s : string) : number :=
  let t := trim s in
  match non_decimal t with
  | Some n => rnd (inject_Z n)
  | None =>
      match t with
      | EmptyString => Fin 0
      | String c r =>
          let '(negative, body) :=
            if Ascii.eqb c "-" then (true, r)
            else if Ascii.eqb c "+" then (false, r)
            else (false, t) in
          if String.eqb body "Infinity" then inf_of_sign negative
          else match unsigned_decimal body with
               | Some q => if negative then rnd (- q) else rnd q
               | None => NaN
               end
      end
  end.

End Conv.

(** ** The program: [src/mod.ts] *)

Module CurrencyJs.

Import Str Conv.
Local Open Scope string_scope.

Definition number : Type := JS.number.

(** The two grouping expressions. *)
Inductive Groups : Type :=
| groupRegex   (* /(\d)(?=(\d{3})+\b)/g *)
| vedicRegex.  (* /(\d)(?=(\d\d)+\d\b)/g *)

(** A formatting function: the module's own [format], or one supplied by
    the caller, which is given the amount ([intValue] and [value]). *)
Inductive Format : Type :=
| format_builtin
| format_custom (f : number -> number -> string).

(** [Options]: every field may be absent. *)
Record Options : Type := {
  o_symbol : option string;
  o_separator : option string;
  o_decimal : option ascii;
  o_errorOnInvalid : option bool;
  o_precision : option nat;
  o_increment : option number;
  o_useVedic : option bool;
  o_pattern : option string;
  o_negativePattern : option string;
  o_format : option Format;
  o_fromCents : option bool;
  o_groups : option Groups
}.

(** [Required<Options>], the settings an instance carries.  The decimal
    mark is one character; the source splices it into two regular
    expressions (see [others_regex] and [mark_regex]). *)
Record Settings : Type := {
  symbol : string;
  separator : string;
  decimal : ascii;
  errorOnInvalid : bool;
  precision : nat;
  increment : number;
  useVedic : bool;
  pattern : string;
  negativePattern : string;
  format_fn : Format;
  fromCents : bool;
  groups : Groups
}.

Record Currency : Type := {
  intValue : number;
  value : number;
  _settings : Settings;
  _precision : number
}.

(** Values of the other JavaScript types a caller can pass. *)
Inductive Foreign : Type :=
| Undefined
| Null
| Boolean (b : bool)
| Object.

(** What the constructor and the operations accept at run time. *)
Inductive Any : Type :=
| ANumber (x : number)
| AString (s : string)
| ACurrency (c : Currency)
| AForeign (v : Foreign).

(** A value held by the variable [v] of [parse]: a number or a string. *)
Inductive Value : Type :=
| VNumber (x : number)
| VString (s : string).

Definition to_number (v : Value) : number :=
  match v with
  | VNumber x => x
  | VString s => string_to_number s
  end.

Definition no_options : Options :=
  {| o_symbol := None; o_separator := None; o_decimal := None;
     o_errorOnInvalid := None; o_precision := None; o_increment := None;
     o_useVedic := None; o_pattern := None; o_negativePattern := None;
     o_format := None; o_fromCents := None; o_groups := None |}.

Definition defaults : Options :=
  {| o_symbol := Some "$";
     o_separator := Some ",";
     o_decimal := Some "."%char;
     o_errorOnInvalid := Some false;
     o_precision := Some 2%nat;
     o_increment := None;
     o_useVedic := None;
     o_pattern := Some "!#";
     o_negativePattern := Some "-!#";
     o_format := Some format_builtin;
     o_fromCents := Some false;
     o_groups := None |}.

Definition over {A : Type} (a b : option A) : option A :=
  match b with
  | Some _ => b
  | None => a
  end.

(** [Object.assign({}, a, b)]: a fresh object with the fields of [a]
    overridden by those present in [b]. *)
Definition assign (a b : Options) : Options :=
  {| o_symbol := over (o_symbol a) (o_symbol b);
     o_separator := over (o_separator a) (o_separator b);
     o_decimal := over (o_decimal a) (o_decimal b);
     o_errorOnInvalid := over (o_errorOnInvalid a) (o_errorOnInvalid b);
     o_precision := over (o_precision a) (o_precision b);
     o_increment := over (o_increment a) (o_increment b);
     o_useVedic := over (o_useVedic a) (o_useVedic b);
     o_pattern := over (o_pattern a) (o_pattern b);
     o_negativePattern := over (o_negativePattern a) (o_negativePattern b);
     o_format := over (o_format a) (o_format b);
     o_fromCents := over (o_fromCents a) (o_fromCents b);
     o_groups := over (o_groups a) (o_groups b) |}.

(** A settings object passed where options are expected. *)
Definition as_options (s : Settings) : Options :=
  {| o_symbol := Some (symbol s);
     o_separator := Some (separator s);
     o_decimal := Some (decimal s);
     o_errorOnInvalid := Some (errorOnInvalid s);
     o_precision := Some (precision s);
     o_increment := Some (increment s);
     o_useVedic := Some (useVedic s);
     o_pattern := Some (pattern s);
     o_negativePattern := Some (negativePattern s);
     o_format := Some (format_fn s);
     o_fromCents := Some (fromCents s);
     o_groups := Some (groups s) |}.

Definition get {A : Type} (absent : A) (o : option A) : A :=
  match o with
  | Some a => a
  | None => absent
  end.

Definition round (v : Value) : number := JS.round (to_number v).
Definition pow (p : nat) : number := JS.pow10 p.
Definition rounding (value increment : number) : number :=
  JS.mul (round (VNumber (JS.div value increment))) increment.

Definition zero : number := JS.of_Z 0.
Definition one : number := JS.of_Z 1.

(** The decimal marks the two expressions [new RegExp("[^-\\d" + decimal
    + "]", "g")] and [new RegExp("\\" + decimal, "g")] take literally: a
    printable ASCII character that is not a letter, a digit, an underscore,
    a backslash or a closing bracket. *)
Definition literal_mark (c : ascii) : bool :=
  let n := nat_of_ascii c in
  (32 <=? n)%nat && (n <=? 126)%nat && negb (is_word c)
  && negb (Ascii.eqb c "\") && negb (Ascii.eqb c "]").

(** The text after an opening parenthesis, cut at the last closing one
    that [.*] can reach (it does not cross a line terminator). *)
Fixpoint last_close (s : string) : option (string * string) :=
  match s with
  | EmptyString => None
  | String c r =>
      if is_line_terminator c then None
      else match last_close r with
           | Some (inner, rest) => Some (String c inner, rest)
           | None => if Ascii.eqb c ")" then Some (EmptyString, r) else None
           end
  end.

(** The first replacement of [parse], which turns a parenthesised text
    into a negative one: the expression is an opening parenthesis, a
    greedy run of any characters as group 1, a closing parenthesis, and
    the template is a minus sign followed by group 1. *)
Fixpoint paren_negative (s : string) : string :=
  match s with
  | EmptyString => EmptyString
  | String c r =>
      if Ascii.eqb c "(" then
        match last_close r with
        | Some (inner, rest) => "-" ++ inner ++ rest
        | None => String c (paren_negative r)
        end
      else String c (paren_negative r)
  end.

(** The expression [new RegExp("[^-\d" + decimal + "]", "g")], by the
    mark spliced into it.  A closing bracket ends the class before the
    bracket of the source, which is then an ordinary character: the
    expression is a character other than the minus sign and the digits,
    followed by a closing bracket.  Any other mark is one more character
    the class excludes.  (After a backslash the bracket of the source is
    escaped and the class is left open: see [well_formed].) *)
Inductive Others : Type :=
| OthersClass (mark : ascii)
| OthersBracket.

Definition others_regex (decimal : ascii) : Others :=
  if Ascii.eqb decimal "]" then OthersBracket else OthersClass decimal.

(** Whether [new RegExp] accepts the source of the first expression; the
    source of the second is an expression for every mark. *)
Definition well_formed (decimal : ascii) : bool :=
  negb (Ascii.eqb decimal "\").

(** The expression [new RegExp("\" + decimal, "g")], by the mark that
    follows the backslash: a class escape ([d D w W s S]), a word boundary
    or its negation ([b B]), a control escape ([f n r t v]), the null
    character and the octal escapes ([0] to [7], the expression having no
    group to refer to), a backslash followed by the letter c ([c], which
    no control letter follows), and the mark itself otherwise. *)
Inductive Escape : Type :=
| EscChar (c : ascii)
| EscClass (p : ascii -> bool)
| EscBoundary (boundary : bool)
| EscBackslashC.

Definition mark_regex (decimal : ascii) : Escape :=
  let n := nat_of_ascii decimal in
  if Ascii.eqb decimal "d" then EscClass is_digit
  else if Ascii.eqb decimal "D" then EscClass (fun c => negb (is_digit c))
  else if Ascii.eqb decimal "w" then EscClass is_word
  else if Ascii.eqb decimal "W" then EscClass (fun c => negb (is_word c))
  else if Ascii.eqb decimal "s" then EscClass is_space
  else if Ascii.eqb decimal "S" then EscClass (fun c => negb (is_space c))
  else if Ascii.eqb decimal "b" then EscBoundary true
  else if Ascii.eqb decimal "B" then EscBoundary false
  else if Ascii.eqb decimal "f" then EscChar (ascii_of_nat 12)
  else if Ascii.eqb decimal "n" then EscChar (ascii_of_nat 10)
  else if Ascii.eqb decimal "r" then EscChar (ascii_of_nat 13)
  else if Ascii.eqb decimal "t" then EscChar (ascii_of_nat 9)
  else if Ascii.eqb decimal "v" then EscChar (ascii_of_nat 11)
  else if ((48 <=? n)%nat && (n <=? 55)%nat) then EscChar (ascii_of_nat (n - 48))
  else if Ascii.eqb decimal "c" then EscBackslashC
  else EscChar decimal.

(** [s.replace(regex, "")] for the first expression, from left to right. *)
Fixpoint remove_pairs (s : string) : string :=
  match s with
  | EmptyString => EmptyString
  | String c r =>
      match r with
      | String d r' =>
          if Ascii.eqb d "]" && negb (Ascii.eqb c "-" || is_digit c)
          then remove_pairs r'
          else String c (remove_pairs r)
      | EmptyString => String c EmptyString
      end
  end.

Definition remove_others (regex : Others) (s : string) : string :=
  match regex with
  | OthersClass mark =>
      Str.filter (fun c => Ascii.eqb c "-" || is_digit c || Ascii.eqb c mark) s
  | OthersBracket => remove_pairs s
  end.

(** A point at every position of [s] where a word character meets a
    character that is none or an end of the text ([boundary]), or at every
    other position; [before] tells whether a word character precedes. *)
Fixpoint point_positions (boundary before : bool) (s : string) : string :=
  match s with
  | EmptyString => if Bool.eqb before boundary then "." else EmptyString
  | String c r =>
      (if Bool.eqb (xorb before (is_word c)) boundary then "." else EmptyString)
      ++ String c (point_positions boundary (is_word c) r)
  end.

(** A point for every backslash followed by the letter c. *)
Fixpoint point_backslash_c (s : string) : string :=
  match s with
  | EmptyString => EmptyString
  | String a r =>
      match r with
      | String b r' =>
          if Ascii.eqb a "\" && Ascii.eqb b "c"
          then String "." (point_backslash_c r')
          else String a (point_backslash_c r)
      | EmptyString => String a EmptyString
      end
  end.

(** [s.replace(decimalString, ".")] for the second expression. *)
Definition replace_mark (regex : Escape) (s : string) : string :=
  match regex with
  | EscChar m => Str.map (fun c => if Ascii.eqb c m then "."%char else c) s
  | EscClass p => Str.map (fun c => if p c then "."%char else c) s
  | EscBoundary boundary => point_positions boundary false s
  | EscBackslashC => point_backslash_c s
  end.

(** The three replacements [parse] applies to a string. *)
Definition clean (decimal : ascii) (s : string) : string :=
  replace_mark (mark_regex decimal)
    (remove_others (others_regex decimal) (paren_negative s)).

Definition parse (input : Any) (opts : Settings) (useRounding : bool)
  : result Value :=
  let precision := pow (precision opts) in
  match input, fromCents opts with
  | ACurrency c, true => Ok (VNumber (intValue c))
  | _, _ =>
      v <- match input with
           | ANumber x => Ok (VNumber x)
           | ACurrency c => Ok (VNumber (value c))
           | AString s =>
               if well_formed (decimal opts) then
                 let t := clean (decimal opts) s in
                 Ok (match t with
                     | EmptyString => VNumber zero
                     | _ => VString t
                     end)
               else Throw SyntaxError
           | AForeign _ =>
               if errorOnInvalid opts then Throw InvalidInput
               else Ok (VNumber zero)
           end ;;
      v <- (if fromCents opts then Ok v
            else s <- to_fixed (JS.mul (to_number v) precision) 4 ;;
                 Ok (VString s)) ;;
      Ok (if useRounding then VNumber (round v) else v)
  end.

(** The constructor. *)
Definition currency (input : Any) (opts : Options) : result Currency :=
  let merged := assign defaults opts in
  let decimals := get 0%nat (o_precision merged) in
  let precision := pow decimals in
  let vedic := get false (o_useVedic merged) in
  let settings :=
    {| symbol := get "" (o_symbol merged);
       separator := get "" (o_separator merged);
       decimal := get "."%char (o_decimal merged);
       errorOnInvalid := get false (o_errorOnInvalid merged);
       precision := decimals;
       increment :=
         match o_increment merged with
         | Some i => if JS.truthy i then i else JS.div one precision
         | None => JS.div one precision
         end;
       useVedic := vedic;
       pattern := get "" (o_pattern merged);
       negativePattern := get "" (o_negativePattern merged);
       format_fn := get format_builtin (o_format merged);
       fromCents := get false (o_fromCents merged);
       groups := if vedic then vedicRegex else groupRegex |} in
  v <- parse input settings true ;;
  let v := to_number v in
  Ok {| intValue := v;
        value := JS.div v precision;
        _settings := settings;
        _precision := precision |}.

(** [toString] *)
Definition toString (this : Currency) : result string :=
  to_fixed
    (rounding (JS.div (intValue this) (_precision this))
              (increment (_settings this)))
    (precision (_settings this)).

(** [valueOf] *)
Definition valueOf (this : Currency) : result number :=
  s <- toString this ;; Ok (string_to_number s).

(** [toJSON] *)
Definition toJSON (this : Currency) : number := value this.

(** ToNumber on an argument used as a raw number; an instance converts
    through its [valueOf]. *)
Definition any_to_number (a : Any) : result number :=
  match a with
  | ANumber x => Ok x
  | AString s => Ok (string_to_number s)
  | ACurrency c => valueOf c
  | AForeign Null => Ok zero
  | AForeign (Boolean b) => Ok (if b then one else zero)
  | AForeign _ => Ok JS.NaN
  end.

Definition scale (s : Settings) (precision : number) : number :=
  if fromCents s then one else precision.

(** [add] *)
Definition add (this : Currency) (n : Any) : result Currency :=
  p <- parse n (_settings this) true ;;
  currency
    (ANumber (JS.div (JS.add (intValue this) (to_number p))
                     (scale (_settings this) (_precision this))))
    (as_options (_settings this)).

(** [subtract] *)
Definition subtract (this : Currency) (n : Any) : result Currency :=
  p <- parse n (_settings this) true ;;
  currency
    (ANumber (JS.div (JS.sub (intValue this) (to_number p))
                     (scale (_settings this) (_precision this))))
    (as_options (_settings this)).

(** [multiply] *)
Definition multiply (this : Currency) (n : Any) : result Currency :=
  x <- any_to_number n ;;
  currency
    (ANumber (JS.div (JS.mul (intValue this) x)
                     (scale (_settings this)
                            (pow (precision (_settings this))))))
    (as_options (_settings this)).

(** [divide] *)
Definition divide (this : Currency) (n : Any) : result Currency :=
  d <- parse n (_settings this) false ;;
  currency (ANumber (JS.div (intValue this) (to_number d)))
           (as_options (_settings this)).

(** The loop of [distribute]; [None] when [fuel] iterations did not bring
    [count] to 0. *)
Fixpoint distribute_loop (fuel : nat) (this : Currency)
    (split precision count pennies : number) (distribution : list Currency)
  : option (result (list Currency)) :=
  match fuel with
  | O => None
  | S fuel' =>
      if JS.strict_ne count zero then
        let step :=
          item <- currency (ANumber (JS.div split precision))
                           (as_options (_settings this)) ;;
          if JS.gt pennies zero then
            (if JS.ge (intValue this) zero
             then add item (ANumber (JS.div one precision))
             else subtract item (ANumber (JS.div one precision)))
          else Ok item in
        match step with
        | Ok item =>
            distribute_loop fuel' this split precision
              (JS.sub count one) (JS.sub pennies one)
              (distribution ++ [item])%list
        | Throw e => Some (Throw e)
        end
      else Some (Ok distribution)
  end.

(** [distribute] *)
Definition distribute (fuel : nat) (this : Currency) (count : number)
  : option (result (list Currency)) :=
  let q := JS.div (intValue this) count in
  let split := if JS.ge (intValue this) zero then JS.floor q else JS.ceil q in
  let pennies := JS.abs (JS.sub (intValue this) (JS.mul split count)) in
  let precision := scale (_settings this) (_precision this) in
  distribute_loop fuel this split precision count pennies [].

(** [dollars] *)
Definition dollars (this : Currency) : number := JS.bitnot2 (value this).

(** [cents] *)
Definition cents (this : Currency) : number :=
  JS.bitnot2 (JS.rem (intValue this) (_precision this)).

Definition at_boundary (rest : string) : bool :=
  match rest with
  | EmptyString => true
  | String c _ => negb (is_word c)
  end.

(** The lookahead [(\d{3})+\b]: the last group it matched. *)
Fixpoint ahead_threes (s : string) : option string :=
  match s with
  | String a (String b (String c rest)) =>
      if is_digit a && is_digit b && is_digit c then
        match ahead_threes rest with
        | Some g => Some g
        | None =>
            if at_boundary rest
            then Some (String a (String b (String c EmptyString)))
            else None
        end
      else None
  | _ => None
  end.

(** The lookahead [(\d\d)+\d\b]. *)
Fixpoint ahead_twos (s : string) : option string :=
  match s with
  | String a (String b rest) =>
      if is_digit a && is_digit b then
        match ahead_twos rest with
        | Some g => Some g
        | None =>
            match rest with
            | String d r =>
                if is_digit d && at_boundary r
                then Some (String a (String b EmptyString))
                else None
            | EmptyString => None
            end
        end
      else None
  | _ => None
  end.

Definition lookahead (g : Groups) (s : string) : option string :=
  match g with
  | groupRegex => ahead_threes s
  | vedicRegex => ahead_twos s
  end.

(** [s.replace(groups, tmpl)]: every digit followed by whole groups up to
    a word boundary is replaced by the expansion of [tmpl]. *)
Fixpoint replace_groups (g : Groups) (tmpl before s : string) : string :=
  match s with
  | EmptyString => EmptyString
  | String c r =>
      let one := String c EmptyString in
      if is_digit c then
        match lookahead g r with
        | Some grp =>
            expand tmpl one before r [Some one; Some grp]
            ++ replace_groups g tmpl (before ++ one) r
        | None => String c (replace_groups g tmpl (before ++ one) r)
        end
      else String c (replace_groups g tmpl (before ++ one) r)
  end.

(** [s.replace(/^-/, "")] *)
Definition strip_minus (s : string) : string :=
  match s with
  | String "-"%char r => r
  | _ => s
  end.

(** The module's [format].  [("" + currency)] converts the instance to a
    primitive, which calls its [valueOf] and prints the number obtained. *)
Definition format (currency : Currency) (settings : Settings)
  : result string :=
  x <- valueOf currency ;;
  let split := split_on "." (strip_minus (number_to_string x)) in
  let dollars := nth 0 split EmptyString in
  let cents := nth_error split 1 in
  let amount :=
    replace_groups (groups settings) ("$1" ++ separator settings)
                   EmptyString dollars
    ++ match cents with
       | Some (String c r) => String (decimal settings) (String c r)
       | _ => EmptyString
       end in
  Ok (replace_first "#" amount
        (replace_first "!" (symbol settings)
           (if JS.ge (value currency) zero
            then pattern settings else negativePattern settings))).

(** The argument of the [format] method. *)
Inductive FormatArg : Type :=
| NoOptions
| WithOptions (o : Options)
| WithFunction (f : number -> number -> string).

(** [Object.assign({}, settings, options)] read back as settings. *)
Definition override (s : Settings) (o : Options) : Settings :=
  {| symbol := get (symbol s) (o_symbol o);
     separator := get (separator s) (o_separator o);
     decimal := get (decimal s) (o_decimal o);
     errorOnInvalid := get (errorOnInvalid s) (o_errorOnInvalid o);
     precision := get (precision s) (o_precision o);
     increment := get (increment s) (o_increment o);
     useVedic := get (useVedic s) (o_useVedic o);
     pattern := get (pattern s) (o_pattern o);
     negativePattern := get (negativePattern s) (o_negativePattern o);
     format_fn := get (format_fn s) (o_format o);
     fromCents := get (fromCents s) (o_fromCents o);
     groups := get (groups s) (o_groups o) |}.

(** The [format] method. *)
Definition format_method (this : Currency) (options : FormatArg)
  : result string :=
  match options with
  | WithFunction f => Ok (f (intValue this) (value this))
  | _ =>
      let merged :=
        match options with
        | WithOptions o => override (_settings this) o
        | _ => _settings this
        end in
      match format_fn (_settings this) with
      | format_builtin => format this merged
      | format_custom f => Ok (f (intValue this) (value this))
      end
  end.

End CurrencyJs.

(** ** The program over a store of objects

    The definitions above work on values.  To follow what the program
    writes, the same operations are given over a heap of objects: the
    shared [defaults] object, the settings object of each instance, and the
    instances.  [new currency(...)] allocates the instance, [Object.assign]
    writes its first argument, and the constructor writes the fields of the
    two objects it allocated; the numbers and strings are computed by the
    functions of [CurrencyJs]. *)

Module Heap.

Import CurrencyJs.

Definition loc : Type := nat.

(** An object is a settings (or options) object, or an instance, whose
    fields are undefined until the constructor assigns them. *)
Inductive object : Type :=
| ObjOptions (o : Options)
| ObjInstance (intValue value : option number) (settings : option loc)
              (precision : option number).

Definition heap : Type := list object.

(** A computation on the heap returns a result or an exception, or goes
    wrong ([None]) when it follows a reference to no object or to an object
    of the other kind, which a caller of the typed interface cannot make it
    do; it always leaves a heap. *)
Definition M (A : Type) : Type := heap -> option (result A) * heap.

Definition ret {A : Type} (a : A) : M A := fun h => (Some (Ok a), h).
Definition wrong {A : Type} : M A := fun h => (None, h).
Definition lift {A : Type} (r : result A) : M A := fun h => (Some r, h).

Definition bindM {A B : Type} (m : M A) (k : A -> M B) : M B :=
  fun h =>
    match m h with
    | (Some (Ok a), h') => k a h'
    | (Some (Throw e), h') => (Some (Throw e), h')
    | (None, h') => (None, h')
    end.

Notation "x <~ m ;; k" := (bindM m (fun x => k))
  (at level 61, m at next level, right associativity).

Definition alloc (o : object) : M loc :=
  fun h => (Some (Ok (List.length h)), (h ++ [o])%list).

Definition load (l : loc) : M object :=
  fun h =>
    match nth_error h l with
    | Some o => (Some (Ok o), h)
    | None => (None, h)
    end.

Fixpoint update (l : nat) (o : object) (h : heap) : heap :=
  match h, l with
  | [], _ => []
  | _ :: t, O => o :: t
  | x :: t, S l' => x :: update l' o t
  end.

Definition store (l : loc) (o : object) : M unit :=
  fun h => (Some (Ok tt), update l o h).

(** The module-level constant [defaults] refers to the first object of the
    heap. *)
Definition defaults_loc : loc := 0%nat.

Definition initial_heap : heap := [ObjOptions defaults].

Definition options_at (l : loc) : M Options :=
  o <~ load l ;;
  match o with
  | ObjOptions opts => ret opts
  | ObjInstance _ _ _ _ => wrong
  end.

(** Reading the fields of a settings object. *)
Definition read_settings (o : Options) : Settings :=
  {| symbol := get EmptyString (o_symbol o);
     separator := get EmptyString (o_separator o);
     decimal := get "."%char (o_decimal o);
     errorOnInvalid := get false (o_errorOnInvalid o);
     precision := get 0%nat (o_precision o);
     increment := get JS.NaN (o_increment o);
     useVedic := get false (o_useVedic o);
     pattern := get EmptyString (o_pattern o);
     negativePattern := get EmptyString (o_negativePattern o);
     format_fn := get format_builtin (o_format o);
     fromCents := get false (o_fromCents o);
     groups := get groupRegex (o_groups o) |}.

(** Reading an instance whose fields are all assigned, with its settings. *)
Definition instance_at (l : loc) : M (Currency * loc) :=
  o <~ load l ;;
  match o with
  | ObjInstance (Some iv) (Some v) (Some sl) (Some p) =>
      opts <~ options_at sl ;;
      ret ({| intValue := iv; value := v;
              _settings := read_settings opts; _precision := p |}, sl)
  | _ => wrong
  end.

(** An argument: a primitive value or a reference to an instance. *)
Inductive Ref : Type :=
| RNumber (x : number)
| RString (s : string)
| RInstance (l : loc)
| RForeign (v : Foreign).

Definition resolve (r : Ref) : M Any :=
  match r with
  | RNumber x => ret (ANumber x)
  | RString s => ret (AString s)
  | RInstance l => c <~ instance_at l ;; ret (ACurrency (fst c))
  | RForeign v => ret (AForeign v)
  end.

(** [Object.assign(target, a, b)]: the fields present in [a], then those
    present in [b], are written to the object at [target]. *)
Definition object_assign (target : loc) (a : loc) (b : option loc) : M Options :=
  t <~ options_at target ;;
  oa <~ options_at a ;;
  ob <~ match b with
        | Some l => options_at l
        | None => ret no_options
        end ;;
  let merged := assign (assign t oa) ob in
  _ <~ store target (ObjOptions merged) ;;
  ret merged.

Definition set_intValue (l : loc) (x : number) : M unit :=
  o <~ load l ;;
  match o with
  | ObjInstance _ v s p => store l (ObjInstance (Some x) v s p)
  | ObjOptions _ => wrong
  end.

Definition set_value (l : loc) (x : number) : M unit :=
  o <~ load l ;;
  match o with
  | ObjInstance iv _ s p => store l (ObjInstance iv (Some x) s p)
  | ObjOptions _ => wrong
  end.

Definition set_settings (l : loc) (sl : loc) : M unit :=
  o <~ load l ;;
  match o with
  | ObjInstance iv v _ p => store l (ObjInstance iv v (Some sl) p)
  | ObjOptions _ => wrong
  end.

Definition set_precision (l : loc) (x : number) : M unit :=
  o <~ load l ;;
  match o with
  | ObjInstance iv v s _ => store l (ObjInstance iv v s (Some x))
  | ObjOptions _ => wrong
  end.

Definition set_increment (l : loc) (x : number) : M unit :=
  o <~ options_at l ;;
  store l (ObjOptions
    {| o_symbol := o_symbol o; o_separator := o_separator o;
       o_decimal := o_decimal o; o_errorOnInvalid := o_errorOnInvalid o;
       o_precision := o_precision o; o_increment := Some x;
       o_useVedic := o_useVedic o; o_pattern := o_pattern o;
       o_negativePattern := o_negativePattern o; o_format := o_format o;
       o_fromCents := o_fromCents o; o_groups := o_groups o |}).

Definition set_groups (l : loc) (g : Groups) : M unit :=
  o <~ options_at l ;;
  store l (ObjOptions
    {| o_symbol := o_symbol o; o_separator := o_separator o;
       o_decimal := o_decimal o; o_errorOnInvalid := o_errorOnInvalid o;
       o_precision := o_precision o; o_increment := o_increment o;
       o_useVedic := o_useVedic o; o_pattern := o_pattern o;
       o_negativePattern := o_negativePattern o; o_format := o_format o;
       o_fromCents := o_fromCents o; o_groups := Some g |}).

(** The constructor: [new] allocates [this]; the body allocates the
    settings object, fills it from [defaults] and [opts], parses, and
    assigns the fields of the two new objects. *)
Definition currency (input : Ref) (opts : option loc) : M loc :=
  that <~ alloc (ObjInstance None None None None) ;;
  settings <~ alloc (ObjOptions no_options) ;;
  merged <~ object_assign settings defaults_loc opts ;;
  let st := read_settings merged in
  let precision := pow (CurrencyJs.precision st) in
  arg <~ resolve input ;;
  v <~ lift (parse arg st true) ;;
  let v := to_number v in
  _ <~ set_intValue that v ;;
  _ <~ set_value that (JS.div v precision) ;;
  _ <~ set_increment settings
         (match o_increment merged with
          | Some i => if JS.truthy i then i else JS.div one precision
          | None => JS.div one precision
          end) ;;
  _ <~ set_groups settings
         (if get false (o_useVedic merged) then vedicRegex else groupRegex) ;;
  _ <~ set_settings that settings ;;
  _ <~ set_precision that precision ;;
  ret that.

(** [add]; the compound assignment [intValue += ...] changes the local
    variable the field was copied to, not the receiver. *)
Definition add (this : loc) (n : Ref) : M loc :=
  c <~ instance_at this ;;
  let '(c, sl) := c in
  arg <~ resolve n ;;
  p <~ lift (parse arg (_settings c) true) ;;
  currency
    (RNumber (JS.div (JS.add (intValue c) (to_number p))
                     (scale (_settings c) (_precision c))))
    (Some sl).

Definition subtract (this : loc) (n : Ref) : M loc :=
  c <~ instance_at this ;;
  let '(c, sl) := c in
  arg <~ resolve n ;;
  p <~ lift (parse arg (_settings c) true) ;;
  currency
    (RNumber (JS.div (JS.sub (intValue c) (to_number p))
                     (scale (_settings c) (_precision c))))
    (Some sl).

Definition multiply (this : loc) (n : Ref) : M loc :=
  c <~ instance_at this ;;
  let '(c, sl) := c in
  arg <~ resolve n ;;
  x <~ lift (any_to_number arg) ;;
  currency
    (RNumber (JS.div (JS.mul (intValue c) x)
                     (scale (_settings c)
                            (pow (CurrencyJs.precision (_settings c))))))
    (Some sl).

Definition divide (this : loc) (n : Ref) : M loc :=
  c <~ instance_at this ;;
  let '(c, sl) := c in
  arg <~ resolve n ;;
  d <~ lift (parse arg (_settings c) false) ;;
  currency (RNumber (JS.div (intValue c) (to_number d))) (Some sl).

Fixpoint distribute_loop (fuel : nat) (iv : number) (sl : loc)
    (split precision count pennies : number) (distribution : list loc)
  : M (option (list loc)) :=
  match fuel with
  | O => ret None
  | S fuel' =>
      if JS.strict_ne count zero then
        item <~ currency (RNumber (JS.div split precision)) (Some sl) ;;
        item <~ (if JS.gt pennies zero then
                   if JS.ge iv zero
                   then add item (RNumber (JS.div one precision))
                   else subtract item (RNumber (JS.div one precision))
                 else ret item) ;;
        distribute_loop fuel' iv sl split precision
          (JS.sub count one) (JS.sub pennies one)
          (distribution ++ [item])%list
      else ret (Some distribution)
  end.

(** [distribute]; [None] inside the result when [fuel] iterations did not
    end the loop. *)
Definition distribute (fuel : nat) (this : loc) (count : number)
  : M (option (list loc)) :=
  c <~ instance_at this ;;
  let '(c, sl) := c in
  let q := JS.div (intValue c) count in
  let split := if JS.ge (intValue c) zero then JS.floor q else JS.ceil q in
  let pennies := JS.abs (JS.sub (intValue c) (JS.mul split count)) in
  let precision := scale (_settings c) (_precision c) in
  distribute_loop fuel (intValue c) sl split precision count pennies [].

Definition toString (this : loc) : M string :=
  c <~ instance_at this ;;
  lift (CurrencyJs.toString (fst c)).

(** The argument of the [format] method: nothing, a reference to an
    options object, or a function. *)
Inductive FormatRef : Type :=
| NoOptions
| WithOptions (l : loc)
| WithFunction (f : number -> number -> string).

(** The [format] method; [Object.assign({}, _settings, options)] fills a
    new object. *)
Definition format (this : loc) (options : FormatRef) : M string :=
  c <~ instance_at this ;;
  let '(c, sl) := c in
  match options with
  | WithFunction f => ret (f (intValue c) (value c))
  | _ =>
      target <~ alloc (ObjOptions no_options) ;;
      merged <~ object_assign target sl
                  (match options with
                   | WithOptions l => Some l
                   | _ => None
                   end) ;;
      match format_fn (_settings c) with
      | format_builtin => lift (CurrencyJs.format c (read_settings merged))
      | format_custom f => ret (f (intValue c) (value c))
      end
  end.





End Heap.

(** * Facts about the number model *)

Module NumberFacts.

Import JS.
Local Open Scope Q_scope.

Lemma pow2_pos e : 0 < pow2 e.
Proof. apply Qpower_0_lt. reflexivity. Qed.

Lemma two_neq0 : ~ two == 0.
Proof. discriminate. Qed.

Lemma pow2_add a b : pow2 (a + b) == pow2 a * pow2 b.
Proof. apply Qpower_plus, two_neq0. Qed.

Lemma pow2_sub a b : pow2 (a - b) == pow2 a / pow2 b.
Proof. apply Qpower_minus, two_neq0. Qed.

Lemma pow2_le a b : (a <= b)%Z -> pow2 a <= pow2 b.
Proof. intros. apply Qpower_le_compat_l; [assumption | discriminate]. Qed.

Lemma pow2_lt a b : (a < b)%Z -> pow2 a < pow2 b.
Proof. intros. apply Qpower_lt_compat_l; [assumption | reflexivity]. Qed.

Lemma pow2_Z n : (0 <= n)%Z -> pow2 n == inject_Z (2 ^ n).
Proof. intros. unfold pow2, two. rewrite Zpower_Qpower by assumption. reflexivity. Qed.

Lemma pow2_succ a : pow2 (a + 1) == 2 * pow2 a.
Proof. rewrite pow2_add. change (pow2 1) with 2. ring. Qed.

(* ilog2 *)
Lemma Q_as_frac q : q == inject_Z (Qnum q) / inject_Z (Zpos (Qden q)).
Proof. destruct q as [n d]. simpl. rewrite Qmake_Qdiv. reflexivity. Qed.

Lemma ilog2_spec q : 0 < q -> pow2 (ilog2 q) <= q /\ q < pow2 (ilog2 q + 1).
Proof.
  intros Hq. unfold ilog2.
  set (n := Qnum q). set (d := Zpos (Qden q)).
  assert (Hn : (0 < n)%Z).
  { unfold n. destruct q as [a b]. unfold Qlt in Hq. simpl in *. lia. }
  assert (Hd : (0 < d)%Z) by (unfold d; lia).
  set (t := (Z.log2 n - Z.log2 d)%Z).
  destruct (Z.log2_spec n Hn) as [Hn1 Hn2].
  destruct (Z.log2_spec d Hd) as [Hd1 Hd2].
  assert (L1 := Z.log2_nonneg n). assert (L2 := Z.log2_nonneg d).
  assert (Eq : q == inject_Z n / inject_Z d) by apply Q_as_frac.
  assert (Dn : 0 < inject_Z d) by (change 0 with (inject_Z 0); rewrite <- Zlt_Qlt; lia).
  assert (Bn1 : pow2 (Z.log2 n) <= inject_Z n).
  { rewrite pow2_Z by lia. rewrite <- Zle_Qle. lia. }
  assert (Bn2 : inject_Z n < pow2 (Z.log2 n + 1)).
  { rewrite pow2_Z by lia. rewrite <- Zlt_Qlt. rewrite <- Z.add_1_r in Hn2. lia. }
  assert (Bd1 : pow2 (Z.log2 d) <= inject_Z d).
  { rewrite pow2_Z by lia. rewrite <- Zle_Qle. lia. }
  assert (Bd2 : inject_Z d < pow2 (Z.log2 d + 1)).
  { rewrite pow2_Z by lia. rewrite <- Zlt_Qlt. lia. }
  assert (Hqd : q * inject_Z d == inject_Z n).
  { rewrite Eq. field. lra. }
  assert (Pt : pow2 (Z.log2 n) == pow2 t * pow2 (Z.log2 d)).
  { rewrite <- pow2_add. unfold t. apply Qpower_comp; [reflexivity | lia]. }
  assert (Ppos := pow2_pos t). assert (Pdpos := pow2_pos (Z.log2 d)).
  rewrite pow2_succ in Bn2, Bd2.
  (* upper: q < 2^(t+1);  lower: q > 2^(t-1) *)
  assert (Up : q < pow2 (t + 1)).
  { rewrite pow2_succ.
    apply Qnot_le_lt. intro C.
    assert (2 * pow2 t * inject_Z d <= q * inject_Z d) by (apply Qmult_le_compat_r; lra).
    assert (pow2 t * pow2 (Z.log2 d) <= pow2 t * inject_Z d) by (apply Qmult_le_l; lra).
    lra. }
  assert (Lo : pow2 (t - 1) < q).
  { assert (E : pow2 t == 2 * pow2 (t - 1)).
    { rewrite <- pow2_succ. apply Qpower_comp; [reflexivity | lia]. }
    apply Qnot_le_lt. intro C.
    assert (q * inject_Z d <= pow2 (t - 1) * inject_Z d) by (apply Qmult_le_compat_r; lra).
    assert (Pp := pow2_pos (t - 1)).
    assert (pow2 (t - 1) * inject_Z d < pow2 (t - 1) * (2 * pow2 (Z.log2 d))).
    { apply Qmult_lt_l; lra. }
    rewrite E in Pt. lra. }
  destruct (Qle_bool (pow2 t) q) eqn:B.
  - apply Qle_bool_iff in B. split; assumption.
  - assert (~ pow2 t <= q) by (rewrite <- Qle_bool_iff; congruence).
    split; [lra|].
    replace (t - 1 + 1)%Z with t by lia. lra.
Qed.

Lemma inject_Z_succ z : inject_Z (z + 1) == inject_Z z + 1.
Proof. rewrite inject_Z_plus. reflexivity. Qed.

Lemma rne_cases x : rne x = Qfloor x \/ rne x = (Qfloor x + 1)%Z.
Proof.
  unfold rne. destruct (Qcompare _ _); auto. destruct (Z.even _); auto.
Qed.

Lemma rne_close x :
  x - (1 # 2) <= inject_Z (rne x) /\ inject_Z (rne x) <= x + (1 # 2).
Proof.
  assert (F1 := Qfloor_le x). assert (F2 := Qlt_floor x).
  rewrite inject_Z_succ in F2.
  unfold rne.
  destruct (Qcompare_spec (x - inject_Z (Qfloor x)) (1 # 2)) as [E|E|E].
  - destruct (Z.even (Qfloor x)); rewrite ?inject_Z_succ; lra.
  - lra.
  - rewrite inject_Z_succ. lra.
Qed.

Lemma rne_ge_int x j : inject_Z j <= x -> (j <= rne x)%Z.
Proof.
  intros H.
  assert (j <= Qfloor x)%Z.
  { rewrite <- (Qfloor_Z j). apply Qfloor_resp_le. assumption. }
  destruct (rne_cases x) as [E|E]; rewrite E; lia.
Qed.

Lemma rne_le_int x j : x <= inject_Z j -> (rne x <= j)%Z.
Proof.
  intros H.
  assert (F1 := Qfloor_le x). assert (F2 := Qlt_floor x).
  assert (Qfloor x <= j)%Z.
  { rewrite <- (Qfloor_Z j). apply Qfloor_resp_le. assumption. }
  destruct (Z.eq_dec (Qfloor x) j) as [E|NE].
  - unfold rne. rewrite E.
    destruct (Qcompare_spec (x - inject_Z j) (1 # 2)) as [C|C|C]; try lia.
    + lra.
    + lra.
  - destruct (rne_cases x) as [E|E]; rewrite E; lia.
Qed.

Lemma rne_int x z : x == inject_Z z -> rne x = z.
Proof.
  intros H. apply Z.le_antisymm.
  - apply rne_le_int. lra.
  - apply rne_ge_int. lra.
Qed.

Lemma rne_comp x y : x == y -> rne x = rne y.
Proof.
  intros H. unfold rne. rewrite (Qfloor_comp _ _ H).
  assert (E : Qcompare (x - inject_Z (Qfloor y)) (1 # 2) = Qcompare (y - inject_Z (Qfloor y)) (1 # 2)).
  { apply Qcompare_comp; [rewrite H|]; reflexivity. }
  rewrite E. reflexivity.
Qed.

Lemma rnd_abs_unfold a :
  rnd_abs a = inject_Z (rne (a / pow2 (ulp_exp a))) * pow2 (ulp_exp a).
Proof. reflexivity. Qed.

Lemma ilog2_unique q l : 0 < q -> pow2 l <= q -> q < pow2 (l + 1) -> ilog2 q = l.
Proof.
  intros Hq H1 H2. destruct (ilog2_spec q Hq) as [S1 S2].
  assert (ilog2 q < l + 1)%Z.
  { apply (Qpower_lt_compat_l_inv two); [|reflexivity]. fold (pow2 (ilog2 q)) (pow2 (l + 1)). lra. }
  assert (l < ilog2 q + 1)%Z.
  { apply (Qpower_lt_compat_l_inv two); [|reflexivity]. fold (pow2 l) (pow2 (ilog2 q + 1)). lra. }
  lia.
Qed.

Lemma ilog2_comp a b : 0 < a -> a == b -> ilog2 a = ilog2 b.
Proof.
  intros Ha E. assert (Hb : 0 < b) by lra.
  destruct (ilog2_spec b Hb). apply ilog2_unique; lra.
Qed.

Lemma ilog2_lt a n : 0 < a -> a < pow2 n -> (ilog2 a < n)%Z.
Proof.
  intros Ha H. destruct (ilog2_spec a Ha) as [S1 _].
  apply (Qpower_lt_compat_l_inv two); [|reflexivity].
  fold (pow2 (ilog2 a)) (pow2 n). lra.
Qed.

Lemma ilog2_ge a n : 0 < a -> pow2 n <= a -> (n <= ilog2 a)%Z.
Proof.
  intros Ha H. destruct (ilog2_spec a Ha) as [_ S2].
  assert (n < ilog2 a + 1)%Z; [|lia].
  apply (Qpower_lt_compat_l_inv two); [|reflexivity].
  fold (pow2 (ilog2 a + 1)) (pow2 n). lra.
Qed.

Lemma rnd_abs_comp a b : 0 < a -> a == b -> rnd_abs a == rnd_abs b.
Proof.
  intros Ha E. rewrite !rnd_abs_unfold. unfold ulp_exp.
  rewrite (ilog2_comp a b Ha E).
  set (e := Z.max _ _).
  rewrite (rne_comp (a / pow2 e) (b / pow2 e)); [reflexivity|].
  rewrite E. reflexivity.
Qed.

(** Absolute error: half a unit in the last place. *)
Lemma rnd_abs_close a :
  a - pow2 (ulp_exp a) * (1 # 2) <= rnd_abs a /\
  rnd_abs a <= a + pow2 (ulp_exp a) * (1 # 2).
Proof.
  rewrite rnd_abs_unfold. set (e := ulp_exp a).
  assert (P := pow2_pos e).
  destruct (rne_close (a / pow2 e)) as [L U].
  set (m := inject_Z (rne (a / pow2 e))) in *.
  assert (E : a == a / pow2 e * pow2 e) by (field; lra).
  split.
  - assert ((a / pow2 e - (1 # 2)) * pow2 e <= m * pow2 e) by (apply Qmult_le_compat_r; lra).
    lra.
  - assert (m * pow2 e <= (a / pow2 e + (1 # 2)) * pow2 e) by (apply Qmult_le_compat_r; lra).
    lra.
Qed.

Lemma rnd_abs_nonneg a : 0 <= a -> 0 <= rnd_abs a.
Proof.
  intros Ha. rewrite rnd_abs_unfold. set (e := ulp_exp a).
  assert (P := pow2_pos e).
  apply Qmult_le_0_compat; [|lra].
  change 0 with (inject_Z 0). rewrite <- Zle_Qle. apply rne_ge_int.
  change (inject_Z 0) with 0. apply Qle_shift_div_l; lra.
Qed.

(** Relative error for a value in the normal range. *)
Lemma ulp_normal a : pow2 (-1022) <= a -> pow2 (ulp_exp a) <= a * pow2 (-52).
Proof.
  intros H. assert (Ha : 0 < a) by (assert (P := pow2_pos (-1022)); lra).
  assert (L := ilog2_ge a (-1022) Ha H).
  unfold ulp_exp. rewrite Z.max_l by lia.
  rewrite pow2_sub. destruct (ilog2_spec a Ha) as [S1 _].
  assert (P := pow2_pos 52).
  assert (E : a * pow2 (-52) == a / pow2 52).
  { change (-52)%Z with (- (52))%Z. unfold pow2. rewrite Qpower_opp. reflexivity. }
  rewrite E. apply Qmult_le_compat_r; [assumption|].
  apply Qinv_le_0_compat. lra.
Qed.

Lemma rnd_abs_rel a :
  pow2 (-1022) <= a ->
  a - a * pow2 (-53) <= rnd_abs a /\ rnd_abs a <= a + a * pow2 (-53).
Proof.
  intros H. destruct (rnd_abs_close a) as [L U]. assert (N := ulp_normal a H).
  assert (E : a * pow2 (-53) == a * pow2 (-52) * (1 # 2)).
  { replace (-53)%Z with (-52 + -1)%Z by lia. rewrite pow2_add.
    change (pow2 (-1)) with (1 # 2). ring. }
  lra.
Qed.

(** Integers below 2^53 bracket the rounding. *)
Lemma ulp_small a : 0 < a -> a < pow2 53 -> (ulp_exp a <= 0)%Z.
Proof.
  intros Ha H. assert (L := ilog2_lt a 53 Ha H). unfold ulp_exp. lia.
Qed.

Lemma inject_Z_scaled j e :
  (e <= 0)%Z -> inject_Z (j * 2 ^ (- e)) == inject_Z j / pow2 e.
Proof.
  intros He. rewrite inject_Z_mult. rewrite <- pow2_Z by lia.
  unfold pow2. rewrite Qpower_opp. field. apply Qpower_not_0. discriminate.
Qed.

Lemma rnd_abs_ge_int a j :
  0 < a -> a < pow2 53 -> inject_Z j <= a -> inject_Z j <= rnd_abs a.
Proof.
  intros Ha H53 Hj. rewrite rnd_abs_unfold.
  assert (He := ulp_small a Ha H53). set (e := ulp_exp a) in *.
  assert (P := pow2_pos e).
  assert (B : (j * 2 ^ (- e) <= rne (a / pow2 e))%Z).
  { apply rne_ge_int. rewrite inject_Z_scaled by assumption.
    apply Qmult_le_compat_r; [assumption|]. apply Qinv_le_0_compat. lra. }
  rewrite Zle_Qle in B. rewrite inject_Z_scaled in B by assumption.
  apply (Qmult_le_compat_r _ _ (pow2 e)) in B; [|lra].
  assert (E : inject_Z j / pow2 e * pow2 e == inject_Z j) by (field; lra).
  lra.
Qed.

Lemma rnd_abs_le_int a j :
  0 < a -> a < pow2 53 -> a <= inject_Z j -> rnd_abs a <= inject_Z j.
Proof.
  intros Ha H53 Hj. rewrite rnd_abs_unfold.
  assert (He := ulp_small a Ha H53). set (e := ulp_exp a) in *.
  assert (P := pow2_pos e).
  assert (B : (rne (a / pow2 e) <= j * 2 ^ (- e))%Z).
  { apply rne_le_int. rewrite inject_Z_scaled by assumption.
    apply Qmult_le_compat_r; [assumption|]. apply Qinv_le_0_compat. lra. }
  rewrite Zle_Qle in B. rewrite inject_Z_scaled in B by assumption.
  apply (Qmult_le_compat_r _ _ (pow2 e)) in B; [|lra].
  assert (E : inject_Z j / pow2 e * pow2 e == inject_Z j) by (field; lra).
  lra.
Qed.

Lemma rnd_abs_int a k :
  0 < a -> a < pow2 53 -> a == inject_Z k -> rnd_abs a == inject_Z k.
Proof.
  intros Ha H53 E. apply Qle_antisym.
  - apply rnd_abs_le_int; lra.
  - apply rnd_abs_ge_int; lra.
Qed.

Lemma Qred_inject_Z k : Qred (inject_Z k) = inject_Z k.
Proof.
  unfold Qred, inject_Z.
  generalize (Z.ggcd_gcd k 1) (Z.ggcd_correct_divisors k 1).
  destruct (Z.ggcd k 1) as [g [aa bb]]. simpl.
  rewrite Z.gcd_1_r. intros -> [H1 H2].
  rewrite Z.mul_1_l in H1, H2. subst. reflexivity.
Qed.

Lemma fin_int r k : r == inject_Z k -> fin r = of_Z k.
Proof.
  intros E. unfold fin, of_Z. rewrite (Qred_complete _ _ E).
  rewrite Qred_inject_Z. reflexivity.
Qed.

Lemma Qle_bool_false x y : y < x -> Qle_bool x y = false.
Proof.
  intros H. destruct (Qle_bool x y) eqn:E; [|reflexivity].
  apply Qle_bool_iff in E. lra.
Qed.

Lemma pow2_53_1024 : pow2 53 < pow2 1024.
Proof. apply pow2_lt. lia. Qed.

(** What [rnd] returns for a value that does not overflow. *)
Lemma rnd_pos q :
  0 < q -> rnd_abs q < pow2 1024 -> rnd q = fin (rnd_abs q).
Proof.
  intros Hq Hr. unfold rnd.
  destruct (Qcompare_spec q 0); try lra.
  rewrite Qle_bool_false by assumption. reflexivity.
Qed.

Lemma rnd_neg q :
  q < 0 -> rnd_abs (- q) < pow2 1024 -> rnd q = fin (- rnd_abs (- q)).
Proof.
  intros Hq Hr. unfold rnd.
  destruct (Qcompare_spec q 0); try lra.
  rewrite Qle_bool_false by assumption. reflexivity.
Qed.

Lemma rnd_zero q : q == 0 -> rnd q = Fin 0.
Proof.
  intros Hq. unfold rnd. destruct (Qcompare_spec q 0); try lra. reflexivity.
Qed.

(** Integers of magnitude below 2^53 are binary64 values. *)
Lemma rnd_int q k :
  (- 2 ^ 53 < k < 2 ^ 53)%Z -> q == inject_Z k -> rnd q = of_Z k.
Proof.
  intros Hk E.
  assert (P53 : pow2 53 == inject_Z (2 ^ 53)) by (apply pow2_Z; lia).
  assert (L := pow2_53_1024).
  destruct (Z.lt_trichotomy k 0) as [N|[Z0|P]].
  - assert (Hq : q < 0).
    { rewrite E. change 0 with (inject_Z 0). rewrite <- Zlt_Qlt. assumption. }
    assert (Hb : - q < pow2 53).
    { rewrite E, P53, <- inject_Z_opp, <- Zlt_Qlt. lia. }
    assert (R : rnd_abs (- q) == inject_Z (- k)).
    { apply rnd_abs_int; try lra. rewrite E, inject_Z_opp. reflexivity. }
    rewrite rnd_neg; try lra.
    + apply fin_int. rewrite R, inject_Z_opp. ring.
    + rewrite R. rewrite inject_Z_opp, <- E. lra.
  - subst k. rewrite rnd_zero by assumption. reflexivity.
  - assert (Hq : 0 < q).
    { rewrite E. change 0 with (inject_Z 0). rewrite <- Zlt_Qlt. assumption. }
    assert (Hb : q < pow2 53).
    { rewrite E, P53, <- Zlt_Qlt. lia. }
    assert (R : rnd_abs q == inject_Z k) by (apply rnd_abs_int; lra).
    rewrite rnd_pos; try lra.
    apply fin_int. assumption.
Qed.

Lemma rnd_of_Z k : (- 2 ^ 53 < k < 2 ^ 53)%Z -> rnd (inject_Z k) = of_Z k.
Proof. intros. apply rnd_int; [assumption | reflexivity]. Qed.

Lemma rnd_comp a b : a == b -> rnd a = rnd b.
Proof.
  intros E. unfold rnd. rewrite <- (Qcompare_comp a b E 0 0 (Qeq_refl 0)).
  destruct (Qcompare_spec a 0) as [C|C|C].
  - reflexivity.
  - assert (R : rnd_abs (- a) == rnd_abs (- b)).
    { apply rnd_abs_comp; [lra | rewrite E; reflexivity]. }
    rewrite (Qleb_comp _ _ (Qeq_refl (pow2 1024)) _ _ R).
    destruct (Qle_bool _ _); [reflexivity|].
    unfold fin. f_equal. apply Qred_complete. rewrite R. reflexivity.
  - assert (R : rnd_abs a == rnd_abs b) by (apply rnd_abs_comp; lra).
    rewrite (Qleb_comp _ _ (Qeq_refl (pow2 1024)) _ _ R).
    destruct (Qle_bool _ _); [reflexivity|].
    unfold fin. f_equal. apply Qred_complete. assumption.
Qed.

Lemma pow2_1023_1024 : pow2 1024 == 2 * pow2 1023.
Proof. change 1024%Z with (1023 + 1)%Z. apply pow2_succ. Qed.

Lemma u_small : pow2 (-53) < 1.
Proof. change 1 with (pow2 0). apply pow2_lt. lia. Qed.

(** A value in the normal range rounds to a finite value within a relative
    error of 2^-53. *)
Lemma rnd_rel q :
  pow2 (-1022) <= Qabs q -> Qabs q <= pow2 1023 ->
  exists r, rnd q = Fin r /\
    q - Qabs q * pow2 (-53) <= r /\ r <= q + Qabs q * pow2 (-53).
Proof.
  intros Lo Hi. assert (P := pow2_pos (-1022)). assert (U := u_small).
  assert (U0 := pow2_pos (-53)).
  assert (T := pow2_1023_1024). assert (P3 := pow2_pos 1023).
  assert (M2 : pow2 1023 * pow2 (-53) < pow2 1023).
  { rewrite <- pow2_add. apply pow2_lt. lia. }
  destruct (Qlt_le_dec q 0) as [N|NN].
  - assert (EA : Qabs q == - q) by (apply Qabs_neg; lra).
    rewrite EA in Lo, Hi.
    destruct (rnd_abs_rel (- q) Lo) as [A B].
    assert (M : - q * pow2 (-53) <= pow2 1023 * pow2 (-53)).
    { apply Qmult_le_compat_r; lra. }
    exists (Qred (- rnd_abs (- q))). split.
    + apply rnd_neg; lra.
    + rewrite Qred_correct, EA. split; lra.
  - assert (EA : Qabs q == q) by (apply Qabs_pos; lra).
    rewrite EA in Lo, Hi.
    destruct (rnd_abs_rel q Lo) as [A B].
    assert (M : q * pow2 (-53) <= pow2 1023 * pow2 (-53)).
    { apply Qmult_le_compat_r; lra. }
    exists (Qred (rnd_abs q)). split.
    + apply rnd_pos; lra.
    + rewrite Qred_correct, EA. split; lra.
Qed.

(** Below 2^53 in magnitude, rounding never crosses an integer. *)
Lemma rnd_bracket q :
  Qabs q < pow2 53 ->
  exists r, rnd q = Fin r /\
    (forall j, inject_Z j <= q -> inject_Z j <= r) /\
    (forall j, q <= inject_Z j -> r <= inject_Z j).
Proof.
  intros H. assert (L := pow2_53_1024). assert (P53 : pow2 53 == inject_Z (2 ^ 53)) by (apply pow2_Z; lia).
  destruct (Qcompare_spec q 0) as [Z0|N|P].
  - exists 0. split; [apply rnd_zero; assumption|]. split; intros; lra.
  - rewrite Qabs_neg in H by lra.
    assert (B : rnd_abs (- q) <= inject_Z (2 ^ 53)) by (apply rnd_abs_le_int; lra).
    exists (Qred (- rnd_abs (- q))). split; [apply rnd_neg; lra|].
    split; intros j Hj; rewrite Qred_correct.
    + assert (rnd_abs (- q) <= inject_Z (- j)); [|rewrite inject_Z_opp in *; lra].
      apply rnd_abs_le_int; try lra. rewrite inject_Z_opp. lra.
    + assert (inject_Z (- j) <= rnd_abs (- q)); [|rewrite inject_Z_opp in *; lra].
      apply rnd_abs_ge_int; try lra. rewrite inject_Z_opp. lra.
  - rewrite Qabs_pos in H by lra.
    assert (B : rnd_abs q <= inject_Z (2 ^ 53)) by (apply rnd_abs_le_int; lra).
    exists (Qred (rnd_abs q)). split; [apply rnd_pos; lra|].
    split; intros j Hj; rewrite Qred_correct.
    + apply rnd_abs_ge_int; lra.
    + apply rnd_abs_le_int; lra.
Qed.

End NumberFacts.

(** * Facts about the conversions between numbers and strings *)

Module TextFacts.

Import JS Str Conv NumberFacts.
Local Open Scope string_scope.
Local Open Scope Z_scope.

Lemma digit_char_val d : 0 <= d <= 9 -> digit_val (digit_char d) = d.
Proof.
  intros H. unfold digit_val, digit_char.
  rewrite nat_ascii_embedding by lia. lia.
Qed.

Lemma digit_char_is_digit d : 0 <= d <= 9 -> is_digit (digit_char d) = true.
Proof.
  intros H. unfold is_digit, digit_char.
  rewrite nat_ascii_embedding by lia.
  apply andb_true_intro. split; apply Nat.leb_le; lia.
Qed.

Lemma digits_value_app a b v :
  digits_value v (a ++ b) = digits_value (digits_value v a) b.
Proof. revert v. induction a as [|c a IH]; intros v; simpl; [reflexivity | apply IH]. Qed.

Lemma all_digits_app a b :
  all_digits (a ++ b) = all_digits a && all_digits b.
Proof.
  induction a as [|c a IH]; simpl; [reflexivity|].
  rewrite IH, andb_assoc. reflexivity.
Qed.

Lemma app_assoc' (a b c : string) : (a ++ b) ++ c = a ++ (b ++ c).
Proof. induction a as [|x a IH]; simpl; [reflexivity | rewrite IH; reflexivity]. Qed.

Lemma app_empty_r (a : string) : a ++ "" = a.
Proof. induction a as [|x a IH]; simpl; [reflexivity | rewrite IH; reflexivity]. Qed.

Lemma length_app' (a b : string) : length (a ++ b) = (length a + length b)%nat.
Proof. induction a as [|x a IH]; simpl; [reflexivity | rewrite IH; reflexivity]. Qed.

Lemma digits_onto_app fuel n acc :
  digits_onto fuel n acc = digits_onto fuel n "" ++ acc.
Proof.
  revert n acc. induction fuel as [|f IH]; intros n acc; simpl; [reflexivity|].
  destruct (n <? 10); [reflexivity|].
  rewrite (IH _ (String _ acc)), (IH _ (String _ "")).
  rewrite app_assoc'. reflexivity.
Qed.

Lemma digits_onto_spec f n :
  0 <= n < 2 ^ Z.of_nat (S f) ->
  digits_value 0 (digits_onto (S f) n "") = n
  /\ all_digits (digits_onto (S f) n "") = true
  /\ (0 < length (digits_onto (S f) n ""))%nat.
Proof.
  revert n. induction f as [|f IH]; intros n H.
  - assert (n < 10) by (change (2 ^ Z.of_nat 1) with 2 in H; lia).
    simpl. destruct (Z.ltb_spec n 10); [|lia]. simpl.
    assert (n mod 10 = n) by (apply Z.mod_small; lia).
    rewrite digit_char_val, digit_char_is_digit by lia.
    repeat split; [lia | lia].
  - change (digits_onto (S (S f)) n "")
      with (let acc' := String (digit_char (n mod 10)) "" in
            if n <? 10 then acc' else digits_onto (S f) (n / 10) acc').
    cbv zeta.
    assert (M : 0 <= n mod 10 <= 9) by (pose proof (Z.mod_pos_bound n 10); lia).
    destruct (Z.ltb_spec n 10) as [L|G].
    + simpl. assert (n mod 10 = n) by (apply Z.mod_small; lia).
      rewrite digit_char_val, digit_char_is_digit by lia.
      repeat split; [lia | lia].
    + rewrite digits_onto_app.
      assert (B : 0 <= n / 10 < 2 ^ Z.of_nat (S f)).
      { split; [apply Z.div_pos; lia|].
        apply Z.div_lt_upper_bound; [lia|].
        replace (Z.of_nat (S (S f))) with (Z.of_nat (S f) + 1) in H by lia.
        rewrite Z.pow_add_r in H by lia.
        assert (0 < 2 ^ Z.of_nat (S f)) by (apply Z.pow_pos_nonneg; lia).
        change (2 ^ 1) with 2 in H.
        set (X := 2 ^ Z.of_nat (S f)) in *. lia. }
      destruct (IH _ B) as [V [A Ln]].
      rewrite digits_value_app, V, all_digits_app, A, length_app'.
      cbn [digits_value all_digits length andb].
      rewrite digit_char_val, digit_char_is_digit by lia.
      repeat split; [|lia].
      pose proof (Z.div_mod n 10). lia.
Qed.

Lemma digits_of_spec n :
  0 <= n ->
  digits_value 0 (digits_of n) = n
  /\ all_digits (digits_of n) = true
  /\ (0 < length (digits_of n))%nat.
Proof.
  intros H. unfold digits_of. apply digits_onto_spec.
  split; [assumption|].
  rewrite Nat2Z.inj_succ, Z2Nat.id by apply Z.log2_nonneg.
  destruct (Z.eq_dec n 0) as [->|NZ]; [reflexivity|].
  apply Z.log2_spec. lia.
Qed.

Lemma repeat0_spec k :
  all_digits (repeat0 k) = true /\ length (repeat0 k) = k
  /\ forall s, digits_value 0 (repeat0 k ++ s) = digits_value 0 s.
Proof.
  induction k as [|k [A [L V]]]; simpl; [repeat split|].
  rewrite A, L. repeat split. intros s. apply V.
Qed.

Lemma take_drop n s : take n s ++ drop n s = s.
Proof.
  revert s. induction n as [|n IH]; intros [|c s]; simpl; try reflexivity.
  rewrite IH. reflexivity.
Qed.

Lemma length_take n s : (n <= length s)%nat -> length (take n s) = n.
Proof.
  revert s. induction n as [|n IH]; intros [|c s] H; simpl in *; try reflexivity; try lia.
  rewrite IH by lia. reflexivity.
Qed.

Lemma length_drop n s : length (drop n s) = (length s - n)%nat.
Proof.
  revert s. induction n as [|n IH]; intros [|c s]; simpl; try reflexivity.
  apply IH.
Qed.

Lemma span_digits_dot d r :
  all_digits d = true ->
  span is_digit (d ++ String "."%char r) = (d, String "."%char r).
Proof.
  induction d as [|c d IH]; simpl; intros H; [reflexivity|].
  apply andb_prop in H. destruct H as [H1 H2].
  rewrite H1, IH by assumption. reflexivity.
Qed.

Lemma span_digits_all d :
  all_digits d = true -> span is_digit d = (d, "").
Proof.
  induction d as [|c d IH]; simpl; intros H; [reflexivity|].
  apply andb_prop in H. destruct H as [H1 H2].
  rewrite H1, IH by assumption. reflexivity.
Qed.

(** Strings without white space are not changed by [trim]. *)
Fixpoint no_space (s : string) : bool :=
  match s with
  | EmptyString => true
  | String c r => negb (is_space c) && no_space r
  end.

Lemma rev_onto_app s acc : rev_onto s acc = rev_onto s "" ++ acc.
Proof.
  revert acc. induction s as [|c s IH]; intros acc; simpl; [reflexivity|].
  rewrite (IH (String c acc)), (IH (String c "")), app_assoc'. reflexivity.
Qed.

Lemma rev_app a b : rev (a ++ b) = rev b ++ rev a.
Proof.
  unfold rev. induction a as [|c a IH]; simpl.
  - rewrite app_empty_r. reflexivity.
  - rewrite rev_onto_app, IH, (rev_onto_app a (String c "")), app_assoc'. reflexivity.
Qed.

Lemma rev_involutive s : rev (rev s) = s.
Proof.
  induction s as [|c s IH]; [reflexivity|].
  change (String c s) with (String c "" ++ s) at 1.
  rewrite rev_app, rev_app, IH. reflexivity.
Qed.

Lemma no_space_app a b : no_space (a ++ b) = no_space a && no_space b.
Proof.
  induction a as [|c a IH]; simpl; [reflexivity|].
  rewrite IH, andb_assoc. reflexivity.
Qed.

Lemma no_space_rev s : no_space (rev s) = no_space s.
Proof.
  induction s as [|c s IH]; [reflexivity|].
  change (String c s) with (String c "" ++ s) at 1.
  rewrite rev_app, no_space_app, IH. simpl.
  rewrite andb_true_r, andb_comm. reflexivity.
Qed.

Lemma span_no_space s : no_space s = true -> span is_space s = ("", s).
Proof.
  destruct s as [|c s]; simpl; [reflexivity|].
  intros H. apply andb_prop in H. destruct H as [H _].
  apply negb_true_iff in H. rewrite H. reflexivity.
Qed.

Lemma trim_no_space s : no_space s = true -> trim s = s.
Proof.
  intros H. unfold trim. rewrite (span_no_space s) by assumption. cbn [snd].
  rewrite span_no_space; [cbn [snd]; apply rev_involutive|].
  rewrite no_space_rev. assumption.
Qed.

Lemma all_digits_no_space s : all_digits s = true -> no_space s = true.
Proof.
  induction s as [|c s IH]; simpl; [reflexivity|].
  intros H. apply andb_prop in H. destruct H as [H1 H2].
  rewrite IH by assumption. rewrite andb_true_r.
  unfold is_digit in H1. apply andb_prop in H1. destruct H1 as [A B].
  apply Nat.leb_le in A, B. unfold is_space.
  apply negb_true_iff.
  repeat (apply orb_false_intro); try (apply Nat.eqb_neq; lia).
  apply andb_false_intro2. apply Nat.leb_gt. lia.
Qed.

Lemma digit_eqb_other c x :
  is_digit c = true -> (nat_of_ascii x < 48 \/ 57 < nat_of_ascii x)%nat ->
  Ascii.eqb c x = false.
Proof.
  intros H Hx. apply Ascii.eqb_neq. intros ->.
  unfold is_digit in H. apply andb_prop in H. destruct H as [A B].
  apply Nat.leb_le in A, B. lia.
Qed.

Lemma unsigned_decimal_fixed d1 d2 :
  all_digits d1 = true -> all_digits d2 = true -> (0 < length d1)%nat ->
  unsigned_decimal (d1 ++ String "."%char d2)
  = Some (inject_Z (digits_value 0 (d1 ++ d2))
          * pow10Q (- Z.of_nat (length d2)))%Q.
Proof.
  intros A1 A2 L. unfold unsigned_decimal.
  rewrite span_digits_dot by assumption.
  rewrite span_digits_all by assumption.
  destruct d1 as [|c d1]; [simpl in L; lia|].
  reflexivity.
Qed.

Lemma fixed_text_read n f :
  0 <= n -> (0 < f)%nat ->
  exists c r,
    fixed_text n f = String c r /\ is_digit c = true
    /\ no_space (fixed_text n f) = true
    /\ unsigned_decimal (fixed_text n f)
       = Some (inject_Z n * pow10Q (- Z.of_nat f))%Q.
Proof.
  intros Hn Hf. destruct f as [|f]; [lia|]. unfold fixed_text.
  destruct (digits_of_spec n Hn) as [V [A Ln]].
  set (D := digits_of n) in *.
  destruct (repeat0_spec (S (S f) - length D)) as [ZA [ZL ZV]].
  set (m := repeat0 (S (S f) - length D) ++ D).
  assert (Am : all_digits m = true) by (unfold m; rewrite all_digits_app, ZA, A; reflexivity).
  assert (Lm : (S (S f) <= length m)%nat) by (unfold m; rewrite length_app', ZL; lia).
  assert (Vm : digits_value 0 m = n) by (unfold m; rewrite ZV; assumption).
  cbv zeta. fold m.
  set (k := length m) in *.
  assert (TD := take_drop (k - S f) m).
  assert (A' : all_digits (take (k - S f) m) && all_digits (drop (k - S f) m) = true).
  { rewrite <- all_digits_app, TD. assumption. }
  apply andb_prop in A'. destruct A' as [At Ad].
  assert (Lt' : length (take (k - S f) m) = (k - S f)%nat) by (apply length_take; lia).
  assert (Ld : length (drop (k - S f) m) = S f) by (rewrite length_drop; lia).
  remember (take (k - S f) m) as d1 eqn:E1.
  remember (drop (k - S f) m) as d2 eqn:E2.
  destruct d1 as [|c d1]; [simpl in Lt'; lia|].
  exists c, (d1 ++ String "."%char d2). split; [reflexivity|].
  simpl in At. apply andb_prop in At. destruct At as [Ac At].
  split; [assumption|]. split.
  - change (String c d1 ++ "." ++ d2) with (String c d1 ++ (String "."%char "" ++ d2)).
    rewrite !no_space_app.
    rewrite (all_digits_no_space (String c d1)) by (simpl; rewrite Ac, At; reflexivity).
    rewrite (all_digits_no_space d2) by assumption. reflexivity.
  - change (String c d1 ++ "." ++ d2) with (String c d1 ++ String "."%char d2).
    rewrite unsigned_decimal_fixed; try assumption.
    + rewrite TD, Vm, Ld. reflexivity.
    + simpl; rewrite Ac, At; reflexivity.
    + simpl. lia.
Qed.

Lemma is_neg_Fin q : is_neg (Fin q) = true <-> (q < 0)%Q.
Proof.
  simpl. destruct (Qcompare_spec q 0); split; intros; try discriminate; try reflexivity; lra.
Qed.

(** A decimal literal, and a text after a minus sign, are no hexadecimal,
    octal or binary literals. *)
Lemma non_decimal_decimal (t : string) (q : Q) :
  unsigned_decimal t = Some q -> non_decimal t = None.
Proof.
  destruct t as [|z [|p [|c r]]]; try reflexivity.
  unfold non_decimal.
  destruct (Ascii.eqb z "0") eqn:Ez; [|reflexivity].
  apply Ascii.eqb_eq in Ez. subst z. intros H.
  destruct (Ascii.eqb p "x") eqn:E1;
    [apply Ascii.eqb_eq in E1; subst p; cbv in H; discriminate H|].
  destruct (Ascii.eqb p "X") eqn:E2;
    [apply Ascii.eqb_eq in E2; subst p; cbv in H; discriminate H|].
  destruct (Ascii.eqb p "o") eqn:E3;
    [apply Ascii.eqb_eq in E3; subst p; cbv in H; discriminate H|].
  destruct (Ascii.eqb p "O") eqn:E4;
    [apply Ascii.eqb_eq in E4; subst p; cbv in H; discriminate H|].
  destruct (Ascii.eqb p "b") eqn:E5;
    [apply Ascii.eqb_eq in E5; subst p; cbv in H; discriminate H|].
  destruct (Ascii.eqb p "B") eqn:E6;
    [apply Ascii.eqb_eq in E6; subst p; cbv in H; discriminate H|].
  reflexivity.
Qed.

Lemma non_decimal_minus (r : string) : non_decimal (String "-" r) = None.
Proof. destruct r as [|p [|c r]]; reflexivity. Qed.

(** Reading back what [toFixed] printed. *)
Lemma to_fixed_read q f :
  (0 < f <= 100)%nat -> (Qabs q < inject_Z (10 ^ 21))%Q ->
  exists t,
    to_fixed (Fin q) f = Ok t
    /\ string_to_number t
       = let n := Qfloor (Qabs q * inject_Z (10 ^ Z.of_nat f) + (1 # 2)) in
         if is_neg (Fin q)
         then rnd (- (inject_Z n * pow10Q (- Z.of_nat f)))
         else rnd (inject_Z n * pow10Q (- Z.of_nat f)).
Proof.
  intros Hf Hq. unfold to_fixed.
  destruct (Nat.ltb_spec 100 f); [lia|].
  rewrite Qle_bool_false by assumption.
  set (n := Qfloor (Qabs q * inject_Z (10 ^ Z.of_nat f) + (1 # 2))).
  assert (Hn : 0 <= n).
  { unfold n. rewrite <- (Qfloor_Z 0). apply Qfloor_resp_le.
    assert (0 <= Qabs q * inject_Z (10 ^ Z.of_nat f))%Q.
    { apply Qmult_le_0_compat; [apply Qabs_nonneg|].
      change 0%Q with (inject_Z 0). rewrite <- Zle_Qle. apply Z.pow_nonneg. lia. }
    change (inject_Z 0) with 0%Q. lra. }
  destruct (fixed_text_read n f Hn) as [c [r [E [Dc [NS UD]]]]]; [lia|].
  eexists. split; [reflexivity|]. cbv zeta.
  unfold string_to_number. rewrite E in *.
  assert (NI : (String c r =? "Infinity")%string = false).
  { cbn [String.eqb]. rewrite (digit_eqb_other c "I"); [reflexivity | assumption |].
    right. apply Nat.ltb_lt. reflexivity. }
  destruct (is_neg (Fin q)).
  - change ("-" ++ String c r) with (String "-"%char (String c r)).
    rewrite trim_no_space by (cbn [no_space]; cbn [no_space] in NS; rewrite NS; reflexivity).
    rewrite non_decimal_minus.
    rewrite Ascii.eqb_refl, NI, UD. reflexivity.
  - change ("" ++ String c r) with (String c r).
    rewrite trim_no_space by assumption.
    rewrite (non_decimal_decimal _ _ UD).
    rewrite (digit_eqb_other c "-"); [|assumption | left; apply Nat.ltb_lt; reflexivity].
    rewrite (digit_eqb_other c "+"); [|assumption | left; apply Nat.ltb_lt; reflexivity].
    rewrite NI, UD. reflexivity.
Qed.

End TextFacts.

(** * Scaling an amount down and up again *)

Module ScalingFacts.

Import JS Str Conv NumberFacts TextFacts.
Local Open Scope Q_scope.

Lemma rnd_rel_pos q :
  pow2 (-1022) <= q -> q <= pow2 1023 ->
  exists r, rnd q = Fin r /\
    q - q * pow2 (-53) <= r /\ r <= q + q * pow2 (-53).
Proof.
  intros Lo Hi. assert (P := pow2_pos (-1022)).
  assert (EA : Qabs q == q) by (apply Qabs_pos; lra).
  destruct (rnd_rel q) as [r [E [A B]]]; try (rewrite EA; assumption).
  exists r. rewrite EA in A, B. auto.
Qed.

Lemma rnd_rel_neg q :
  pow2 (-1022) <= - q -> - q <= pow2 1023 ->
  exists r, rnd q = Fin r /\
    q + q * pow2 (-53) <= r /\ r <= q - q * pow2 (-53).
Proof.
  intros Lo Hi. assert (P := pow2_pos (-1022)).
  assert (EA : Qabs q == - q) by (apply Qabs_neg; lra).
  destruct (rnd_rel q) as [r [E [A B]]]; try (rewrite EA; assumption).
  exists r. rewrite EA in A, B. split; [assumption|]. split; lra.
Qed.

Lemma pow10Q_Z n : (0 <= n)%Z -> pow10Q n == inject_Z (10 ^ n).
Proof. intros. unfold pow10Q. rewrite Zpower_Qpower by assumption. reflexivity. Qed.

Lemma pow10Q_neg4 : pow10Q (- Z.of_nat 4) == 1 # 10000.
Proof. reflexivity. Qed.

(** The unit roundoff against the amounts of the theorem. *)
Lemma u_bound : inject_Z (10 ^ 15) * pow2 (-53) <= 112 # 1000.
Proof. unfold Qle. vm_compute. discriminate. Qed.

Lemma tiny_normal : pow2 (-1022) <= 1 # 100000000000000000000000.
Proof. unfold Qle. vm_compute. discriminate. Qed.

Lemma huge_normal : inject_Z (10 ^ 22) <= pow2 1023.
Proof. unfold Qle. vm_compute. discriminate. Qed.

Lemma floor_unique x k :
  inject_Z k <= x -> x < inject_Z k + 1 -> Qfloor x = k.
Proof.
  intros A B.
  assert (F1 := Qfloor_le x). assert (F2 := Qlt_floor x).
  rewrite inject_Z_plus in F2. change (inject_Z 1) with 1 in F2.
  assert (k < Qfloor x + 1)%Z.
  { rewrite Zlt_Qlt, inject_Z_plus. change (inject_Z 1) with 1. lra. }
  assert (Qfloor x < k + 1)%Z.
  { rewrite Zlt_Qlt, inject_Z_plus. change (inject_Z 1) with 1. lra. }
  lia.
Qed.

Lemma round_near r k :
  inject_Z k - (1 # 2) <= r -> r < inject_Z k + (1 # 2) ->
  JS.round (Fin r) = of_Z k.
Proof.
  intros A B. unfold JS.round, lift_int. f_equal.
  apply floor_unique; lra.
Qed.

Lemma u_milli : pow2 (-53) <= 1 # 1000.
Proof. unfold Qle. vm_compute. discriminate. Qed.

Lemma half_normal : pow2 (-1022) <= 1 # 4.
Proof. unfold Qle. vm_compute. discriminate. Qed.

Lemma big_normal : inject_Z (10 ^ 16) <= pow2 1023.
Proof. unfold Qle. vm_compute. discriminate. Qed.

Lemma fixed_close (a : Q) (n : Z) :
  0 <= a -> n = Qfloor (a * inject_Z (10 ^ Z.of_nat 4) + (1 # 2)) ->
  a - (1 # 20000) <= inject_Z n * (1 # 10000)
  /\ inject_Z n * (1 # 10000) <= a + (1 # 20000).
Proof.
  intros Ha ->. set (x := a * inject_Z (10 ^ Z.of_nat 4) + (1 # 2)).
  assert (F1 := Qfloor_le x). assert (F2 := Qlt_floor x).
  rewrite inject_Z_plus in F2. change (inject_Z 1) with 1 in F2.
  unfold x in *. change (inject_Z (10 ^ Z.of_nat 4)) with (10000 # 1) in *.
  split; lra.
Qed.

(** Scaling an integer amount down and up again, printing it with four
    decimals and reading it back gives the amount. *)
Lemma scaled_back_pos k P :
  (1 <= k <= 10 ^ 15)%Z -> (1 <= P <= 10 ^ 22)%Z ->
  exists t,
    to_fixed (JS.mul (JS.div (of_Z k) (of_Z P)) (of_Z P)) 4 = Ok t
    /\ JS.round (string_to_number t) = of_Z k.
Proof.
  intros Hk HP.
  set (K := inject_Z k). set (Pq := inject_Z P). set (U := pow2 (-53)).
  assert (K1 : 1 <= K) by (unfold K; change 1 with (inject_Z 1); rewrite <- Zle_Qle; lia).
  assert (K2 : K <= inject_Z (10 ^ 15)) by (unfold K; rewrite <- Zle_Qle; lia).
  assert (P1 : 1 <= Pq) by (unfold Pq; change 1 with (inject_Z 1); rewrite <- Zle_Qle; lia).
  assert (P2 : Pq <= inject_Z (10 ^ 22)) by (unfold Pq; rewrite <- Zle_Qle; lia).
  assert (U0 : 0 < U) by apply pow2_pos.
  assert (U1 := u_milli). fold U in U1.
  assert (D : K * U <= 112 # 1000).
  { assert (K * U <= inject_Z (10 ^ 15) * U) by (apply Qmult_le_compat_r; lra).
    assert (B := u_bound). fold U in B. lra. }
  assert (D0 : 0 <= K * U) by (apply Qmult_le_0_compat; lra).
  assert (TN := tiny_normal). assert (HN := huge_normal).
  assert (QN := half_normal). assert (BN := big_normal).
  change (inject_Z (10 ^ 15)) with (1000000000000000 # 1) in *.
  change (inject_Z (10 ^ 16)) with (10000000000000000 # 1) in *.
  (* the quotient *)
  unfold JS.div, of_Z. fold K Pq.
  assert (NZ : Qeq_bool Pq 0 = false).
  { destruct (Qeq_bool Pq 0) eqn:E; [|reflexivity]. apply Qeq_bool_eq in E. lra. }
  rewrite NZ.
  set (q1 := K / Pq).
  assert (E1 : q1 * Pq == K) by (unfold q1; field; lra).
  assert (Q1lo : 1 # 100000000000000000000000 <= q1).
  { unfold q1. apply Qle_shift_div_l; [lra|].
    change (inject_Z (10 ^ 22)) with (10000000000000000000000 # 1) in P2. lra. }
  assert (Q1hi : q1 <= K).
  { unfold q1. apply Qle_shift_div_r; [lra|].
    assert (K * 1 <= K * Pq) by (apply Qmult_le_l; lra). lra. }
  destruct (rnd_rel_pos q1) as [r1 [R1 [A1 B1]]]; [lra | lra |]. fold U in A1, B1.
  rewrite R1. unfold JS.mul. fold Pq.
  (* the product *)
  set (q2 := r1 * Pq).
  assert (A2' : K - K * U <= q2).
  { unfold q2. assert ((q1 - q1 * U) * Pq <= r1 * Pq) by (apply Qmult_le_compat_r; lra).
    assert ((q1 - q1 * U) * Pq == K - K * U) by (rewrite <- E1; ring). lra. }
  assert (B2' : q2 <= K + K * U).
  { unfold q2. assert (r1 * Pq <= (q1 + q1 * U) * Pq) by (apply Qmult_le_compat_r; lra).
    assert ((q1 + q1 * U) * Pq == K + K * U) by (rewrite <- E1; ring). lra. }
  destruct (rnd_rel_pos q2) as [r2 [R2 [A2 B2]]]; [lra | lra |]. fold U in A2, B2.
  rewrite R2.
  assert (M2 : q2 * U <= K * U + (112 # 1000) * (1 # 1000)).
  { assert (q2 * U <= (K + K * U) * U) by (apply Qmult_le_compat_r; lra).
    assert (K * U * U <= (112 # 1000) * (1 # 1000)).
    { apply Qmult_le_compat_nonneg; split; lra. }
    lra. }
  assert (M2' : 0 <= q2 * U) by (apply Qmult_le_0_compat; lra).
  (* printing and reading *)
  assert (Hr2 : 0 < r2) by lra.
  assert (EA : Qabs r2 == r2) by (apply Qabs_pos; lra).
  destruct (to_fixed_read r2 4) as [t [T S]]; [lia | rewrite EA; change (inject_Z (10 ^ 21)) with (1000000000000000000000 # 1); lra |].
  exists t. split; [assumption|]. rewrite S. cbv zeta.
  assert (NN : is_neg (Fin r2) = false).
  { destruct (is_neg (Fin r2)) eqn:E; [|reflexivity]. apply is_neg_Fin in E. lra. }
  rewrite NN.
  remember (Qfloor (Qabs r2 * inject_Z (10 ^ Z.of_nat 4) + (1 # 2))) as n eqn:En.
  destruct (fixed_close (Qabs r2) n) as [C1 C2]; [apply Qabs_nonneg | assumption |].
  rewrite EA in C1, C2.
  set (q3 := inject_Z n * pow10Q (- Z.of_nat 4)).
  assert (E3 : q3 == inject_Z n * (1 # 10000)) by reflexivity.
  destruct (rnd_rel_pos q3) as [r3 [R3 [A3 B3]]]; [lra | lra |]. fold U in A3, B3.
  rewrite R3.
  assert (M3 : q3 * U <= K * U + (1 # 1000)).
  { assert (q3 * U <= (K + 1) * U) by (apply Qmult_le_compat_r; lra). lra. }
  assert (M3' : 0 <= q3 * U) by (apply Qmult_le_0_compat; lra).
  apply round_near; fold K; lra.
Qed.

Lemma scaled_back_neg k P :
  (- 10 ^ 15 <= k <= -1)%Z -> (1 <= P <= 10 ^ 22)%Z ->
  exists t,
    to_fixed (JS.mul (JS.div (of_Z k) (of_Z P)) (of_Z P)) 4 = Ok t
    /\ JS.round (string_to_number t) = of_Z k.
Proof.
  intros Hk HP.
  set (K := inject_Z k). set (Pq := inject_Z P). set (U := pow2 (-53)).
  assert (K1 : K <= -1) by (unfold K; change (-1) with (inject_Z (-1)); rewrite <- Zle_Qle; lia).
  assert (K2 : inject_Z (- 10 ^ 15) <= K) by (unfold K; rewrite <- Zle_Qle; lia).
  assert (P1 : 1 <= Pq) by (unfold Pq; change 1 with (inject_Z 1); rewrite <- Zle_Qle; lia).
  assert (P2 : Pq <= inject_Z (10 ^ 22)) by (unfold Pq; rewrite <- Zle_Qle; lia).
  assert (U0 : 0 < U) by apply pow2_pos.
  assert (U1 := u_milli). fold U in U1.
  change (inject_Z (- 10 ^ 15)) with (- (1000000000000000 # 1)) in *.
  assert (D : - (K * U) <= 112 # 1000).
  { assert (- K * U <= inject_Z (10 ^ 15) * U) by (apply Qmult_le_compat_r; change (inject_Z (10 ^ 15)) with (1000000000000000 # 1); lra).
    assert (B := u_bound). fold U in B.
    assert (- K * U == - (K * U)) by ring. lra. }
  assert (D0 : 0 <= - (K * U)).
  { assert (0 <= - K * U) by (apply Qmult_le_0_compat; lra).
    assert (- K * U == - (K * U)) by ring. lra. }
  assert (TN := tiny_normal). assert (HN := huge_normal).
  assert (QN := half_normal). assert (BN := big_normal).
  change (inject_Z (10 ^ 16)) with (10000000000000000 # 1) in *.
  change (inject_Z (10 ^ 22)) with (10000000000000000000000 # 1) in *.
  unfold JS.div, of_Z. fold K Pq.
  assert (NZ : Qeq_bool Pq 0 = false).
  { destruct (Qeq_bool Pq 0) eqn:E; [|reflexivity]. apply Qeq_bool_eq in E. lra. }
  rewrite NZ.
  set (q1 := K / Pq).
  assert (E1 : q1 * Pq == K) by (unfold q1; field; lra).
  assert (Q1lo : q1 <= - (1 # 100000000000000000000000)).
  { assert (1 # 100000000000000000000000 <= - K / Pq).
    { apply Qle_shift_div_l; lra. }
    assert (- K / Pq == - q1) by (unfold q1; field; lra). lra. }
  assert (Q1hi : K <= q1).
  { assert (- K / Pq <= - K).
    { apply Qle_shift_div_r; [lra|].
      assert (- K * 1 <= - K * Pq) by (apply Qmult_le_l; lra). lra. }
    assert (- K / Pq == - q1) by (unfold q1; field; lra). lra. }
  destruct (rnd_rel_neg q1) as [r1 [R1 [A1 B1]]]; [lra | lra |]. fold U in A1, B1.
  rewrite R1. unfold JS.mul. fold Pq.
  set (q2 := r1 * Pq).
  assert (A2' : K + K * U <= q2).
  { unfold q2. assert ((q1 + q1 * U) * Pq <= r1 * Pq) by (apply Qmult_le_compat_r; lra).
    assert ((q1 + q1 * U) * Pq == K + K * U) by (rewrite <- E1; ring). lra. }
  assert (B2' : q2 <= K - K * U).
  { unfold q2. assert (r1 * Pq <= (q1 - q1 * U) * Pq) by (apply Qmult_le_compat_r; lra).
    assert ((q1 - q1 * U) * Pq == K - K * U) by (rewrite <- E1; ring). lra. }
  destruct (rnd_rel_neg q2) as [r2 [R2 [A2 B2]]]; [lra | lra |]. fold U in A2, B2.
  rewrite R2.
  assert (M2 : - (q2 * U) <= - (K * U) + (112 # 1000) * (1 # 1000)).
  { assert (- q2 * U <= (- K - K * U) * U) by (apply Qmult_le_compat_r; lra).
    assert (- (K * U) * U <= (112 # 1000) * (1 # 1000)).
    { apply Qmult_le_compat_nonneg; split; lra. }
    assert (- q2 * U == - (q2 * U)) by ring.
    assert ((- K - K * U) * U == - (K * U) + - (K * U) * U) by ring.
    lra. }
  assert (M2' : 0 <= - (q2 * U)).
  { assert (0 <= - q2 * U) by (apply Qmult_le_0_compat; lra).
    assert (- q2 * U == - (q2 * U)) by ring. lra. }
  assert (Hr2 : r2 < 0) by lra.
  assert (EA : Qabs r2 == - r2) by (apply Qabs_neg; lra).
  destruct (to_fixed_read r2 4) as [t [T S]]; [lia | rewrite EA; change (inject_Z (10 ^ 21)) with (1000000000000000000000 # 1); lra |].
  exists t. split; [assumption|]. rewrite S. cbv zeta.
  assert (NN : is_neg (Fin r2) = true) by (apply is_neg_Fin; assumption).
  rewrite NN.
  remember (Qfloor (Qabs r2 * inject_Z (10 ^ Z.of_nat 4) + (1 # 2))) as n eqn:En.
  destruct (fixed_close (Qabs r2) n) as [C1 C2]; [apply Qabs_nonneg | assumption |].
  rewrite EA in C1, C2.
  set (q3 := - (inject_Z n * pow10Q (- Z.of_nat 4))).
  assert (E3 : q3 == - (inject_Z n * (1 # 10000))) by reflexivity.
  destruct (rnd_rel_neg q3) as [r3 [R3 [A3 B3]]]; [lra | lra |]. fold U in A3, B3.
  rewrite R3.
  assert (M3 : - (q3 * U) <= - (K * U) + (1 # 1000)).
  { assert (- q3 * U <= (- K + 1) * U) by (apply Qmult_le_compat_r; lra).
    assert (- q3 * U == - (q3 * U)) by ring.
    assert ((- K + 1) * U == - (K * U) + U) by ring. lra. }
  assert (M3' : 0 <= - (q3 * U)).
  { assert (0 <= - q3 * U) by (apply Qmult_le_0_compat; lra).
    assert (- q3 * U == - (q3 * U)) by ring. lra. }
  apply round_near; fold K; lra.
Qed.

Lemma scaled_back_zero P :
  (1 <= P)%Z ->
  exists t,
    to_fixed (JS.mul (JS.div (of_Z 0) (of_Z P)) (of_Z P)) 4 = Ok t
    /\ JS.round (string_to_number t) = of_Z 0.
Proof.
  intros HP. unfold JS.div, of_Z.
  assert (P1 : 1 <= inject_Z P) by (change 1 with (inject_Z 1); rewrite <- Zle_Qle; lia).
  assert (NZ : Qeq_bool (inject_Z P) 0 = false).
  { destruct (Qeq_bool (inject_Z P) 0) eqn:E; [|reflexivity]. apply Qeq_bool_eq in E. lra. }
  rewrite NZ. change (Qeq_bool (inject_Z 0) 0) with true.
  rewrite (rnd_zero (inject_Z 0 / inject_Z P)) by (field; lra).
  unfold JS.mul. rewrite (rnd_zero (0 * inject_Z P)) by ring.
  eexists. split; reflexivity.
Qed.

Lemma scaled_back k P :
  (- 10 ^ 15 <= k <= 10 ^ 15)%Z -> (1 <= P <= 10 ^ 22)%Z ->
  exists t,
    to_fixed (JS.mul (JS.div (of_Z k) (of_Z P)) (of_Z P)) 4 = Ok t
    /\ JS.round (string_to_number t) = of_Z k.
Proof.
  intros Hk HP.
  destruct (Z.lt_trichotomy k 0) as [N|[->|Pz]].
  - apply scaled_back_neg; lia.
  - apply scaled_back_zero; lia.
  - apply scaled_back_pos; lia.
Qed.

End ScalingFacts.

(** * The claims about the program *)

Import Conv NumberFacts TextFacts ScalingFacts CurrencyJs.

(** ** Exact integer arithmetic and the scale factor *)

Local Open Scope Z_scope.

Lemma pow_exact d : (d <= 22)%nat -> pow d = JS.of_Z (10 ^ Z.of_nat d).
Proof.
  intros H.
  do 23 (destruct d as [|d]; [vm_compute; reflexivity|]).
  lia.
Qed.

Lemma pow10_range d : (d <= 22)%nat -> 1 <= 10 ^ Z.of_nat d <= 10 ^ 22.
Proof.
  intros H. split.
  - assert (0 < 10 ^ Z.of_nat d) by (apply Z.pow_pos_nonneg; lia). lia.
  - apply Z.pow_le_mono_r; lia.
Qed.

(** Arithmetic on integers below 2^53 is exact. *)
Lemma add_int a b :
  - 2 ^ 53 < a + b < 2 ^ 53 -> JS.add (JS.of_Z a) (JS.of_Z b) = JS.of_Z (a + b).
Proof.
  intros H. unfold JS.add, JS.of_Z. apply rnd_int; [assumption|].
  rewrite inject_Z_plus. reflexivity.
Qed.

Lemma sub_int a b :
  - 2 ^ 53 < a - b < 2 ^ 53 -> JS.sub (JS.of_Z a) (JS.of_Z b) = JS.of_Z (a - b).
Proof.
  intros H. unfold JS.sub.
  change (JS.neg (JS.of_Z b)) with (JS.of_Z (- b)).
  rewrite add_int by lia. f_equal.
Qed.

Lemma mul_int a b :
  - 2 ^ 53 < a * b < 2 ^ 53 -> JS.mul (JS.of_Z a) (JS.of_Z b) = JS.of_Z (a * b).
Proof.
  intros H. unfold JS.mul, JS.of_Z. apply rnd_int; [assumption|].
  rewrite inject_Z_mult. reflexivity.
Qed.

Lemma div_one k :
  - 2 ^ 53 < k < 2 ^ 53 -> JS.div (JS.of_Z k) one = JS.of_Z k.
Proof.
  intros H. unfold JS.div, one, JS.of_Z.
  change (Qeq_bool (inject_Z 1) 0) with false. cbv iota.
  apply rnd_int; [assumption|]. change (inject_Z 1) with 1%Q. field.
Qed.

Lemma round_int k : JS.round (JS.of_Z k) = JS.of_Z k.
Proof.
  unfold JS.round, JS.lift_int, JS.of_Z. do 2 f_equal.
  apply floor_unique; lra.
Qed.

Lemma ge_int a b : JS.ge (JS.of_Z a) (JS.of_Z b) = (b <=? a).
Proof.
  unfold JS.ge, JS.of_Z.
  destruct (Z.leb_spec b a) as [L|G].
  - apply Qle_bool_iff. rewrite <- Zle_Qle. assumption.
  - apply Qle_bool_false. rewrite <- Zlt_Qlt. assumption.
Qed.

Lemma gt_int a b : JS.gt (JS.of_Z a) (JS.of_Z b) = (b <? a).
Proof.
  unfold JS.gt, JS.of_Z.
  destruct (Z.ltb_spec b a) as [L|G].
  - rewrite Qle_bool_false; [reflexivity|]. rewrite <- Zlt_Qlt. assumption.
  - apply negb_false_iff. apply Qle_bool_iff. rewrite <- Zle_Qle. assumption.
Qed.

Lemma strict_ne_int a b : JS.strict_ne (JS.of_Z a) (JS.of_Z b) = negb (a =? b).
Proof.
  unfold JS.strict_ne, JS.of_Z. f_equal.
  destruct (Z.eqb_spec a b) as [->|N].
  - apply Qeq_bool_refl.
  - destruct (Qeq_bool _ _) eqn:E; [|reflexivity].
    apply Qeq_bool_eq in E. rewrite inject_Z_injective in E. contradiction.
Qed.

(** Amounts the argument covers, and settings it covers. *)
Definition small (k : Z) : Prop := - 10 ^ 15 <= k <= 10 ^ 15.

Lemma small_53 k : small k -> - 2 ^ 53 < k < 2 ^ 53.
Proof. unfold small. intros H. change (2 ^ 53) with 9007199254740992. change (10 ^ 15) with 1000000000000000 in H. lia. Qed.

(** [parse] gives back an amount that was divided by the scale. *)
Lemma parse_scaled (s : Settings) (k : Z) :
  (precision s <= 22)%nat -> small k ->
  parse (ANumber (JS.div (JS.of_Z k) (scale s (pow (precision s))))) s true
  = Ok (VNumber (JS.of_Z k)).
Proof.
  intros Hd Hk. unfold parse, scale.
  destruct (fromCents s) eqn:FC.
  - rewrite div_one by (apply small_53; assumption).
    cbn [bind]. unfold round. cbn [to_number]. rewrite round_int. reflexivity.
  - cbn [bind to_number]. rewrite pow_exact by assumption.
    destruct (scaled_back k (10 ^ Z.of_nat (precision s)) Hk (pow10_range _ Hd)) as [t [T R]].
    rewrite T. cbn [bind]. unfold round. cbn [to_number]. rewrite R. reflexivity.
Qed.

(** What the constructor keeps of the settings it is given. *)
Lemma currency_settings input (st : Settings) c :
  currency input (as_options st) = Ok c ->
  precision (_settings c) = precision st
  /\ fromCents (_settings c) = fromCents st
  /\ errorOnInvalid (_settings c) = errorOnInvalid st
  /\ decimal (_settings c) = decimal st
  /\ _precision c = pow (precision st).
Proof.
  unfold currency. cbn [assign as_options defaults over get o_precision o_fromCents
    o_errorOnInvalid o_decimal o_symbol o_separator o_increment o_useVedic o_pattern
    o_negativePattern o_format o_groups].
  destruct (parse _ _ _) as [v|e]; cbn [bind]; [|discriminate].
  intros E. injection E as <-. cbn. repeat split.
Qed.

Lemma currency_scaled (st : Settings) (k : Z) :
  (precision st <= 22)%nat -> small k ->
  exists c,
    currency (ANumber (JS.div (JS.of_Z k) (scale st (pow (precision st)))))
             (as_options st) = Ok c
    /\ intValue c = JS.of_Z k
    /\ precision (_settings c) = precision st
    /\ fromCents (_settings c) = fromCents st
    /\ _precision c = pow (precision st).
Proof.
  intros Hd Hk.
  assert (E : exists c, currency (ANumber (JS.div (JS.of_Z k) (scale st (pow (precision st)))))
             (as_options st) = Ok c /\ intValue c = JS.of_Z k).
  { unfold currency. cbn [assign as_options defaults over get o_precision o_fromCents
      o_errorOnInvalid o_decimal o_symbol o_separator o_increment o_useVedic o_pattern
      o_negativePattern o_format o_groups].
    set (st' := Build_Settings _ _ _ _ _ _ _ _ _ _ _ _).
    assert (P : parse (ANumber (JS.div (JS.of_Z k) (scale st (pow (precision st))))) st' true
                = Ok (VNumber (JS.of_Z k))).
    { change (scale st (pow (precision st))) with (scale st' (pow (precision st'))).
      apply parse_scaled; assumption. }
    rewrite P. cbn [bind to_number]. eexists. split; reflexivity. }
  destruct E as [c [E I]]. exists c.
  destruct (currency_settings _ _ _ E) as [A [B [_ [_ C]]]]. auto.
Qed.

(** ** One unit more or less, and the quotient of [distribute] *)

Local Open Scope Z_scope.

Lemma small_one : small 1.
Proof. unfold small. change (10 ^ 15) with 1000000000000000. lia. Qed.

Lemma add_unit (item : Currency) (k : Z) :
  intValue item = JS.of_Z k ->
  _precision item = pow (precision (_settings item)) ->
  (precision (_settings item) <= 22)%nat ->
  small k -> small (k + 1) ->
  exists c,
    add item (ANumber (JS.div one (scale (_settings item) (_precision item))))
    = Ok c
    /\ intValue c = JS.of_Z (k + 1)
    /\ precision (_settings c) = precision (_settings item)
    /\ fromCents (_settings c) = fromCents (_settings item)
    /\ _precision c = pow (precision (_settings item)).
Proof.
  intros I P Hd Hk Hk1. unfold add. rewrite P, I.
  change one with (JS.of_Z 1) at 1.
  rewrite parse_scaled by (assumption || apply small_one).
  cbn [bind to_number].
  rewrite add_int by (apply small_53; assumption).
  apply currency_scaled; assumption.
Qed.

Lemma subtract_unit (item : Currency) (k : Z) :
  intValue item = JS.of_Z k ->
  _precision item = pow (precision (_settings item)) ->
  (precision (_settings item) <= 22)%nat ->
  small k -> small (k - 1) ->
  exists c,
    subtract item
      (ANumber (JS.div one (scale (_settings item) (_precision item))))
    = Ok c
    /\ intValue c = JS.of_Z (k - 1)
    /\ precision (_settings c) = precision (_settings item)
    /\ fromCents (_settings c) = fromCents (_settings item)
    /\ _precision c = pow (precision (_settings item)).
Proof.
  intros I P Hd Hk Hk1. unfold subtract. rewrite P, I.
  change one with (JS.of_Z 1) at 1.
  rewrite parse_scaled by (assumption || apply small_one).
  cbn [bind to_number].
  rewrite sub_int by (apply small_53; assumption).
  apply currency_scaled; assumption.
Qed.

Local Open Scope Q_scope.

Lemma u_53 : JS.pow2 (-53) * inject_Z (2 ^ 53) == 1.
Proof. reflexivity. Qed.

(** The quotient of two integers, rounded to binary64, has the floor (for
    a non-negative dividend) or the ceiling (for a negative one) of the
    exact quotient. *)
Lemma quotient_facts (a n : Z) :
  (1 <= a <= 10 ^ 15)%Z -> (1 <= n <= 2 ^ 53)%Z ->
  exists r,
    JS.rnd (inject_Z a / inject_Z n) = JS.Fin r
    /\ inject_Z (a / n) <= r /\ r < inject_Z (a / n) + 1.
Proof.
  intros Ha Hn.
  set (A := inject_Z a). set (N := inject_Z n). set (U := JS.pow2 (-53)).
  assert (A1 : 1 <= A) by (unfold A; change 1 with (inject_Z 1); rewrite <- Zle_Qle; lia).
  assert (A2 : A <= inject_Z (10 ^ 15)) by (unfold A; rewrite <- Zle_Qle; lia).
  assert (N1 : 1 <= N) by (unfold N; change 1 with (inject_Z 1); rewrite <- Zle_Qle; lia).
  assert (N2 : N <= inject_Z (2 ^ 53)) by (unfold N; rewrite <- Zle_Qle; lia).
  assert (U0 : 0 < U) by apply pow2_pos.
  assert (D : A * U <= 112 # 1000).
  { assert (A * U <= inject_Z (10 ^ 15) * U) by (apply Qmult_le_compat_r; lra).
    assert (B := u_bound). fold U in B. lra. }
  set (q := A / N). set (i := / N).
  assert (I0 : 0 < i) by (apply Qinv_lt_0_compat; lra).
  assert (I1 : N * i == 1) by (unfold i; field; lra).
  assert (Eq : q == A * i) by reflexivity.
  set (kz := (a / n)%Z).
  assert (Z1 : (n * kz <= a)%Z) by (apply Z.mul_div_le; lia).
  assert (Z2 : (a < n * (kz + 1))%Z).
  { pose proof (Z.mul_succ_div_gt a n). unfold kz. lia. }
  assert (Q1 : inject_Z kz <= q).
  { rewrite Eq. rewrite Zle_Qle, inject_Z_mult in Z1. fold A N in Z1.
    assert (N * inject_Z kz * i <= A * i) by (apply Qmult_le_compat_r; lra).
    assert (N * inject_Z kz * i == inject_Z kz * (N * i)) by ring.
    rewrite I1 in H0. lra. }
  assert (Q2 : q <= inject_Z kz + 1 - i).
  { assert (Z3 : (a + 1 <= n * (kz + 1))%Z) by lia.
    rewrite Zle_Qle, inject_Z_mult, !inject_Z_plus in Z3. fold A N in Z3.
    change (inject_Z 1) with 1 in Z3.
    assert ((A + 1) * i <= N * (inject_Z kz + 1) * i) by (apply Qmult_le_compat_r; lra).
    assert (N * (inject_Z kz + 1) * i == (inject_Z kz + 1) * (N * i)) by ring.
    rewrite I1 in H0. rewrite Eq. lra. }
  assert (QU : q * U <= (112 # 1000) * i).
  { rewrite Eq. assert (A * U * i <= (112 # 1000) * i) by (apply Qmult_le_compat_r; lra).
    assert (A * i * U == A * U * i) by ring. lra. }
  assert (Qlo : JS.pow2 (-1022) <= q).
  { assert (U <= i).
    { assert (E := u_53). fold U in E.
      assert (U * N <= U * inject_Z (2 ^ 53)) by (apply Qmult_le_l; lra).
      assert (U * N * i <= 1 * i) by (apply Qmult_le_compat_r; lra).
      assert (U * N * i == U * (N * i)) by ring. rewrite I1 in H1. lra. }
    assert (i <= q).
    { rewrite Eq. assert (1 * i <= A * i) by (apply Qmult_le_compat_r; lra). lra. }
    assert (JS.pow2 (-1022) <= U) by (apply pow2_le; lia). lra. }
  assert (Qhi : q <= A).
  { rewrite Eq. assert (i <= 1).
    { assert (1 * i <= N * i) by (apply Qmult_le_compat_r; lra). lra. }
    assert (A * i <= A * 1) by (apply Qmult_le_l; lra). lra. }
  assert (BN := big_normal). assert (PP := pow2_pos (-1022)).
  change (inject_Z (10 ^ 15)) with (1000000000000000 # 1) in *.
  change (inject_Z (10 ^ 16)) with (10000000000000000 # 1) in *.
  destruct (rnd_rel_pos q) as [r [R [A3 B3]]]; [lra | lra |]. fold U in A3, B3.
  exists r. split; [assumption|]. split.
  - destruct (rnd_bracket q) as [r' [R' [Lo _]]].
    + assert (EA : Qabs q == q) by (apply Qabs_pos; lra). rewrite EA.
      assert (inject_Z (10 ^ 15) < JS.pow2 53) by (unfold Qlt; vm_compute; reflexivity).
      change (inject_Z (10 ^ 15)) with (1000000000000000 # 1) in *. lra.
    + rewrite R in R'. injection R' as <-. apply Lo. assumption.
  - lra.
Qed.

Lemma Qopp_opp_eq q : - - q = q.
Proof. destruct q as [a b]. unfold Qopp. simpl. rewrite Z.opp_involutive. reflexivity. Qed.

Lemma rnd_opp q : JS.rnd (- q) = JS.neg (JS.rnd q).
Proof.
  unfold JS.rnd.
  destruct (Qcompare_spec q 0) as [E|L|G];
    destruct (Qcompare_spec (- q) 0) as [E'|L'|G']; try lra.
  - reflexivity.
  - cbv zeta. destruct (Qle_bool _ _); [reflexivity|].
    unfold JS.fin, JS.neg. rewrite Qred_opp, Qopp_opp_eq. reflexivity.
  - cbv zeta. rewrite Qopp_opp_eq. destruct (Qle_bool _ _); [reflexivity|].
    unfold JS.fin, JS.neg. rewrite Qred_opp. reflexivity.
Qed.

Lemma div_of_Z a n :
  (n <> 0)%Z ->
  JS.div (JS.of_Z a) (JS.of_Z n) = JS.rnd (inject_Z a / inject_Z n).
Proof.
  intros H. unfold JS.div, JS.of_Z.
  destruct (Qeq_bool (inject_Z n) 0) eqn:E; [|reflexivity].
  apply Qeq_bool_eq in E. change 0 with (inject_Z 0) in E.
  rewrite inject_Z_injective in E. contradiction.
Qed.

Lemma div_floor a n :
  (0 <= a <= 10 ^ 15)%Z -> (1 <= n <= 2 ^ 53)%Z ->
  JS.floor (JS.div (JS.of_Z a) (JS.of_Z n)) = JS.of_Z (a / n).
Proof.
  intros Ha Hn. rewrite div_of_Z by lia.
  destruct (Z.eq_dec a 0) as [->|NZ].
  - rewrite rnd_zero.
    + rewrite Z.div_0_l by lia. reflexivity.
    + assert (1 <= inject_Z n) by (change 1 with (inject_Z 1); rewrite <- Zle_Qle; lia).
      change (inject_Z 0) with 0. field. lra.
  - destruct (quotient_facts a n) as [r [R [L H]]]; [lia | lia |].
    rewrite R. unfold JS.floor, JS.lift_int. f_equal.
    apply floor_unique; assumption.
Qed.

Lemma div_ceil a n :
  (- 10 ^ 15 <= a < 0)%Z -> (1 <= n <= 2 ^ 53)%Z ->
  JS.ceil (JS.div (JS.of_Z a) (JS.of_Z n)) = JS.of_Z (- (- a / n)).
Proof.
  intros Ha Hn. rewrite div_of_Z by lia.
  destruct (quotient_facts (- a) n) as [r [R [L H]]]; [lia | lia |].
  assert (N1 : 1 <= inject_Z n) by (change 1 with (inject_Z 1); rewrite <- Zle_Qle; lia).
  assert (E : inject_Z a / inject_Z n == - (inject_Z (- a) / inject_Z n)).
  { rewrite inject_Z_opp. field. lra. }
  rewrite (rnd_comp _ _ E), rnd_opp, R.
  unfold JS.neg, JS.ceil, JS.lift_int, Qceiling. rewrite Qopp_opp_eq. do 2 f_equal.
  apply floor_unique; assumption.
Qed.

(** ** The shares of [distribute] *)

Local Open Scope Z_scope.

(** The shares [distribute] is to return, over the integers. *)
Definition base_share (a n : Z) : Z :=
  if 0 <=? a then a / n else - (- a / n).

Definition leftover (a n : Z) : Z := Z.abs (a - base_share a n * n).

Definition unit_of (a : Z) : Z := if 0 <=? a then 1 else -1.

Definition share_value (a n : Z) (i : nat) : Z :=
  base_share a n + (if Z.of_nat i <? leftover a n then unit_of a else 0).

Definition share_values (a : Z) (n : nat) : list Z :=
  map (share_value a (Z.of_nat n)) (seq 0 n).

Definition sum_Z (l : list Z) : Z := fold_right Z.add 0 l.

Lemma base_share_facts a n :
  1 <= n ->
  0 <= leftover a n < n
  /\ a = base_share a n * n + unit_of a * leftover a n
  /\ Z.abs (base_share a n) <= Z.abs a
  /\ Z.abs (base_share a n * n) <= Z.abs a
  /\ (0 < leftover a n -> 2 * Z.abs (base_share a n) <= Z.abs a)
  /\ leftover a n <= Z.abs a.
Proof.
  intros Hn. unfold leftover, base_share, unit_of.
  destruct (Z.leb_spec 0 a) as [P|N].
  - pose proof (Z.div_mod a n ltac:(lia)) as E.
    pose proof (Z.mod_pos_bound a n ltac:(lia)) as M.
    assert (K0 : 0 <= a / n) by (apply Z.div_pos; lia).
    set (k := a / n) in *. set (m := a mod n) in *.
    assert (K1 : k <= n * k) by nia.
    assert (K2 : 0 < m -> 2 * k <= n * k) by nia.
    replace (a - k * n) with m by lia.
    rewrite (Z.abs_eq m), (Z.abs_eq k), (Z.abs_eq a), (Z.abs_eq (k * n)) by nia.
    repeat split; try lia; intros Hm; specialize (K2 Hm); lia.
  - pose proof (Z.div_mod (- a) n ltac:(lia)) as E.
    pose proof (Z.mod_pos_bound (- a) n ltac:(lia)) as M.
    assert (K0 : 0 <= - a / n) by (apply Z.div_pos; lia).
    set (k := - a / n) in *. set (m := (- a) mod n) in *.
    assert (K1 : k <= n * k) by nia.
    assert (K2 : 0 < m -> 2 * k <= n * k) by nia.
    replace (a - - k * n) with (- m) by lia.
    rewrite Z.abs_opp, (Z.abs_eq m), Z.abs_opp, (Z.abs_eq k), (Z.abs_neq a) by lia.
    replace (- k * n) with (- (k * n)) by lia.
    rewrite Z.abs_opp, (Z.abs_eq (k * n)) by nia.
    repeat split; try lia; intros Hm; specialize (K2 Hm); lia.
Qed.

Lemma sum_shares base sg pen c s :
  sum_Z (map (fun i : nat => base + (if Z.of_nat i <? pen then sg else 0)) (seq s c))
  = Z.of_nat c * base + sg * Z.max 0 (Z.min (Z.of_nat (s + c)) pen - Z.of_nat s).
Proof.
  revert s. induction c as [|c IH]; intros s.
  - simpl. lia.
  - cbn [seq map sum_Z fold_right]. fold (sum_Z (map (fun i : nat => base + (if Z.of_nat i <? pen then sg else 0)) (seq (S s) c))).
    rewrite IH.
    assert (E : Z.max 0 (Z.min (Z.of_nat (s + S c)) pen - Z.of_nat s)
                = (if Z.of_nat s <? pen then 1 else 0)
                  + Z.max 0 (Z.min (Z.of_nat (S s + c)) pen - Z.of_nat (S s))).
    { destruct (Z.ltb_spec (Z.of_nat s) pen); lia. }
    rewrite E, (Nat2Z.inj_succ c). unfold Z.succ.
    destruct (Z.of_nat s <? pen); ring.
Qed.

Lemma share_values_sum a n :
  (1 <= n)%nat -> sum_Z (share_values a n) = a.
Proof.
  intros Hn. unfold share_values, share_value.
  rewrite sum_shares.
  destruct (base_share_facts a (Z.of_nat n)) as [L [E _]]; [lia|].
  assert (M : Z.max 0 (Z.min (Z.of_nat (0 + n)) (leftover a (Z.of_nat n)) - Z.of_nat 0)
              = leftover a (Z.of_nat n)) by (simpl (0 + n)%nat; lia).
  rewrite M. rewrite E at 4. ring.
Qed.

Lemma share_values_close a n x y :
  In x (share_values a n) -> In y (share_values a n) -> Z.abs (x - y) <= 1.
Proof.
  unfold share_values, share_value. intros Hx Hy.
  apply in_map_iff in Hx, Hy. destruct Hx as [i [<- _]]. destruct Hy as [j [<- _]].
  unfold unit_of. destruct (0 <=? a);
    destruct (Z.of_nat i <? leftover a (Z.of_nat n));
    destruct (Z.of_nat j <? leftover a (Z.of_nat n)); lia.
Qed.

Lemma abs_of_Z z : JS.abs (JS.of_Z z) = JS.of_Z (Z.abs z).
Proof. reflexivity. Qed.

Section Loop.

Variable this : Currency.
Variable a : Z.
Variable split sg : Z.

Let st := _settings this.

Hypothesis Hint : intValue this = JS.of_Z a.
Hypothesis Hprec : _precision this = pow (precision st).
Hypothesis Hd : (precision st <= 22)%nat.
Hypothesis Hsplit : small split.
Hypothesis Hsg : sg = unit_of a.

Lemma distribute_loop_spec (c : nat) :
  forall (p : Z) (acc : list Currency) (fuel : nat),
    (c < fuel)%nat ->
    Z.of_nat c <= 2 ^ 53 ->
    - 2 ^ 53 < p - Z.of_nat c -> p < 2 ^ 53 ->
    (0 < p -> small (split + sg)) ->
    exists items,
      distribute_loop fuel this (JS.of_Z split) (scale st (_precision this))
        (JS.of_Z (Z.of_nat c)) (JS.of_Z p) acc
      = Some (Ok (acc ++ items)%list)
      /\ map intValue items
         = map (fun j : nat =>
                  JS.of_Z (split + (if Z.of_nat j <? p then sg else 0)))
               (seq 0 c).
Proof.
  induction c as [|c IH]; intros p acc fuel Hf Hc Hp1 Hp2 Hsm.
  - destruct fuel as [|fuel]; [lia|]. exists []. cbn [distribute_loop].
    change zero with (JS.of_Z 0). rewrite strict_ne_int. cbn.
    rewrite app_nil_r. split; reflexivity.
  - destruct fuel as [|fuel]; [lia|]. cbn [distribute_loop].
    change zero with (JS.of_Z 0). change one with (JS.of_Z 1).
    rewrite strict_ne_int.
    destruct (Z.eqb_spec (Z.of_nat (S c)) 0) as [E|_]; [lia|]. cbn [negb].
    rewrite Hprec.
    destruct (currency_scaled st split Hd Hsplit) as [item [C [I [Pi [Fi PPi]]]]].
    fold st. rewrite C. cbn [bind].
    rewrite gt_int, Hint, ge_int.
    assert (SC : scale st (pow (precision st)) = scale (_settings item) (_precision item)).
    { unfold scale. rewrite Fi, PPi. reflexivity. }
    assert (PI : _precision item = pow (precision (_settings item))) by (rewrite Pi; assumption).
    assert (DI : (precision (_settings item) <= 22)%nat) by (rewrite Pi; assumption).
    assert (Step : exists item',
      (if 0 <? p
       then if 0 <=? a
            then add item (ANumber (JS.div (JS.of_Z 1) (scale st (pow (precision st)))))
            else subtract item (ANumber (JS.div (JS.of_Z 1) (scale st (pow (precision st)))))
       else Ok item) = Ok item'
      /\ intValue item' = JS.of_Z (split + (if 0 <? p then sg else 0))).
    { destruct (Z.ltb_spec 0 p) as [Pp|Pn].
      - specialize (Hsm Pp). rewrite Hsg in *. unfold unit_of in *.
        rewrite SC. change (JS.of_Z 1) with one.
        destruct (0 <=? a).
        + destruct (add_unit item split I PI DI Hsplit Hsm) as [c' [A [I' _]]].
          exists c'. split; assumption.
        + destruct (subtract_unit item split I PI DI Hsplit Hsm) as [c' [A [I' _]]].
          exists c'. split; assumption.
      - exists item. rewrite Z.add_0_r. split; [reflexivity | assumption]. }
    destruct Step as [item' [St' I']]. rewrite St'.
    rewrite !sub_int by lia.
    replace (Z.of_nat (S c) - 1) with (Z.of_nat c) by lia.
    destruct (IH (p - 1) (acc ++ [item'])%list fuel) as [items [L M]]; try lia.
    { intros H. apply Hsm. lia. }
    exists (item' :: items). split.
    + rewrite <- Hprec. rewrite L, <- app_assoc. reflexivity.
    + cbn [map seq]. rewrite I', M. f_equal.
      rewrite <- seq_shift, map_map. apply map_ext. intros j.
      do 2 f_equal. destruct (Z.ltb_spec (Z.of_nat j) (p - 1));
        destruct (Z.ltb_spec (Z.of_nat (S j)) p); lia.
Qed.

End Loop.

(** ** Distribution *)

Local Open Scope Z_scope.

Lemma distribute_split (a : Z) (n : Z) :
  small a -> 1 <= n <= 2 ^ 53 ->
  (if JS.ge (JS.of_Z a) zero
   then JS.floor (JS.div (JS.of_Z a) (JS.of_Z n))
   else JS.ceil (JS.div (JS.of_Z a) (JS.of_Z n)))
  = JS.of_Z (base_share a n).
Proof.
  intros Ha Hn. change zero with (JS.of_Z 0). rewrite ge_int.
  unfold base_share, small in *. destruct (Z.leb_spec 0 a).
  - apply div_floor; lia.
  - apply div_ceil; lia.
Qed.

Lemma distribute_pennies (a n : Z) :
  small a -> 1 <= n ->
  JS.abs (JS.sub (JS.of_Z a) (JS.mul (JS.of_Z (base_share a n)) (JS.of_Z n)))
  = JS.of_Z (leftover a n).
Proof.
  intros Ha Hn.
  destruct (base_share_facts a n Hn) as [_ [_ [_ [B [_ B']]]]].
  pose proof (small_53 a Ha) as S53. unfold leftover in B'.
  rewrite mul_int by lia. rewrite sub_int by lia. apply abs_of_Z.
Qed.

(** C1 (amended): for an instance whose [intValue] is an integer [a] with
    [|a| <= 10^15], built with at most 22 decimal digits, and for a count
    [n] with [1 <= n < 2^53], [distribute(n)] returns [n] shares whose
    minor-unit values are [share_values a n]: the floor of [a / n] for
    [a >= 0], the ceiling for [a < 0], with one unit added (for [a >= 0])
    or subtracted (for [a < 0]) on the first [|a - base * n|] shares.
    These values sum to [a] and any two of them differ by at most 1. *)
Theorem distribute_conserves (this : Currency) (a : Z) (n fuel : nat) :
  intValue this = JS.of_Z a ->
  _precision this = pow (precision (_settings this)) ->
  (precision (_settings this) <= 22)%nat ->
  - 10 ^ 15 <= a <= 10 ^ 15 ->
  (1 <= n)%nat -> Z.of_nat n < 2 ^ 53 ->
  (n < fuel)%nat ->
  exists shares,
    distribute fuel this (JS.of_Z (Z.of_nat n)) = Some (Ok shares)
    /\ map intValue shares = map JS.of_Z (share_values a n)
    /\ sum_Z (share_values a n) = a
    /\ (forall x y, In x (share_values a n) -> In y (share_values a n) ->
                    Z.abs (x - y) <= 1).
Proof.
  intros Hi Hp Hd Ha Hn1 Hn2 Hf.
  unfold distribute. rewrite Hi.
  rewrite distribute_split by (assumption || lia).
  rewrite distribute_pennies by (assumption || lia).
  destruct (base_share_facts a (Z.of_nat n)) as [L [E [B1 [B2 [B3 _]]]]]; [lia|].
  assert (Hs : small (base_share a (Z.of_nat n))).
  { unfold small in *. lia. }
  destruct (distribute_loop_spec this a (base_share a (Z.of_nat n)) (unit_of a)
              Hi Hp Hd Hs eq_refl n (leftover a (Z.of_nat n)) [] fuel)
    as [items [D M]]; try lia.
  { intros Hl. specialize (B3 Hl). unfold small, unit_of in *.
    change (10 ^ 15) with 1000000000000000 in *.
    destruct (0 <=? a); lia. }
  exists items. split; [exact D|]. split.
  - rewrite M. unfold share_values, share_value. rewrite map_map. reflexivity.
  - split; [apply share_values_sum; assumption | apply share_values_close].
Qed.

Definition settings_of (r : result Currency) : Settings :=
  match r with
  | Ok c => _settings c
  | Throw _ =>
      {| symbol := ""; separator := ""; decimal := "."; errorOnInvalid := false;
         precision := 0; increment := JS.NaN; useVedic := false; pattern := "";
         negativePattern := ""; format_fn := format_builtin; fromCents := false;
         groups := groupRegex |}
  end.

Definition hundred_dollars : Currency :=
  {| intValue := JS.of_Z 10000;
     value := JS.of_Z 100;
     _settings := settings_of (currency (ANumber (JS.of_Z 100)) no_options);
     _precision := pow 2 |}.

Lemma distribute_conserves_witness :
  exists shares,
    distribute 4 hundred_dollars (JS.of_Z (Z.of_nat 3)) = Some (Ok shares)
    /\ map intValue shares = map JS.of_Z (share_values 10000 3)
    /\ sum_Z (share_values 10000 3) = 10000
    /\ (forall x y, In x (share_values 10000 3) -> In y (share_values 10000 3) ->
                    Z.abs (x - y) <= 1).
Proof.
  apply (distribute_conserves hundred_dollars 10000 3 4).
  - reflexivity.
  - reflexivity.
  - vm_compute. lia.
  - lia.
  - lia.
  - reflexivity.
  - lia.
Defined.

(** C1 (as stated) fails on very large amounts: the instance built from the
    number 100000000000000 has [intValue] 10^16, and [distribute(3)]
    returns three shares of 3333333333333333 minor units, which sum to
    10^16 - 1. *)
Lemma distribute_loses_a_unit :
  exists this shares,
    currency (ANumber (JS.of_Z (10 ^ 14))) no_options = Ok this
    /\ intValue this = JS.of_Z (10 ^ 16)
    /\ distribute 4 this (JS.of_Z 3) = Some (Ok shares)
    /\ map intValue shares
       = map JS.of_Z [3333333333333333; 3333333333333333; 3333333333333333]
    /\ 3333333333333333 + 3333333333333333 + 3333333333333333 <> 10 ^ 16.
Proof.
  eexists. eexists. split; [vm_compute; reflexivity|].
  split; [reflexivity|]. split; [vm_compute; reflexivity|].
  split; [reflexivity|]. discriminate.
Qed.

(** ** The examples of the specification *)

Local Open Scope Z_scope.
Local Open Scope string_scope.

(** The JavaScript number written [n / d] in decimal. *)
Definition literal (n : Z) (d : positive) : number := JS.rnd (n # d).

(** C2: with the default configuration, the value constructed from the
    number 0.1, after adding 0.2, prints as "0.30", although the sum of the
    two binary64 numbers 0.1 and 0.2 itself prints as
    "0.30000000000000004". *)
Theorem exact_addition :
  (c <- currency (ANumber (literal 1 10)) no_options ;;
   s <- add c (ANumber (literal 2 10)) ;;
   toString s) = Ok "0.30"
  /\ number_to_string (JS.add (literal 1 10) (literal 2 10))
     = "0.30000000000000004".
Proof. split; vm_compute; reflexivity. Qed.

(** C4 (code at the failing input): a string that is not empty after the
    three replacements but is not a number, here "1.2.3" and "-", gives an
    instance whose [intValue] is NaN, not 0. *)
Theorem malformed_string_is_NaN :
  (c <- currency (AString "1.2.3") no_options ;; Ok (intValue c)) = Ok JS.NaN
  /\ (c <- currency (AString "-") no_options ;; Ok (intValue c)) = Ok JS.NaN.
Proof. split; vm_compute; reflexivity. Qed.

Definition use_vedic : Options :=
  {| o_symbol := None; o_separator := None; o_decimal := None;
     o_errorOnInvalid := None; o_precision := None; o_increment := None;
     o_useVedic := Some true; o_pattern := None; o_negativePattern := None;
     o_format := None; o_fromCents := None; o_groups := None |}.

(** C9 (code at the failing input): formatting the value constructed from
    1234567 gives "$1,234,567" with the default configuration and
    "$12,34,567" with [useVedic], without the two decimals, although
    [toString] gives "1234567.00": [format] converts the instance with
    ["" + currency], which goes through [valueOf] and prints the number. *)
Theorem format_drops_decimals :
  (c <- currency (ANumber (JS.of_Z 1234567)) no_options ;;
   format_method c NoOptions) = Ok "$1,234,567"
  /\ (c <- currency (ANumber (JS.of_Z 1234567)) use_vedic ;;
      format_method c NoOptions) = Ok "$12,34,567"
  /\ (c <- currency (ANumber (JS.of_Z 1234567)) no_options ;;
      toString c) = Ok "1234567.00".
Proof. repeat split; vm_compute; reflexivity. Qed.

(** C10 (code at the failing input): for the value constructed from
    3000000000, [dollars()] is -1294967296: [~~] wraps the value into 32
    bits. *)
Theorem dollars_wraps :
  (c <- currency (ANumber (JS.of_Z 3000000000)) no_options ;;
   Ok (value c, dollars c))
  = Ok (JS.of_Z 3000000000, JS.of_Z (-1294967296)).
Proof. vm_compute. reflexivity. Qed.

(** ** Invalid input *)

Local Open Scope Z_scope.

Lemma to_fixed_4 x : exists t, to_fixed x 4 = Ok t.
Proof.
  unfold to_fixed. change (100 <? 4)%nat with false. cbv iota.
  destruct x; try (eexists; reflexivity).
  destruct (Qle_bool _ _); eexists; reflexivity.
Qed.

(** When [parse] throws. *)
Lemma scaled_text_ok (v : Value) (s : Settings) (useRounding : bool) :
  exists w,
    (v' <- (if fromCents s then Ok v
            else t <- to_fixed (JS.mul (to_number v) (pow (precision s))) 4 ;;
                 Ok (VString t)) ;;
     Ok (if useRounding then VNumber (round v') else v')) = Ok w.
Proof.
  destruct (fromCents s); cbn [bind]; [eexists; reflexivity|].
  destruct (to_fixed_4 (JS.mul (to_number v) (pow (precision s)))) as [t T].
  rewrite T. cbn [bind]. eexists. reflexivity.
Qed.

(** Marks that stand for themselves in the two expressions. *)
Lemma literal_regexes (d : ascii) :
  literal_mark d = true ->
  well_formed d = true /\ others_regex d = OthersClass d
  /\ mark_regex d = EscChar d.
Proof.
  destruct d as [b0 b1 b2 b3 b4 b5 b6 b7].
  destruct b0, b1, b2, b3, b4, b5, b6, b7;
    intros H; first [discriminate H | repeat split; reflexivity].
Qed.

Lemma clean_literal (d : ascii) (s : string) :
  literal_mark d = true ->
  clean d s
  = Str.map (fun c => if Ascii.eqb c d then "."%char else c)
      (Str.filter (fun c => Ascii.eqb c "-" || Str.is_digit c || Ascii.eqb c d)
                  (paren_negative s)).
Proof.
  intros H. destruct (literal_regexes d H) as [_ [O M]].
  unfold clean. rewrite O, M. reflexivity.
Qed.

(** What [parse] throws: the invalid-input error, for an input of another
    type when [errorOnInvalid] is set, and the syntax error of the first
    expression, for a string when the decimal mark is a backslash. *)
Lemma parse_throws input s useRounding e :
  parse input s useRounding = Throw e ->
  (e = InvalidInput /\ errorOnInvalid s = true /\ exists v, input = AForeign v)
  \/ (e = SyntaxError /\ well_formed (decimal s) = false
      /\ exists str, input = AString str).
Proof.
  unfold parse.
  destruct input as [x|str|c|v].
  - cbn [bind]. destruct (scaled_text_ok (VNumber x) s useRounding) as [w W].
    destruct (fromCents s); rewrite W; discriminate.
  - destruct (well_formed (decimal s)) eqn:WF.
    + cbn [bind].
      set (v0 := match clean (decimal s) str with
                 | EmptyString => VNumber zero
                 | String _ _ => VString (clean (decimal s) str)
                 end).
      destruct (scaled_text_ok v0 s useRounding) as [w W].
      destruct (fromCents s); rewrite W; discriminate.
    + destruct (fromCents s); cbn [bind]; intros E; injection E as <-;
        right; eauto.
  - destruct (fromCents s) eqn:FC; [discriminate|]. cbn [bind].
    destruct (scaled_text_ok (VNumber (value c)) s useRounding) as [w W].
    rewrite FC in W. rewrite W. discriminate.
  - destruct (errorOnInvalid s).
    + destruct (fromCents s); cbn [bind]; intros E; injection E as <-;
        left; eauto.
    + cbn [bind]. destruct (scaled_text_ok (VNumber zero) s useRounding) as [w W].
      destruct (fromCents s); rewrite W; discriminate.
Qed.







Definition merged_precision (opts : Options) : nat :=
  get 0%nat (o_precision (assign defaults opts)).

(** The decimal mark of the settings the constructor builds from [opts]. *)
Definition merged_decimal (opts : Options) : ascii :=
  get "."%char (o_decimal (assign defaults opts)).







(** ** Whole minor units *)

Local Open Scope Z_scope.

(** An integer, or one of NaN, Infinity and -Infinity. *)
Definition whole (x : number) : Prop :=
  match x with
  | JS.Fin q => exists k : Z, q = inject_Z k
  | _ => True
  end.

Definition is_integer (x : number) : Prop := exists k : Z, x = JS.of_Z k.

Lemma round_whole x : whole (JS.round x).
Proof. destruct x; simpl; auto. eexists. reflexivity. Qed.

Lemma parse_whole input s v :
  (forall ci, input = ACurrency ci -> whole (intValue ci)) ->
  parse input s true = Ok v -> whole (to_number v).
Proof.
  intros Hc. unfold parse.
  assert (G : forall r : result Value,
    (v' <- r ;;
     v'' <- (if fromCents s then Ok v'
             else t <- to_fixed (JS.mul (to_number v') (pow (precision s))) 4 ;;
                  Ok (VString t)) ;;
     Ok (VNumber (round v''))) = Ok v -> whole (to_number v)).
  { intros [v0|e]; cbn [bind]; [|discriminate].
    destruct (if fromCents s then _ else _) as [v1|e]; cbn [bind]; [|discriminate].
    intros E. injection E as <-. apply round_whole. }
  destruct input as [x|str|c|f]; try apply G.
  destruct (fromCents s); [|apply G].
  intros E. injection E as <-. apply (Hc c). reflexivity.
Qed.

Lemma currency_whole input opts c :
  (forall ci, input = ACurrency ci -> whole (intValue ci)) ->
  currency input opts = Ok c -> whole (intValue c).
Proof.
  intros Hc. unfold currency.
  set (st := Build_Settings _ _ _ _ _ _ _ _ _ _ _ _).
  destruct (parse input st true) as [v|e] eqn:P; cbn [bind]; [|discriminate].
  intros E. injection E as <-. cbn [intValue].
  eapply parse_whole; eassumption.
Qed.

Lemma currency_number_whole x opts c :
  currency (ANumber x) opts = Ok c -> whole (intValue c).
Proof. apply currency_whole. intros ci E. discriminate. Qed.

Lemma add_whole this n c : add this n = Ok c -> whole (intValue c).
Proof.
  unfold add. destruct (parse n _ true); cbn [bind]; [|discriminate].
  apply currency_number_whole.
Qed.

Lemma subtract_whole this n c : subtract this n = Ok c -> whole (intValue c).
Proof.
  unfold subtract. destruct (parse n _ true); cbn [bind]; [|discriminate].
  apply currency_number_whole.
Qed.

Lemma multiply_whole this n c : multiply this n = Ok c -> whole (intValue c).
Proof.
  unfold multiply. destruct (any_to_number n); cbn [bind]; [|discriminate].
  apply currency_number_whole.
Qed.

Lemma divide_whole this n c : divide this n = Ok c -> whole (intValue c).
Proof.
  unfold divide. destruct (parse n _ false); cbn [bind]; [|discriminate].
  apply currency_number_whole.
Qed.

Lemma distribute_loop_whole fuel :
  forall this split precision count pennies acc l,
    Forall (fun c => whole (intValue c)) acc ->
    distribute_loop fuel this split precision count pennies acc = Some (Ok l) ->
    Forall (fun c => whole (intValue c)) l.
Proof.
  induction fuel as [|fuel IH]; intros this split precision count pennies acc l Ha;
    cbn [distribute_loop]; [discriminate|].
  destruct (JS.strict_ne count zero).
  - destruct (currency _ _) as [item|e] eqn:C; cbn [bind]; [|discriminate].
    assert (W : whole (intValue item)) by (eapply currency_number_whole; eassumption).
    destruct (if JS.gt pennies zero then _ else _) as [item'|e] eqn:S'; [|discriminate].
    apply IH. apply Forall_app. split; [assumption|]. constructor; [|constructor].
    destruct (JS.gt pennies zero).
    + destruct (JS.ge (intValue this) zero).
      * eapply add_whole; eassumption.
      * eapply subtract_whole; eassumption.
    + injection S' as <-. assumption.
  - intros E. injection E as <-. assumption.
Qed.

(** C7 (amended): the [intValue] of a constructed instance, and of every
    instance returned by [add], [subtract], [multiply], [divide] and
    [distribute], is an integer or one of NaN, Infinity and -Infinity; it is
    never a finite number with a fractional part.  (An instance given as
    input under [fromCents] hands on its own [intValue], so it must itself
    have this property.) *)
Theorem minor_units_whole :
  (forall input opts c,
      (forall ci, input = ACurrency ci -> whole (intValue ci)) ->
      currency input opts = Ok c -> whole (intValue c))
  /\ (forall this n c,
         add this n = Ok c \/ subtract this n = Ok c
         \/ multiply this n = Ok c \/ divide this n = Ok c ->
         whole (intValue c))
  /\ (forall fuel this count l,
         distribute fuel this count = Some (Ok l) ->
         Forall (fun c => whole (intValue c)) l).
Proof.
  split; [exact currency_whole|]. split.
  - intros this n c [H|[H|[H|H]]].
    + eapply add_whole; eassumption.
    + eapply subtract_whole; eassumption.
    + eapply multiply_whole; eassumption.
    + eapply divide_whole; eassumption.
  - intros fuel this count l. unfold distribute.
    apply distribute_loop_whole. constructor.
Qed.

Lemma minor_units_whole_witness :
  exists c,
    currency (AString "12.345") no_options = Ok c /\ whole (intValue c).
Proof.
  destruct (currency (AString "12.345") no_options) as [c|e] eqn:E;
    [|vm_compute in E; discriminate E].
  exists c. split; [reflexivity|].
  apply (proj1 minor_units_whole (AString "12.345") no_options c).
  - intros ci H. discriminate H.
  - exact E.
Defined.

(** C7 (as stated) fails: dividing the value constructed from 1 by 0 gives
    an instance whose [intValue] is Infinity, which is not an integer. *)
Lemma divide_by_zero_not_integer :
  exists d,
    (c <- currency (ANumber (JS.of_Z 1)) no_options ;; divide c (ANumber zero))
    = Ok d
    /\ intValue d = JS.PosInf /\ ~ is_integer (intValue d).
Proof.
  eexists. split; [vm_compute; reflexivity|]. split; [reflexivity|].
  intros [k E]. discriminate E.
Qed.

(** ** [distribute] with a count that is not positive *)

Local Open Scope Z_scope.

Lemma parse_number_ok x s b : exists v, parse (ANumber x) s b = Ok v.
Proof.
  destruct (parse (ANumber x) s b) as [v|e] eqn:E; [eauto|].
  apply parse_throws in E.
  destruct E as [[_ [_ [v E]]]|[_ [_ [str E]]]]; discriminate E.
Qed.

Lemma currency_number_ok x opts : exists c, currency (ANumber x) opts = Ok c.
Proof.
  unfold currency. cbv zeta.
  set (st := Build_Settings _ _ _ _ _ _ _ _ _ _ _ _).
  destruct (parse_number_ok x st true) as [v P].
  rewrite P. cbn [bind]. eexists. reflexivity.
Qed.

Lemma add_number_ok this x : exists c, add this (ANumber x) = Ok c.
Proof.
  unfold add. destruct (parse_number_ok x (_settings this) true) as [v P].
  rewrite P. cbn [bind]. apply currency_number_ok.
Qed.

Lemma subtract_number_ok this x : exists c, subtract this (ANumber x) = Ok c.
Proof.
  unfold subtract. destruct (parse_number_ok x (_settings this) true) as [v P].
  rewrite P. cbn [bind]. apply currency_number_ok.
Qed.

Local Open Scope Q_scope.

Lemma rnd_negative q : q <= -1 -> JS.is_neg (JS.rnd q) = true.
Proof.
  intros H. unfold JS.rnd.
  destruct (Qcompare_spec q 0) as [E|L|G]; try lra.
  cbv zeta. destruct (Qle_bool _ _); [reflexivity|].
  assert (QN := half_normal).
  destruct (rnd_abs_rel (- q)) as [A _]; [lra|].
  assert (U := u_milli).
  assert (M : - q * JS.pow2 (-53) <= - q * (1 # 1000)) by (apply Qmult_le_l; lra).
  unfold JS.fin. apply is_neg_Fin. rewrite Qred_correct. lra.
Qed.

Lemma sub_one_negative count :
  JS.is_neg count = true -> JS.is_neg (JS.sub count one) = true.
Proof.
  destruct count as [| | |q]; try discriminate; [reflexivity|].
  intros H. apply is_neg_Fin in H.
  unfold JS.sub, JS.add, one, JS.neg, JS.of_Z.
  apply rnd_negative. change (- inject_Z 1) with (- (1)). lra.
Qed.

Lemma negative_not_zero count :
  JS.is_neg count = true -> JS.strict_ne count zero = true.
Proof.
  destruct count as [| | |q]; try discriminate; [reflexivity|].
  intros H. apply is_neg_Fin in H. unfold JS.strict_ne, zero, JS.of_Z.
  apply negb_true_iff. destruct (Qeq_bool q (inject_Z 0)) eqn:E; [|reflexivity].
  apply Qeq_bool_eq in E. change (inject_Z 0) with 0 in E. lra.
Qed.

Lemma distribute_loop_diverges fuel :
  forall this split precision count pennies acc,
    JS.is_neg count = true ->
    distribute_loop fuel this split precision count pennies acc = None.
Proof.
  induction fuel as [|fuel IH]; intros this split precision count pennies acc H;
    cbn [distribute_loop]; [reflexivity|].
  rewrite negative_not_zero by assumption.
  destruct (currency_number_ok (JS.div split precision) (as_options (_settings this)))
    as [item C].
  rewrite C. cbn [bind].
  assert (S' : exists item',
    (if JS.gt pennies zero
     then if JS.ge (intValue this) zero
          then add item (ANumber (JS.div one precision))
          else subtract item (ANumber (JS.div one precision))
     else Ok item) = Ok item').
  { destruct (JS.gt pennies zero); [|eauto].
    destruct (JS.ge (intValue this) zero);
      [apply add_number_ok | apply subtract_number_ok]. }
  destruct S' as [item' S']. rewrite S'.
  apply IH. apply sub_one_negative. assumption.
Qed.

(** C6 (amended): [distribute] has no check of its count.  With a count of
    0 the loop body never runs and the empty array is returned, without an
    error, for every value; with a negative count the loop condition
    [count !== 0] never becomes false, so the call does not return (no
    number of iterations ends the loop) and no error is raised. *)
Theorem distribute_without_guard :
  (forall this fuel, distribute (S fuel) this zero = Some (Ok []))
  /\ (forall this count fuel,
         JS.is_neg count = true -> distribute fuel this count = None).
Proof.
  split.
  - intros this fuel. reflexivity.
  - intros this count fuel H. unfold distribute.
    apply distribute_loop_diverges. assumption.
Qed.

Lemma distribute_without_guard_witness :
  distribute 1000 hundred_dollars (JS.of_Z (-3)) = None.
Proof.
  apply (proj2 distribute_without_guard hundred_dollars (JS.of_Z (-3)) 1000%nat).
  reflexivity.
Defined.

(** C6 (as stated) fails: [distribute(0)] does not fail; it returns the
    empty array. *)
Lemma distribute_zero_returns_empty :
  exists shares,
    distribute 1 hundred_dollars zero = Some (Ok shares) /\ shares = [].
Proof. exists []. split; reflexivity. Qed.

(** ** The rounding of [parse] *)

Local Open Scope Z_scope.

(** The value [parse] scales, for an input that is a number, a string or an
    instance: the number taken from the input times 10^precision.  There is
    none for a string when the decimal mark is a backslash, with which
    [parse] throws. *)
Definition scaled (input : Any) (s : Settings) : option number :=
  match input with
  | ANumber x => Some (JS.mul x (pow (precision s)))
  | AString str =>
      if well_formed (decimal s) then
        Some (JS.mul (match clean (decimal s) str with
                      | EmptyString => zero
                      | String _ _ => string_to_number (clean (decimal s) str)
                      end) (pow (precision s)))
      else None
  | ACurrency c => Some (JS.mul (value c) (pow (precision s)))
  | AForeign _ => None
  end.

(** A value rounded to four decimals, a half away from zero. *)
Definition four_decimals (q : Q) : Q :=
  let n := Qfloor (Qabs q * inject_Z 10000 + (1 # 2)) in
  if JS.is_neg (JS.Fin q) then (- (inject_Z n * (1 # 10000)))%Q
  else (inject_Z n * (1 # 10000))%Q.

Definition default_settings : Settings :=
  settings_of (currency (ANumber zero) no_options).

Lemma parse_unscaled input s y :
  fromCents s = false -> scaled input s = Some y ->
  parse input s true = (t <- to_fixed y 4 ;; Ok (VNumber (round (VString t)))).
Proof.
  intros FC. unfold parse, scaled. rewrite FC.
  destruct input as [x|str|c|v]; intros E; try discriminate.
  - injection E as <-. cbn [bind to_number]. destruct (to_fixed _ 4); reflexivity.
  - destruct (well_formed (decimal s)); [|discriminate E]. injection E as <-.
    cbn [bind]. destruct (clean (decimal s) str); cbn [bind to_number];
      destruct (to_fixed _ 4); reflexivity.
  - injection E as <-. cbn [bind to_number]. destruct (to_fixed _ 4); reflexivity.
Qed.

Local Open Scope Q_scope.

Lemma four_decimals_finite q :
  Qabs q < inject_Z (10 ^ 21) -> exists r, JS.rnd (four_decimals q) = JS.Fin r.
Proof.
  intros H. unfold four_decimals.
  set (n := Qfloor (Qabs q * inject_Z 10000 + (1 # 2))).
  assert (A0 := Qabs_nonneg q).
  assert (F1 := Qfloor_le (Qabs q * inject_Z 10000 + (1 # 2))).
  assert (F2 := Qlt_floor (Qabs q * inject_Z 10000 + (1 # 2))).
  fold n in F1, F2. rewrite inject_Z_plus in F2.
  change (inject_Z 1) with 1 in F2. change (inject_Z 10000) with (10000 # 1) in *.
  change (inject_Z (10 ^ 21)) with (1000000000000000000000 # 1) in H.
  assert (Hn : (0 <= n)%Z).
  { assert (-1 < n)%Z; [|lia]. rewrite Zlt_Qlt. change (inject_Z (-1)) with (-(1)). lra. }
  assert (TN : JS.pow2 (-1022) <= 1 # 10000) by (unfold Qle; vm_compute; discriminate).
  assert (HN : (1000000000000000000001 # 1) <= JS.pow2 1023) by (unfold Qle; vm_compute; discriminate).
  destruct (Z.eq_dec n 0) as [Z0|NZ].
  - rewrite Z0. exists 0. destruct (JS.is_neg _); apply rnd_zero; reflexivity.
  - assert (N1 : 1 <= inject_Z n).
    { change 1 with (inject_Z 1). rewrite <- Zle_Qle. lia. }
    destruct (JS.is_neg (JS.Fin q)).
    + destruct (rnd_rel_neg (- (inject_Z n * (1 # 10000)))) as [r [R _]]; try lra.
      exists r. assumption.
    + destruct (rnd_rel_pos (inject_Z n * (1 # 10000))) as [r [R _]]; try lra.
      exists r. assumption.
Qed.

(** C3 (amended): for an input that is a number, a string or an instance
    and is not taken as minor units, whose scaled value [y] is finite and
    below 10^21 in magnitude, [parse] rounds the exact value of [y] to four
    decimals (a half away from zero, which is what [toFixed(4)] does; it
    does not truncate), takes the binary64 number [r] nearest to that
    decimal, and returns the integer [k] nearest to [r], the larger one when
    [r] lies halfway between two integers: [k - 1/2 <= r < k + 1/2]. *)
Theorem parse_rounding (input : Any) (s : Settings) (y : Q) :
  fromCents s = false ->
  scaled input s = Some (JS.Fin y) ->
  Qabs y < inject_Z (10 ^ 21) ->
  exists (r : Q) (k : Z),
    JS.rnd (four_decimals y) = JS.Fin r
    /\ inject_Z k - (1 # 2) <= r /\ r < inject_Z k + (1 # 2)
    /\ parse input s true = Ok (VNumber (JS.of_Z k)).
Proof.
  intros FC Sc Hy.
  rewrite (parse_unscaled input s (JS.Fin y) FC Sc).
  destruct (to_fixed_read y 4) as [t [T R]]; [lia | assumption |].
  destruct (four_decimals_finite y Hy) as [r Hr].
  exists r, (Qfloor (r + (1 # 2))). split; [assumption|].
  assert (F1 := Qfloor_le (r + (1 # 2))). assert (F2 := Qlt_floor (r + (1 # 2))).
  rewrite inject_Z_plus in F2. change (inject_Z 1) with 1 in F2.
  split; [lra|]. split; [lra|].
  rewrite T. cbn [bind]. unfold round. cbn [to_number].
  rewrite R. cbv zeta. change (JS.rnd (four_decimals y) = JS.Fin r) in Hr.
  unfold four_decimals in Hr.
  change (inject_Z (10 ^ Z.of_nat 4)) with (inject_Z 10000).
  change (pow10Q (- Z.of_nat 4)) with (1 # 10000).
  destruct (JS.is_neg (JS.Fin y)); rewrite Hr; reflexivity.
Qed.

Lemma parse_rounding_witness :
  exists (r : Q) (k : Z),
    JS.rnd (four_decimals (9007127197146955 # 18014398509481984)) = JS.Fin r
    /\ inject_Z k - (1 # 2) <= r /\ r < inject_Z k + (1 # 2)
    /\ parse (ANumber (literal 499996 100000000)) default_settings true
       = Ok (VNumber (JS.of_Z k)).
Proof.
  apply (parse_rounding (ANumber (literal 499996 100000000)) default_settings).
  - reflexivity.
  - vm_compute. reflexivity.
  - unfold Qlt. vm_compute. reflexivity.
Defined.

(** C3 (as stated) fails twice over.  The number -0.005 scales to exactly
    -0.5 under the default configuration, and [parse] returns 0, not -1:
    [Math.round] takes a half toward +Infinity.  The number 0.00499996
    scales to a value just below 0.499996, which truncated to four decimals
    is 0.4999 and would round to 0; [toFixed(4)] rounds it to 0.5000 and
    [parse] returns 1. *)
Lemma parse_half_rounds_up :
  JS.mul (literal (-5) 1000) (pow 2) = JS.Fin (- (1 # 2))
  /\ parse (ANumber (literal (-5) 1000)) default_settings true
     = Ok (VNumber (JS.of_Z 0))
  /\ JS.of_Z 0 <> JS.of_Z (-1)
  /\ JS.mul (literal 499996 100000000) (pow 2)
     = JS.Fin (9007127197146955 # 18014398509481984)
  /\ (9007127197146955 # 18014398509481984) < (5 # 10)
  /\ parse (ANumber (literal 499996 100000000)) default_settings true
     = Ok (VNumber (JS.of_Z 1)).
Proof.
  split; [vm_compute; reflexivity|]. split; [vm_compute; reflexivity|].
  split; [discriminate|]. split; [vm_compute; reflexivity|].
  split; [reflexivity | vm_compute; reflexivity].
Qed.

(** * The model of the numbers against the Standard Library's binary64 *)

Local Open Scope Z_scope.

(** The number a binary64 datum of the Standard Library's specification of
    IEEE-754 arithmetic denotes. *)
Definition of_spec_float (x : spec_float) : JS.number :=
  match x with
  | S754_zero _ => JS.Fin 0
  | S754_infinity s => JS.inf_of_sign s
  | S754_nan => JS.NaN
  | S754_finite s m e =>
      JS.fin ((if s then - (1) else 1) * inject_Z (Zpos m) * JS.pow2 e)%Q
  end.

Definition b64_of_Z (z : Z) : spec_float := binary_normalize 53 1024 z 0 false.
Definition b64_add : spec_float -> spec_float -> spec_float := SFadd 53 1024.
Definition b64_mul : spec_float -> spec_float -> spec_float := SFmul 53 1024.
Definition b64_div : spec_float -> spec_float -> spec_float := SFdiv 53 1024.

(** The operations of the model agree with the Standard Library's on the
    numbers the examples of the specification go through. *)
Example tenth_agrees :
  of_spec_float (b64_div (b64_of_Z 1) (b64_of_Z 10)) = JS.rnd (1 # 10).
Proof. vm_compute. reflexivity. Qed.

Example sum_agrees :
  of_spec_float (b64_add (b64_div (b64_of_Z 1) (b64_of_Z 10))
                         (b64_div (b64_of_Z 2) (b64_of_Z 10)))
  = JS.add (JS.rnd (1 # 10)) (JS.rnd (2 # 10)).
Proof. vm_compute. reflexivity. Qed.

Example product_agrees :
  of_spec_float (b64_mul (b64_div (b64_of_Z 7) (b64_of_Z 100)) (b64_of_Z 100))
  = JS.mul (JS.rnd (7 # 100)) (JS.of_Z 100)
  /\ JS.mul (JS.rnd (7 # 100)) (JS.of_Z 100) <> JS.of_Z 7.
Proof.
  split; [vm_compute; reflexivity | intro E; vm_compute in E; discriminate E].
Qed.

Example quotient_agrees :
  of_spec_float (b64_div (b64_of_Z 3333) (b64_of_Z 100))
  = JS.div (JS.of_Z 3333) (JS.of_Z 100)
  /\ of_spec_float (b64_div (b64_of_Z (10 ^ 16)) (b64_of_Z 3))
     = JS.div (JS.of_Z (10 ^ 16)) (JS.of_Z 3)
  /\ of_spec_float (b64_div (b64_of_Z (-1)) (b64_of_Z 3))
     = JS.div (JS.of_Z (-1)) (JS.of_Z 3).
Proof. repeat split; vm_compute; reflexivity. Qed.

Example extremes_agree :
  of_spec_float (b64_mul (b64_of_Z (2 ^ 1000)) (b64_of_Z (2 ^ 100))) = JS.PosInf
  /\ JS.mul (JS.rnd (inject_Z (2 ^ 1000))) (JS.rnd (inject_Z (2 ^ 100))) = JS.PosInf
  /\ of_spec_float (b64_div (b64_of_Z 1) (b64_of_Z (2 ^ 1000 * 3 ^ 40)))
     = JS.div (JS.of_Z 1) (JS.rnd (inject_Z (2 ^ 1000 * 3 ^ 40)))
  /\ of_spec_float (b64_of_Z (2 ^ 53 + 1)) = JS.rnd (inject_Z (2 ^ 53 + 1))
  /\ of_spec_float (b64_of_Z (2 ^ 53 + 3)) = JS.rnd (inject_Z (2 ^ 53 + 3)).
Proof. repeat split; vm_compute; reflexivity. Qed.

(** * Further properties of the constructor and the accessors *)

Local Open Scope Z_scope.
Local Open Scope string_scope.



(** The minor-unit values and the texts of a list of instances. *)
Definition texts (r : option (result (list Currency))) : list (result string) :=
  match r with
  | Some (Ok l) => List.map toString l
  | _ => []
  end.

(** The distribution example: 100.00 split in three is 33.34, 33.33 and
    33.33. *)
Theorem distribute_hundred :
  texts (distribute 4 hundred_dollars (JS.of_Z 3))
  = [Ok "33.34"; Ok "33.33"; Ok "33.33"].
Proof. vm_compute. reflexivity. Qed.

(** A parenthesised amount is a negative one. *)
Theorem parenthesis_negative :
  (c <- currency (AString "(1.99)") no_options ;; toString c) = Ok "-1.99".
Proof. vm_compute. reflexivity. Qed.

Definition nickel_increment : Options :=
  {| o_symbol := None; o_separator := None; o_decimal := None;
     o_errorOnInvalid := None; o_precision := None;
     o_increment := Some (literal 5 100);
     o_useVedic := None; o_pattern := None; o_negativePattern := None;
     o_format := None; o_fromCents := None; o_groups := None |}.

(** Rounding to an increment: 1.03 with an increment of 0.05 prints as
    "1.05". *)
Theorem increment_rounding :
  (c <- currency (ANumber (literal 103 100)) nickel_increment ;; toString c)
  = Ok "1.05".
Proof. vm_compute. reflexivity. Qed.

Local Open Scope Z_scope.

Lemma to_int32_small q :
  - 2 ^ 31 <= JS.Qtrunc q < 2 ^ 31 -> JS.to_int32 (JS.Fin q) = JS.Qtrunc q.
Proof.
  intros H. unfold JS.to_int32. set (t := JS.Qtrunc q) in *.
  change (2 ^ 31) with 2147483648 in *. change (2 ^ 32) with 4294967296.
  destruct (Z_lt_le_dec t 0) as [N|P].
  - assert (E : t mod 4294967296 = t + 4294967296).
    { symmetry. apply (Z.mod_unique _ _ (-1)); lia. }
    rewrite E. destruct (Z.ltb_spec (t + 4294967296) 2147483648); lia.
  - rewrite Z.mod_small by lia. destruct (Z.ltb_spec t 2147483648); lia.
Qed.

Local Open Scope Q_scope.

Lemma floor_ratio a p :
  (0 < p)%Z -> Qfloor (inject_Z a / inject_Z p) = (a / p)%Z.
Proof.
  intros Hp.
  assert (P1 : 0 < inject_Z p) by (change 0 with (inject_Z 0); rewrite <- Zlt_Qlt; assumption).
  set (i := / inject_Z p).
  assert (I0 : 0 < i) by (apply Qinv_lt_0_compat; assumption).
  assert (I1 : inject_Z p * i == 1) by (unfold i; field; lra).
  assert (Eq : inject_Z a / inject_Z p == inject_Z a * i) by reflexivity.
  set (k := (a / p)%Z).
  assert (Z1 : (p * k <= a)%Z) by (apply Z.mul_div_le; lia).
  assert (Z2 : (a + 1 <= p * (k + 1))%Z).
  { pose proof (Z.mul_succ_div_gt a p Hp). unfold k. lia. }
  apply floor_unique; rewrite Eq.
  - rewrite Zle_Qle, inject_Z_mult in Z1.
    assert (inject_Z p * inject_Z k * i <= inject_Z a * i) by (apply Qmult_le_compat_r; lra).
    assert (inject_Z p * inject_Z k * i == inject_Z k * (inject_Z p * i)) by ring.
    rewrite I1 in H0. lra.
  - rewrite Zle_Qle, inject_Z_mult, !inject_Z_plus in Z2.
    change (inject_Z 1) with 1 in Z2.
    assert ((inject_Z a + 1) * i <= inject_Z p * (inject_Z k + 1) * i)
      by (apply Qmult_le_compat_r; lra).
    assert (inject_Z p * (inject_Z k + 1) * i == (inject_Z k + 1) * (inject_Z p * i)) by ring.
    rewrite I1 in H0. lra.
Qed.

Lemma trunc_ratio a p :
  (0 < p)%Z -> JS.Qtrunc (inject_Z a / inject_Z p) = Z.quot a p.
Proof.
  intros Hp.
  assert (P1 : 0 < inject_Z p) by (change 0 with (inject_Z 0); rewrite <- Zlt_Qlt; assumption).
  unfold JS.Qtrunc.
  destruct (Qcompare_spec (inject_Z a / inject_Z p) 0) as [E|L|G].
  - rewrite floor_ratio by assumption.
    assert (a = 0)%Z.
    { assert (inject_Z a == 0).
      { assert (inject_Z a == inject_Z a / inject_Z p * inject_Z p) by (field; lra).
        rewrite E in H. lra. }
      change 0 with (inject_Z 0) in H. rewrite inject_Z_injective in H. assumption. }
    subst. reflexivity.
  - assert (a < 0)%Z.
    { rewrite Zlt_Qlt. change (inject_Z 0) with 0.
      assert (inject_Z a == inject_Z a / inject_Z p * inject_Z p) by (field; lra).
      assert (inject_Z a / inject_Z p * inject_Z p < 0 * inject_Z p)
        by (apply Qmult_lt_compat_r; lra).
      lra. }
    unfold Qceiling.
    assert (E : - (inject_Z a / inject_Z p) == inject_Z (- a) / inject_Z p).
    { rewrite inject_Z_opp. field. lra. }
    rewrite (Qfloor_comp _ _ E), floor_ratio by assumption.
    rewrite <- (Z.opp_involutive a) at 2. rewrite Z.quot_opp_l by lia.
    rewrite Z.quot_div_nonneg by lia. reflexivity.
  - assert (0 < a)%Z.
    { rewrite Zlt_Qlt. change (inject_Z 0) with 0.
      assert (inject_Z a == inject_Z a / inject_Z p * inject_Z p) by (field; lra).
      assert (0 * inject_Z p < inject_Z a / inject_Z p * inject_Z p)
        by (apply Qmult_lt_compat_r; lra).
      lra. }
    rewrite floor_ratio by assumption. rewrite Z.quot_div_nonneg by lia. reflexivity.
Qed.

Lemma trunc_int k : JS.Qtrunc (inject_Z k) = k.
Proof.
  unfold JS.Qtrunc. destruct (Qcompare _ _); [apply Qfloor_Z | apply Qceiling_Z | apply Qfloor_Z].
Qed.

Local Open Scope Z_scope.

(** Within the 32-bit range the two accessors are as documented:
    [dollars()] is the value truncated toward zero, and [cents()] is the
    remainder of the minor units by the scale, with the sign of the
    amount. *)
Theorem accessors_in_range (this : Currency) (q : Q) (a p : Z) :
  value this = JS.Fin q -> - 2 ^ 31 <= JS.Qtrunc q < 2 ^ 31 ->
  intValue this = JS.of_Z a -> _precision this = JS.of_Z p ->
  1 <= p <= 2 ^ 31 ->
  dollars this = JS.of_Z (JS.Qtrunc q)
  /\ cents this = JS.of_Z (Z.rem a p).
Proof.
  intros Hv Hq Hi Hp Hr. split.
  - unfold dollars, JS.bitnot2. rewrite Hv, to_int32_small by assumption. reflexivity.
  - unfold cents, JS.bitnot2. rewrite Hi, Hp. unfold JS.rem, JS.of_Z.
    destruct (Qeq_bool (inject_Z p) 0) eqn:E.
    + apply Qeq_bool_eq in E. change 0%Q with (inject_Z 0) in E.
      rewrite inject_Z_injective in E. lia.
    + rewrite trunc_ratio by lia.
      assert (R : (inject_Z a - inject_Z p * inject_Z (Z.quot a p) == inject_Z (Z.rem a p))%Q).
      { unfold Qminus. rewrite <- inject_Z_mult, <- inject_Z_opp, <- inject_Z_plus.
        apply inject_Z_injective. pose proof (Z.quot_rem' a p). lia. }
      rewrite (fin_int _ _ R). unfold JS.of_Z. rewrite to_int32_small.
      * rewrite trunc_int. reflexivity.
      * rewrite trunc_int. pose proof (Z.rem_bound_abs a p ltac:(lia)).
        change (2 ^ 31) with 2147483648 in *. lia.
Qed.

Lemma accessors_in_range_witness :
  dollars hundred_dollars = JS.of_Z 100 /\ cents hundred_dollars = JS.of_Z 0.
Proof.
  apply (accessors_in_range hundred_dollars (inject_Z 100) 10000 100).
  - reflexivity.
  - vm_compute. split; [discriminate | reflexivity].
  - reflexivity.
  - reflexivity.
  - vm_compute. split; discriminate.
Defined.

(** * Decimal texts *)

Module DecimalText.

Import JS Str Conv NumberFacts TextFacts ScalingFacts CurrencyJs.
Local Open Scope string_scope.
Local Open Scope Z_scope.

(** The decimal text of [a] units in the [f]-th decimal place. *)
Definition decimal_text (a : Z) (f : nat) : string :=
  (if a <? 0 then "-" else "") ++ fixed_text (Z.abs a) f.

(** Texts of digits and points. *)
Fixpoint plain (s : string) : bool :=
  match s with
  | EmptyString => true
  | String c r => (is_digit c || Ascii.eqb c ".") && plain r
  end.

Lemma plain_app a b : plain (a ++ b) = plain a && plain b.
Proof.
  induction a as [|c a IH]; [reflexivity|].
  cbn [append plain]. rewrite IH, andb_assoc. reflexivity.
Qed.

Lemma all_digits_plain s : all_digits s = true -> plain s = true.
Proof.
  induction s as [|c s IH]; [reflexivity|].
  cbn [all_digits plain]. intros H. apply andb_prop in H. destruct H as [A B].
  rewrite A, (IH B). reflexivity.
Qed.

Lemma unsigned_decimal_digits d :
  all_digits d = true -> (0 < length d)%nat ->
  unsigned_decimal d
  = Some (inject_Z (digits_value 0 d) * pow10Q (- Z.of_nat 0))%Q.
Proof.
  intros A L. unfold unsigned_decimal.
  rewrite span_digits_all by assumption.
  destruct d as [|c d]; [simpl in L; lia|].
  cbn [length Nat.eqb andb]. rewrite app_empty_r. reflexivity.
Qed.

(** The text of [fixed_text], for any number of decimals: it starts with a
    digit, holds digits and at most one point, and reads as the number it
    was printed from. *)
Lemma fixed_text_any n f :
  0 <= n ->
  exists c r,
    fixed_text n f = String c r /\ is_digit c = true
    /\ no_space (fixed_text n f) = true
    /\ plain (fixed_text n f) = true
    /\ unsigned_decimal (fixed_text n f)
       = Some (inject_Z n * pow10Q (- Z.of_nat f))%Q.
Proof.
  intros Hn. destruct (digits_of_spec n Hn) as [V [A Ln]].
  destruct f as [|f].
  - unfold fixed_text. destruct (digits_of n) as [|c r] eqn:E; [simpl in Ln; lia|].
    exists c, r. split; [reflexivity|].
    pose proof A as A'. cbn [all_digits] in A'. apply andb_prop in A'.
    destruct A' as [Ac _]. split; [assumption|].
    split; [apply all_digits_no_space; assumption|].
    split; [apply all_digits_plain; assumption|].
    rewrite unsigned_decimal_digits by assumption. rewrite V. reflexivity.
  - destruct (fixed_text_read n (S f) Hn ltac:(lia)) as [c [r [E [Dc [NS UD]]]]].
    exists c, r. split; [assumption|]. split; [assumption|].
    split; [assumption|]. split; [|assumption].
    clear E Dc NS UD c r. unfold fixed_text.
    set (D := digits_of n) in *.
    destruct (repeat0_spec (S (S f) - length D)) as [ZA [ZL ZV]].
    set (m := repeat0 (S (S f) - length D) ++ D).
    assert (Am : all_digits m = true)
      by (unfold m; rewrite all_digits_app, ZA, A; reflexivity).
    cbv zeta. fold m. set (k := length m).
    assert (TD := take_drop (k - S f) m).
    assert (A' : all_digits (take (k - S f) m) && all_digits (drop (k - S f) m) = true).
    { rewrite <- all_digits_app, TD. assumption. }
    apply andb_prop in A'. destruct A' as [At Ad].
    rewrite !plain_app. rewrite (all_digits_plain _ At), (all_digits_plain _ Ad).
    reflexivity.
Qed.

(** Reading a decimal text as a number. *)
Lemma decimal_text_read (a : Z) (f : nat) :
  string_to_number (decimal_text a f)
  = rnd (inject_Z a * pow10Q (- Z.of_nat f)).
Proof.
  unfold decimal_text.
  destruct (fixed_text_any (Z.abs a) f (Z.abs_nonneg a)) as [c [r [E [Dc [NS [_ UD]]]]]].
  unfold string_to_number. rewrite E in *.
  assert (NI : (String c r =? "Infinity")%string = false).
  { cbn [String.eqb]. rewrite (digit_eqb_other c "I"); [reflexivity | assumption |].
    right. apply Nat.ltb_lt. reflexivity. }
  destruct (Z.ltb_spec a 0) as [N|N].
  - change ("-" ++ String c r) with (String "-"%char (String c r)).
    rewrite trim_no_space by (cbn [no_space]; cbn [no_space] in NS; rewrite NS; reflexivity).
    rewrite non_decimal_minus.
    rewrite Ascii.eqb_refl, NI, UD. apply rnd_comp.
    rewrite Z.abs_neq by lia. rewrite inject_Z_opp. ring.
  - change ("" ++ String c r) with (String c r).
    rewrite trim_no_space by assumption.
    rewrite (non_decimal_decimal _ _ UD).
    rewrite (digit_eqb_other c "-"); [|assumption | left; apply Nat.ltb_lt; reflexivity].
    rewrite (digit_eqb_other c "+"); [|assumption | left; apply Nat.ltb_lt; reflexivity].
    rewrite NI, UD. rewrite Z.abs_eq by lia. reflexivity.
Qed.

Lemma plain_char c :
  (is_digit c || Ascii.eqb c ".") = true ->
  Ascii.eqb c "(" = false /\ Ascii.eqb c "-" = false.
Proof.
  intros H. apply orb_prop in H. destruct H as [H|H].
  - split; apply digit_eqb_other; try assumption; left; apply Nat.ltb_lt; reflexivity.
  - apply Ascii.eqb_eq in H. subst c. split; reflexivity.
Qed.

Lemma paren_plain s : plain s = true -> paren_negative s = s.
Proof.
  induction s as [|c s IH]; [reflexivity|].
  cbn [plain paren_negative]. intros H. apply andb_prop in H. destruct H as [A B].
  destruct (plain_char c A) as [P _]. rewrite P, (IH B). reflexivity.
Qed.

Lemma sieve_plain s :
  plain s = true ->
  map (fun c => if Ascii.eqb c "." then "."%char else c)
      (filter (fun c => Ascii.eqb c "-" || is_digit c || Ascii.eqb c ".") s)
  = s.
Proof.
  induction s as [|c s IH]; [reflexivity|].
  cbn [plain filter]. intros H. apply andb_prop in H. destruct H as [A B].
  destruct (plain_char c A) as [_ M]. rewrite M. cbn [orb]. rewrite A.
  cbn [map]. rewrite (IH B).
  destruct (Ascii.eqb c ".") eqn:E; [|reflexivity].
  apply Ascii.eqb_eq in E. subst c. reflexivity.
Qed.

(** With the point as the decimal mark, the three replacements of [parse]
    leave a decimal text as it is. *)
Lemma clean_decimal_text (a : Z) (f : nat) :
  clean "." (decimal_text a f) = decimal_text a f
  /\ exists c r, decimal_text a f = String c r.
Proof.
  unfold decimal_text.
  destruct (fixed_text_any (Z.abs a) f (Z.abs_nonneg a)) as [c [r [E [_ [_ [Pl _]]]]]].
  rewrite (clean_literal "." _ eq_refl). destruct (a <? 0).
  - split; [|exists "-"%char, (fixed_text (Z.abs a) f); reflexivity].
    change ("-" ++ fixed_text (Z.abs a) f) with (String "-"%char (fixed_text (Z.abs a) f)).
    cbn [paren_negative]. change (Ascii.eqb "-" "(") with false. cbv iota.
    rewrite (paren_plain _ Pl). cbn [filter]. rewrite Ascii.eqb_refl. cbn [orb map].
    change (Ascii.eqb "-" ".") with false. cbv iota.
    rewrite (sieve_plain _ Pl). reflexivity.
  - split; [|exists c, r; exact E].
    change ("" ++ fixed_text (Z.abs a) f) with (fixed_text (Z.abs a) f).
    rewrite (paren_plain _ Pl). apply sieve_plain. exact Pl.
Qed.

Lemma pow10Q_inv (a : Z) (p : nat) :
  (inject_Z a * pow10Q (- Z.of_nat p) == inject_Z a / inject_Z (10 ^ Z.of_nat p))%Q.
Proof.
  unfold pow10Q. rewrite Qpower_opp.
  change ((10 # 1) ^ Z.of_nat p)%Q with (pow10Q (Z.of_nat p)).
  rewrite pow10Q_Z by lia. reflexivity.
Qed.

(** [parse] reads the decimal text of a whole amount as that amount, when
    the point is the decimal mark and amounts are not given in minor
    units. *)
Lemma parse_decimal_text (st : Settings) (b : Z) :
  decimal st = "."%char -> fromCents st = false ->
  (precision st <= 22)%nat -> small b ->
  parse (AString (decimal_text b (precision st))) st true
  = Ok (VNumber (of_Z b)).
Proof.
  intros Em Ef Hp Hb. unfold parse. rewrite Ef, Em.
  change (well_formed ".") with true. cbv iota.
  destruct (clean_decimal_text b (precision st)) as [C [c [r E]]]. rewrite C, E.
  cbn [bind to_number]. rewrite <- E.
  rewrite decimal_text_read. rewrite pow_exact by assumption.
  rewrite (rnd_comp _ _ (pow10Q_inv b (precision st))).
  rewrite <- div_of_Z by (pose proof (pow10_range _ Hp); lia).
  destruct (scaled_back b (10 ^ Z.of_nat (precision st)) Hb (pow10_range _ Hp))
    as [t [T R]].
  rewrite T. cbn [bind]. unfold round. cbn [to_number]. rewrite R. reflexivity.
Qed.

End DecimalText.

(** * The grouping of digits *)

Module GroupingFacts.

Import Str TextFacts CurrencyJs.
Local Open Scope string_scope.
Local Open Scope nat_scope.

(** Texts without a dollar sign, which a replacement template copies as
    they are. *)
Fixpoint no_dollar (s : string) : bool :=
  match s with
  | EmptyString => true
  | String c r => negb (Ascii.eqb c "$") && no_dollar r
  end.

(** Whether a separator follows a digit that has [n] digits after it. *)
Definition by_threes (n : nat) : bool := (0 <? n) && (n mod 3 =? 0).
Definition by_twos (n : nat) : bool := (3 <=? n) && Nat.odd n.

Definition marks (g : Groups) : nat -> bool :=
  match g with
  | groupRegex => by_threes
  | vedicRegex => by_twos
  end.

(** The digits [s] with [sep] after every digit that [mark] selects by the
    number of digits that follow it. *)
Fixpoint grouped (mark : nat -> bool) (sep s : string) : string :=
  match s with
  | EmptyString => EmptyString
  | String c r =>
      String c ((if mark (length r) then sep else EmptyString)
                ++ grouped mark sep r)
  end.

Definition is_some {A : Type} (o : option A) : bool :=
  match o with
  | Some _ => true
  | None => false
  end.

Lemma expand_literal s m b a caps : no_dollar s = true -> expand s m b a caps = s.
Proof.
  induction s as [|c s IH]; [reflexivity|].
  cbn [no_dollar]. intros H. apply andb_prop in H. destruct H as [C R].
  apply negb_true_iff in C.
  assert (E : expand (String c s) m b a caps = String c (expand s m b a caps)).
  { destruct c as [b0 b1 b2 b3 b4 b5 b6 b7].
    destruct b0, b1, b2, b3, b4, b5, b6, b7; try reflexivity; discriminate C. }
  rewrite E, (IH R). reflexivity.
Qed.

Lemma expand_group sep c b a grp :
  no_dollar sep = true ->
  expand ("$1" ++ sep) (String c "") b a [Some (String c ""); Some grp]
  = String c sep.
Proof.
  intros H. change ("$1" ++ sep) with (String "$" (String "1" sep)).
  cbn [expand]. change (Ascii.eqb "1" "$") with false.
  change (Ascii.eqb "1" "&") with false. change (Ascii.eqb "1" "`") with false.
  change (Ascii.eqb "1" "'") with false. change (is_digit "1") with true.
  cbv iota.
  assert (T : match sep with
              | EmptyString => None
              | String d2 r2 =>
                  if is_digit d2
                  then match capture [Some (String c ""); Some grp]
                               (10 * Z.to_nat (digit_val "1")
                                + Z.to_nat (digit_val d2)) with
                       | Some s =>
                           Some (s ++ expand r2 (String c "") b a
                                        [Some (String c ""); Some grp])
                       | None => None
                       end
                  else None
              end = None).
  { destruct sep as [|d2 r2]; [reflexivity|].
    destruct (is_digit d2); [|reflexivity].
    change (Z.to_nat (digit_val "1")) with 1.
    destruct (Z.to_nat (digit_val d2)) as [|[|n]]; reflexivity. }
  cbv zeta. rewrite T.
  change (capture [Some (String c ""); Some grp] (Z.to_nat (digit_val "1")))
    with (Some (String c "")).
  cbv iota. rewrite (expand_literal sep) by assumption. reflexivity.
Qed.

Lemma boundary_digits s :
  all_digits s = true -> at_boundary s = (length s =? 0).
Proof.
  destruct s as [|c s]; [reflexivity|].
  cbn [all_digits at_boundary length]. intros H. apply andb_prop in H.
  destruct H as [D _]. unfold is_word. rewrite D. reflexivity.
Qed.

Lemma threes_ahead (n : nat) :
  forall s, length s <= n -> all_digits s = true ->
            is_some (ahead_threes s) = by_threes (length s).
Proof.
  induction n as [|n IH]; intros s L A.
  - destruct s; [reflexivity | simpl in L; lia].
  - destruct s as [|a [|b [|c r]]]; try reflexivity.
    cbn [all_digits] in A.
    apply andb_prop in A. destruct A as [Da A].
    apply andb_prop in A. destruct A as [Db A].
    apply andb_prop in A. destruct A as [Dc A].
    cbn [ahead_threes]. rewrite Da, Db, Dc. cbn [andb].
    cbn [length] in L |- *.
    assert (H := IH r ltac:(lia) A).
    rewrite (boundary_digits r A).
    unfold by_threes in *.
    replace (S (S (S (length r))) mod 3) with (length r mod 3)
      by (rewrite (Nat.Div0.mod_add (length r) 1 3) at 1 ||
          (replace (S (S (S (length r)))) with (length r + 1 * 3) by lia;
           rewrite Nat.Div0.mod_add); reflexivity).
    destruct (ahead_threes r) as [g|]; cbn [is_some] in H |- *.
    + symmetry in H. apply andb_prop in H. destruct H as [_ M].
      rewrite M. reflexivity.
    + destruct (length r) as [|m]; [reflexivity|].
      cbn [Nat.eqb]. cbn [Nat.ltb Nat.leb andb] in H. cbn [is_some].
      rewrite <- H. reflexivity.
Qed.

Lemma odd_two n : Nat.odd (S (S n)) = Nat.odd n.
Proof. reflexivity. Qed.

Lemma twos_ahead (n : nat) :
  forall s, length s <= n -> all_digits s = true ->
            is_some (ahead_twos s) = by_twos (length s).
Proof.
  induction n as [|n IH]; intros s L A.
  - destruct s; [reflexivity | simpl in L; lia].
  - destruct s as [|a [|b r]]; try reflexivity.
    cbn [all_digits] in A.
    apply andb_prop in A. destruct A as [Da A].
    apply andb_prop in A. destruct A as [Db A].
    cbn [ahead_twos]. rewrite Da, Db. cbn [andb].
    cbn [length] in L |- *.
    assert (H := IH r ltac:(lia) A).
    unfold by_twos in *. rewrite odd_two.
    destruct (ahead_twos r) as [g|]; cbn [is_some] in H |- *.
    + symmetry in H. apply andb_prop in H. destruct H as [L3 M].
      apply Nat.leb_le in L3. rewrite M.
      replace (3 <=? S (S (length r))) with true
        by (symmetry; apply Nat.leb_le; lia).
      reflexivity.
    + destruct r as [|d r]; [reflexivity|].
      cbn [all_digits] in A. apply andb_prop in A. destruct A as [Dd A].
      rewrite Dd, (boundary_digits r A). cbn [andb length] in H |- *.
      destruct r as [|e r]; [reflexivity|].
      cbn [length Nat.eqb is_some] in H |- *. rewrite odd_two in H |- *.
      destruct (length r) as [|m]; [reflexivity|].
      replace (3 <=? S (S (S m))) with true in H
        by (symmetry; apply Nat.leb_le; lia).
      replace (3 <=? S (S (S (S (S m))))) with true
        by (symmetry; apply Nat.leb_le; lia).
      exact H.
Qed.

Lemma lookahead_marks g s :
  all_digits s = true -> is_some (lookahead g s) = marks g (length s).
Proof.
  intros A. destruct g; cbn [lookahead marks].
  - apply (threes_ahead (length s)); [lia | assumption].
  - apply (twos_ahead (length s)); [lia | assumption].
Qed.

Lemma replace_groups_digits g sep s :
  no_dollar sep = true -> all_digits s = true ->
  forall before,
    replace_groups g ("$1" ++ sep) before s = grouped (marks g) sep s.
Proof.
  intros Hs. induction s as [|c s IH]; intros A before; [reflexivity|].
  cbn [all_digits] in A. apply andb_prop in A. destruct A as [Dc A].
  cbn [replace_groups grouped]. rewrite Dc.
  rewrite <- (lookahead_marks g s A).
  destruct (lookahead g s) as [grp|]; cbn [is_some].
  - rewrite expand_group by assumption. rewrite (IH A). reflexivity.
  - rewrite (IH A). reflexivity.
Qed.

(** Texts without a digit. *)
Fixpoint no_digit (s : string) : bool :=
  match s with
  | EmptyString => true
  | String c r => negb (is_digit c) && no_digit r
  end.

Lemma filter_app p a b : filter p (a ++ b) = filter p a ++ filter p b.
Proof.
  induction a as [|c a IH]; [reflexivity|].
  cbn [append filter]. rewrite IH. destruct (p c); reflexivity.
Qed.

Lemma filter_no_digit s : no_digit s = true -> filter is_digit s = "".
Proof.
  induction s as [|c s IH]; [reflexivity|].
  cbn [no_digit filter]. intros H. apply andb_prop in H. destruct H as [C R].
  apply negb_true_iff in C. rewrite C. exact (IH R).
Qed.

Lemma filter_grouped mark sep s :
  no_digit sep = true -> all_digits s = true ->
  filter is_digit (grouped mark sep s) = s.
Proof.
  intros Hs. induction s as [|c s IH]; intros A; [reflexivity|].
  cbn [all_digits] in A. apply andb_prop in A. destruct A as [Dc A].
  cbn [grouped filter]. rewrite Dc, filter_app, (IH A).
  destruct (mark (length s)); [rewrite (filter_no_digit sep Hs)|]; reflexivity.
Qed.

End GroupingFacts.

(** * What [parse] keeps of a string *)

Module CleanFacts.

Import Str TextFacts CurrencyJs GroupingFacts.
Local Open Scope string_scope.

(** The characters the second replacement of [parse] keeps: the minus
    sign, the digits and the decimal mark. *)
Definition kept (decimal c : ascii) : bool :=
  Ascii.eqb c "-" || is_digit c || Ascii.eqb c decimal.

(** Texts without an opening parenthesis, and texts without a line
    terminator. *)
Fixpoint no_open (s : string) : bool :=
  match s with
  | EmptyString => true
  | String c r => negb (Ascii.eqb c "(") && no_open r
  end.

Fixpoint one_line (s : string) : bool :=
  match s with
  | EmptyString => true
  | String c r => negb (is_line_terminator c) && one_line r
  end.

Lemma paren_no_open s : no_open s = true -> paren_negative s = s.
Proof.
  induction s as [|c s IH]; [reflexivity|].
  cbn [no_open paren_negative]. intros H. apply andb_prop in H. destruct H as [C R].
  apply negb_true_iff in C. rewrite C, (IH R). reflexivity.
Qed.

Lemma no_open_filter p s : no_open s = true -> no_open (filter p s) = true.
Proof.
  induction s as [|c s IH]; [reflexivity|].
  cbn [no_open filter]. intros H. apply andb_prop in H. destruct H as [C R].
  destruct (p c); [cbn [no_open]; rewrite C|]; auto.
Qed.

Lemma filter_twice p s : filter p (filter p s) = filter p s.
Proof.
  induction s as [|c s IH]; [reflexivity|].
  cbn [filter]. destruct (p c) eqn:E; [cbn [filter]; rewrite E, IH|]; auto.
Qed.

(** Unless the decimal mark is a closing bracket, the second replacement
    keeps the characters of [kept] and removes the others. *)
Lemma clean_unfold (d : ascii) (s : string) :
  Ascii.eqb d "]" = false ->
  clean d s
  = replace_mark (mark_regex d) (filter (kept d) (paren_negative s)).
Proof. intros H. unfold clean, others_regex. rewrite H. reflexivity. Qed.

Lemma clean_kept d s :
  Ascii.eqb d "]" = false ->
  no_open s = true -> clean d (filter (kept d) s) = clean d s.
Proof.
  intros Hd H. rewrite !clean_unfold by assumption.
  rewrite (paren_no_open s H), (paren_no_open _ (no_open_filter (kept d) s H)).
  rewrite filter_twice. reflexivity.
Qed.

Lemma last_close_end s :
  one_line s = true -> last_close (s ++ ")") = Some (s, "").
Proof.
  induction s as [|c s IH]; [reflexivity|].
  cbn [one_line append last_close]. intros H. apply andb_prop in H.
  destruct H as [C R]. apply negb_true_iff in C. rewrite C, (IH R). reflexivity.
Qed.

Lemma clean_parenthesised d s :
  one_line s = true -> no_open s = true ->
  clean d ("(" ++ s ++ ")") = clean d ("-" ++ s).
Proof.
  intros L N. unfold clean. f_equal. f_equal.
  change ("(" ++ s ++ ")") with (String "(" (s ++ ")")).
  change ("-" ++ s) with (String "-" s).
  cbn [paren_negative]. rewrite Ascii.eqb_refl.
  change (Ascii.eqb "-" "(") with false. cbv iota.
  rewrite (last_close_end s L), (paren_no_open s N).
  rewrite app_empty_r. reflexivity.
Qed.

(** The constructor reads a string through [clean] only. *)
Lemma currency_clean (s t : string) (opts : Options) :
  clean (get "."%char (o_decimal (assign defaults opts))) s
  = clean (get "."%char (o_decimal (assign defaults opts))) t ->
  currency (AString s) opts = currency (AString t) opts.
Proof.
  intros H. unfold currency, parse. cbv zeta.
  cbn [decimal]. rewrite H. reflexivity.
Qed.

End CleanFacts.

(** * The text of a number *)

Module NumberText.

Import JS Str Conv NumberFacts TextFacts ScalingFacts CurrencyJs.
Local Open Scope string_scope.
Local Open Scope Z_scope.
Local Open Scope Q_scope.

Lemma pow10Q_pos e : 0 < pow10Q e.
Proof. unfold pow10Q. apply Qpower_0_lt. reflexivity. Qed.

Lemma pow10Q_add a b : pow10Q (a + b) == pow10Q a * pow10Q b.
Proof. unfold pow10Q. apply Qpower_plus. discriminate. Qed.

Lemma pow10Q_le a b : (a <= b)%Z -> pow10Q a <= pow10Q b.
Proof.
  intros H. replace b with (a + (b - a))%Z by lia. rewrite pow10Q_add.
  assert (P := pow10Q_pos a).
  assert (1 <= pow10Q (b - a)).
  { rewrite pow10Q_Z by lia. change 1 with (inject_Z 1). rewrite <- Zle_Qle.
    pose proof (Z.pow_pos_nonneg 10 (b - a)). lia. }
  assert (pow10Q a * 1 <= pow10Q a * pow10Q (b - a)) by (apply Qmult_le_l; assumption).
  lra.
Qed.

(** Two multiples of the same step that round to the same binary64
    number are the same multiple, when one of them has at most fifteen
    digits. *)
Lemma rnd_separates (X D : Z) (sc r q : Q) :
  (1 <= D <= 10 ^ 15)%Z -> (0 <= X)%Z ->
  pow2 (-1022) <= sc -> inject_Z X * sc <= pow2 1023 ->
  inject_Z D * sc <= pow2 1023 ->
  rnd (inject_Z X * sc) = Fin r -> rnd (inject_Z D * sc) = Fin q -> r == q ->
  X = D.
Proof.
  intros HD HX Hsc HXs HDs RX RD E.
  set (Xq := inject_Z X) in *. set (Dq := inject_Z D) in *. set (U := pow2 (-53)).
  assert (S0 : 0 < sc) by (assert (T := pow2_pos (-1022)); lra).
  assert (D1 : 1 <= Dq) by (unfold Dq; change 1 with (inject_Z 1); rewrite <- Zle_Qle; lia).
  assert (D2 : Dq <= inject_Z (10 ^ 15)) by (unfold Dq; rewrite <- Zle_Qle; lia).
  assert (U0 : 0 < U) by apply pow2_pos.
  assert (U1 := u_milli). fold U in U1.
  assert (UB := u_bound). fold U in UB.
  change (inject_Z (10 ^ 15)) with (1000000000000000 # 1) in *.
  assert (DU : Dq * U <= 112 # 1000).
  { assert (Dq * U <= (1000000000000000 # 1) * U) by (apply Qmult_le_compat_r; lra). lra. }
  assert (DUS : Dq * sc * U <= (112 # 1000) * sc).
  { assert (Dq * U * sc <= (112 # 1000) * sc) by (apply Qmult_le_compat_r; lra).
    assert (Dq * sc * U == Dq * U * sc) by ring. lra. }
  assert (SU0 : 0 <= sc * U) by (apply Qmult_le_0_compat; lra).
  assert (SU1 : sc * U <= sc * (1 # 1000)) by (apply Qmult_le_l; lra).
  assert (DS : sc <= Dq * sc).
  { assert (1 * sc <= Dq * sc) by (apply Qmult_le_compat_r; lra). lra. }
  destruct (rnd_rel_pos (Dq * sc)) as [q' [RD' [A B]]]; [lra | lra |]. fold U in A, B.
  rewrite RD in RD'. injection RD' as <-.
  destruct (Z.lt_trichotomy X D) as [L|[Eq|G]]; [|exact Eq|]; exfalso.
  - destruct (Z.eq_dec X 0) as [Z0|NZ].
    + subst X. unfold Xq in RX. rewrite (rnd_zero (inject_Z 0 * sc)) in RX by ring.
      injection RX as <-. lra.
    + assert (X1 : 1 <= Xq)
        by (unfold Xq; change 1 with (inject_Z 1); rewrite <- Zle_Qle; lia).
      assert (XD : Xq + 1 <= Dq).
      { unfold Xq, Dq. change 1 with (inject_Z 1).
        rewrite <- inject_Z_plus, <- Zle_Qle. lia. }
      assert (XS : Xq * sc <= Dq * sc - sc).
      { assert (Xq * sc <= (Dq - 1) * sc) by (apply Qmult_le_compat_r; lra).
        assert ((Dq - 1) * sc == Dq * sc - sc) by ring. lra. }
      assert (XS1 : sc <= Xq * sc).
      { assert (1 * sc <= Xq * sc) by (apply Qmult_le_compat_r; lra). lra. }
      destruct (rnd_rel_pos (Xq * sc)) as [r' [RX' [A' B']]]; [lra | lra |].
      fold U in A', B'. rewrite RX in RX'. injection RX' as <-.
      assert (XU : Xq * sc * U <= Dq * sc * U - sc * U).
      { assert (Xq * sc * U <= (Dq * sc - sc) * U) by (apply Qmult_le_compat_r; lra).
        assert ((Dq * sc - sc) * U == Dq * sc * U - sc * U) by ring. lra. }
      lra.
  - assert (XD : Dq + 1 <= Xq).
    { unfold Xq, Dq. change 1 with (inject_Z 1).
      rewrite <- inject_Z_plus, <- Zle_Qle. lia. }
    assert (XS : Dq * sc + sc <= Xq * sc).
    { assert ((Dq + 1) * sc <= Xq * sc) by (apply Qmult_le_compat_r; lra).
      assert ((Dq + 1) * sc == Dq * sc + sc) by ring. lra. }
    destruct (rnd_rel_pos (Xq * sc)) as [r' [RX' [A' B']]]; [lra | lra |].
    fold U in A', B'. rewrite RX in RX'. injection RX' as <-.
    assert (XU : (Dq * sc + sc) * (1 - U) <= Xq * sc * (1 - U))
      by (apply Qmult_le_compat_r; lra).
    assert ((Dq * sc + sc) * (1 - U) == Dq * sc + sc - Dq * sc * U - sc * U) by ring.
    assert (Xq * sc * (1 - U) == Xq * sc - Xq * sc * U) by ring.
    lra.
Qed.

(** Whether [c] steps of [sc] round to the binary64 number [q]. *)
Definition reads_back (sc q : Q) (c : Z) : bool :=
  match rnd (inject_Z c * sc) with
  | Fin r => Qeq_bool r q
  | _ => false
  end.

Lemma shortest_step (t : nat) (k n : Z) (q : Q) :
  shortest_digits (S t) k n q
  = let sc := pow10Q (n - k) in
    let lo := Qfloor (q / sc) in
    match reads_back sc q lo, reads_back sc q (lo + 1) with
    | true, true =>
        match Qcompare (Qabs (inject_Z lo * sc - q))
                       (Qabs (inject_Z (lo + 1) * sc - q)) with
        | Lt => (lo, (n - k)%Z)
        | Gt => ((lo + 1)%Z, (n - k)%Z)
        | Eq => ((if Z.even lo then lo else lo + 1)%Z, (n - k)%Z)
        end
    | true, false => (lo, (n - k)%Z)
    | false, true => ((lo + 1)%Z, (n - k)%Z)
    | false, false => shortest_digits t (k + 1) n q
    end.
Proof. reflexivity. Qed.

Lemma tiny_step : pow2 (-1022) <= pow10Q (-30).
Proof. unfold Qle. vm_compute. discriminate. Qed.

Lemma large_steps : pow10Q 19 <= pow2 1023.
Proof. unfold Qle. vm_compute. discriminate. Qed.

(** The digits [Number::toString] finds for the binary64 number [q]
    nearest to a decimal [d] of at most fifteen digits are those of [d]:
    the search stops at a number of digits at which a candidate rounds to
    [q], and such a candidate is [d] itself. *)
Lemma shortest_exact (q d : Q) (n0 Dstar kstar : Z) :
  rnd d = Fin q -> 0 < q -> q < pow10Q n0 ->
  d == inject_Z Dstar * pow10Q (n0 - kstar) ->
  (1 <= Dstar <= 10 ^ 15)%Z -> (1 <= kstar <= 17)%Z ->
  (-30 <= n0 - kstar)%Z -> (n0 <= 17)%Z ->
  forall (m : nat) (k : Z) (tries : nat),
    (1 <= k)%Z -> (k + Z.of_nat m = kstar)%Z -> (Z.of_nat tries + k = 18)%Z ->
    exists c kf,
      (k <= kf <= kstar)%Z
      /\ shortest_digits tries k n0 q = (c, (n0 - kf)%Z)
      /\ (c * 10 ^ (kstar - kf) = Dstar)%Z.
Proof.
  intros Rd Hq Hq2 Ed HD Hks Hlo Hn0.
  set (ss := pow10Q (n0 - kstar)) in *.
  set (Dq := inject_Z Dstar) in *. set (U := pow2 (-53)).
  assert (SS0 : 0 < ss) by apply pow10Q_pos.
  assert (SSn : pow2 (-1022) <= ss).
  { apply (Qle_trans _ (pow10Q (-30))); [apply tiny_step | apply pow10Q_le; lia]. }
  assert (D1 : 1 <= Dq) by (unfold Dq; change 1 with (inject_Z 1); rewrite <- Zle_Qle; lia).
  assert (D2 : Dq <= inject_Z (10 ^ 15)) by (unfold Dq; rewrite <- Zle_Qle; lia).
  change (inject_Z (10 ^ 15)) with (1000000000000000 # 1) in D2.
  assert (U0 : 0 < U) by apply pow2_pos.
  assert (U1 := u_milli). fold U in U1.
  assert (UB := u_bound). fold U in UB.
  change (inject_Z (10 ^ 15)) with (1000000000000000 # 1) in UB.
  assert (DU : Dq * U <= 112 # 1000).
  { assert (Dq * U <= (1000000000000000 # 1) * U) by (apply Qmult_le_compat_r; lra). lra. }
  assert (Q17 : pow10Q n0 <= pow10Q 17) by (apply pow10Q_le; lia).
  assert (L19 := large_steps).
  assert (P1719 : pow10Q 17 * 100 == pow10Q 19) by reflexivity.
  assert (P17 : 0 < pow10Q 17) by apply pow10Q_pos.
  assert (Dd : ss <= d).
  { rewrite Ed. assert (1 * ss <= Dq * ss) by (apply Qmult_le_compat_r; lra). lra. }
  destruct (rnd_rel_pos d) as [q' [Rd' [A B]]].
  { lra. }
  { destruct (Qlt_le_dec (pow2 1023) d) as [G|G]; [|exact G]. exfalso.
    unfold rnd in Rd. destruct (Qcompare_spec d 0) as [E|E|E]; try lra.
    cbv zeta in Rd. destruct (Qle_bool (pow2 1024) (rnd_abs d)) eqn:Ov; [discriminate|].
    assert (Rq : Qred (rnd_abs d) = q) by (unfold fin in Rd; congruence).
    assert (T := pow2_pos (-1022)).
    destruct (rnd_abs_rel d) as [A' _]; [lra|]. fold U in A'.
    assert (d * U <= d * (1 # 1000)) by (apply Qmult_le_l; lra).
    assert (q == rnd_abs d) by (rewrite <- Rq; apply Qred_correct).
    lra. }
  fold U in A, B. rewrite Rd in Rd'. injection Rd' as <-.
  assert (DUd : d * U <= d * (1 # 1000)) by (apply Qmult_le_l; lra).
  assert (Dhi : d <= pow10Q 17 * 2) by lra.
  assert (RD : rnd (Dq * ss) = Fin q) by (rewrite <- (rnd_comp _ _ Ed); exact Rd).
  (* a candidate that rounds to [q] is [d] *)
  assert (Cand : forall k x,
             (1 <= k <= kstar)%Z -> (0 <= x)%Z ->
             inject_Z x * pow10Q (n0 - k) <= q + pow10Q (n0 - k) ->
             reads_back (pow10Q (n0 - k)) q x = true ->
             (x * 10 ^ (kstar - k) = Dstar)%Z).
  { intros k x Hk Hx Hb Ok. unfold reads_back in Ok.
    destruct (rnd (inject_Z x * pow10Q (n0 - k))) as [| | |r] eqn:R; try discriminate.
    apply Qeq_bool_eq in Ok.
    assert (Es : pow10Q (n0 - k) == inject_Z (10 ^ (kstar - k)) * ss).
    { unfold ss. rewrite <- pow10Q_Z by lia. rewrite <- pow10Q_add.
      replace (kstar - k + (n0 - kstar))%Z with (n0 - k)%Z by lia. reflexivity. }
    assert (Ex : inject_Z x * pow10Q (n0 - k) == inject_Z (x * 10 ^ (kstar - k)) * ss).
    { rewrite Es, inject_Z_mult. ring. }
    rewrite (rnd_comp _ _ Ex) in R.
    assert (Sk : pow10Q (n0 - k) <= pow10Q 17) by (apply pow10Q_le; lia).
    apply (rnd_separates (x * 10 ^ (kstar - k)) Dstar ss r q); try assumption.
    - pose proof (Z.pow_pos_nonneg 10 (kstar - k)). nia.
    - rewrite <- Ex. lra.
    - fold Dq. rewrite <- Ed. lra. }
  induction m as [|m IH]; intros k tries Hk Hm Ht.
  - (* the last number of digits *)
    assert (k = kstar) by lia. subst k.
    destruct tries as [|t]; [lia|]. rewrite shortest_step. cbv zeta.
    fold ss. set (lo := Qfloor (q / ss)).
    assert (F1 := Qfloor_le (q / ss)). assert (F2 := Qlt_floor (q / ss)).
    fold lo in F1, F2.
    assert (Qs : q == q / ss * ss) by (field; lra).
    assert (X1 : Dq - (112 # 1000) <= q / ss).
    { apply Qle_shift_div_l; [assumption|].
      assert ((Dq - (112 # 1000)) * ss == Dq * ss - (112 # 1000) * ss) by ring.
      assert (d * U == Dq * U * ss) by (rewrite Ed; ring).
      assert (Dq * U * ss <= (112 # 1000) * ss) by (apply Qmult_le_compat_r; lra).
      lra. }
    assert (X2 : q / ss <= Dq + (112 # 1000)).
    { apply Qle_shift_div_r; [assumption|].
      assert ((Dq + (112 # 1000)) * ss == Dq * ss + (112 # 1000) * ss) by ring.
      assert (d * U == Dq * U * ss) by (rewrite Ed; ring).
      assert (Dq * U * ss <= (112 # 1000) * ss) by (apply Qmult_le_compat_r; lra).
      lra. }
    assert (L1 : (lo <= Dstar)%Z).
    { assert (inject_Z lo < inject_Z (Dstar + 1)).
      { rewrite inject_Z_plus. change (inject_Z 1) with 1. fold Dq. lra. }
      rewrite <- Zlt_Qlt in H. lia. }
    assert (L2 : (Dstar <= lo + 1)%Z).
    { assert (inject_Z (Dstar - 1) < inject_Z (lo + 1)).
      { unfold Z.sub. rewrite inject_Z_plus. change (inject_Z (- (1))) with (- (1)).
        fold Dq. lra. }
      rewrite <- Zlt_Qlt in H. lia. }
    assert (OkD : reads_back ss q Dstar = true).
    { unfold reads_back. fold Dq. rewrite RD. apply Qeq_bool_refl. }
    assert (Lo0 : (0 <= lo)%Z) by lia.
    assert (B1 : inject_Z lo * ss <= q + ss).
    { assert (inject_Z lo * ss <= q / ss * ss) by (apply Qmult_le_compat_r; lra). lra. }
    assert (B2 : inject_Z (lo + 1) * ss <= q + ss).
    { rewrite inject_Z_plus. change (inject_Z 1) with 1.
      assert (inject_Z lo * ss <= q / ss * ss) by (apply Qmult_le_compat_r; lra).
      assert ((inject_Z lo + 1) * ss == inject_Z lo * ss + ss) by ring. lra. }
    replace (n0 - kstar)%Z with (n0 - kstar)%Z in Cand by reflexivity.
    destruct (reads_back ss q lo) eqn:O1; destruct (reads_back ss q (lo + 1)) eqn:O2.
    + exfalso.
      pose proof (Cand kstar lo ltac:(lia) Lo0 B1 O1) as C1.
      pose proof (Cand kstar (lo + 1)%Z ltac:(lia) ltac:(lia) B2 O2) as C2.
      rewrite Z.sub_diag in C1, C2. lia.
    + exists lo, kstar. split; [lia|]. split; [reflexivity|].
      exact (Cand kstar lo ltac:(lia) Lo0 B1 O1).
    + exists (lo + 1)%Z, kstar. split; [lia|]. split; [reflexivity|].
      exact (Cand kstar (lo + 1)%Z ltac:(lia) ltac:(lia) B2 O2).
    + exfalso. destruct (Z.eq_dec lo Dstar) as [E|E].
      * rewrite E in O1. congruence.
      * assert (E' : (lo + 1)%Z = Dstar) by lia. rewrite E' in O2. congruence.
  - destruct tries as [|t]; [lia|]. rewrite shortest_step. cbv zeta.
    set (sc := pow10Q (n0 - k)). set (lo := Qfloor (q / sc)).
    assert (SC0 : 0 < sc) by apply pow10Q_pos.
    assert (F1 := Qfloor_le (q / sc)). fold lo in F1.
    assert (Qs : q == q / sc * sc) by (field; lra).
    assert (Q0 : 0 < q / sc) by (apply Qlt_shift_div_l; lra).
    assert (Lo0 : (0 <= lo)%Z).
    { unfold lo. rewrite <- (Qfloor_Z 0). apply Qfloor_resp_le.
      change (inject_Z 0) with 0. lra. }
    assert (B1 : inject_Z lo * sc <= q + sc).
    { assert (inject_Z lo * sc <= q / sc * sc) by (apply Qmult_le_compat_r; lra). lra. }
    assert (B2 : inject_Z (lo + 1) * sc <= q + sc).
    { rewrite inject_Z_plus. change (inject_Z 1) with 1.
      assert (inject_Z lo * sc <= q / sc * sc) by (apply Qmult_le_compat_r; lra).
      assert ((inject_Z lo + 1) * sc == inject_Z lo * sc + sc) by ring. lra. }
    destruct (reads_back sc q lo) eqn:O1; destruct (reads_back sc q (lo + 1)) eqn:O2.
    + exfalso.
      pose proof (Cand k lo ltac:(lia) Lo0 B1 O1) as C1.
      pose proof (Cand k (lo + 1)%Z ltac:(lia) ltac:(lia) B2 O2) as C2.
      pose proof (Z.pow_pos_nonneg 10 (kstar - k)). nia.
    + exists lo, k. split; [lia|]. split; [reflexivity|].
      exact (Cand k lo ltac:(lia) Lo0 B1 O1).
    + exists (lo + 1)%Z, k. split; [lia|]. split; [reflexivity|].
      exact (Cand k (lo + 1)%Z ltac:(lia) ltac:(lia) B2 O2).
    + destruct (IH (k + 1)%Z t ltac:(lia) ltac:(lia) ltac:(lia)) as [c [kf [S0 [S1 S2]]]].
      exists c, kf. split; [lia|]. split; assumption.
Qed.

(** The decimal logarithm is taken from the binary one: for the exponents
    of the numbers the program prints, a power of two lies between the
    powers of ten one below and two above the estimate. *)
Definition log_table_ok (i : nat) : bool :=
  let il := (Z.of_nat i - 40)%Z in
  let e := (il * 30103 / 100000)%Z in
  Qle_bool (pow10Q (e - 1)) (pow2 il) && Qle_bool (pow2 (il + 1)) (pow10Q (e + 2)).

Lemma log_table : forallb log_table_ok (seq 0 100) = true.
Proof. vm_compute. reflexivity. Qed.

Lemma ilog10_spec q :
  pow2 (-40) <= q -> q < pow2 59 ->
  pow10Q (ilog10 q) <= q /\ q < pow10Q (ilog10 q + 1).
Proof.
  intros Lo Hi.
  assert (Q0 : 0 < q) by (assert (T := pow2_pos (-40)); lra).
  destruct (ilog2_spec q Q0) as [I1 I2].
  assert (G : (-40 <= ilog2 q)%Z) by (apply ilog2_ge; assumption).
  assert (L : (ilog2 q < 59)%Z) by (apply ilog2_lt; assumption).
  set (il := ilog2 q) in *.
  assert (T : log_table_ok (Z.to_nat (il + 40)) = true).
  { apply (proj1 (forallb_forall log_table_ok (seq 0 100)) log_table).
    apply in_seq. lia. }
  unfold log_table_ok in T. cbv zeta in T.
  replace (Z.of_nat (Z.to_nat (il + 40)) - 40)%Z with il in T by lia.
  apply andb_prop in T. destruct T as [T1 T2].
  apply Qle_bool_iff in T1. apply Qle_bool_iff in T2.
  unfold ilog10. fold il. cbv zeta.
  set (e := (il * 30103 / 100000)%Z) in *.
  destruct (Qle_bool (pow10Q (e + 1)) q) eqn:C1.
  - apply Qle_bool_iff in C1. split; [assumption|].
    replace (e + 1 + 1)%Z with (e + 2)%Z by lia. lra.
  - assert (C1' : q < pow10Q (e + 1)).
    { apply Qnot_le_lt. intro C. apply Qle_bool_iff in C. congruence. }
    destruct (Qle_bool (pow10Q e) q) eqn:C2.
    + apply Qle_bool_iff in C2. split; assumption.
    + assert (C2' : q < pow10Q e).
      { apply Qnot_le_lt. intro C. apply Qle_bool_iff in C. congruence. }
      split; [lra|]. replace (e - 1 + 1)%Z with e by lia. assumption.
Qed.

Local Open Scope Z_scope.

(** ** Digits *)

Lemma digits_onto_step (f : nat) (n : Z) (acc : string) :
  digits_onto (S f) n acc
  = if n <? 10 then String (digit_char (n mod 10)) acc
    else digits_onto f (n / 10) (String (digit_char (n mod 10)) acc).
Proof. reflexivity. Qed.

Lemma digits_onto_enough (f1 : nat) :
  forall (f2 : nat) (n : Z) (acc : string),
    0 <= n < 2 ^ Z.of_nat (S f1) -> n < 2 ^ Z.of_nat (S f2) ->
    digits_onto (S f1) n acc = digits_onto (S f2) n acc.
Proof.
  induction f1 as [|f1 IH]; intros f2 n acc H1 H2.
  - assert (n < 10) by (change (2 ^ Z.of_nat 1) with 2 in H1; lia).
    rewrite !digits_onto_step. destruct (Z.ltb_spec n 10); [reflexivity | lia].
  - rewrite (digits_onto_step (S f1)), (digits_onto_step f2).
    destruct (Z.ltb_spec n 10) as [L|G]; [reflexivity|].
    assert (B1 : 0 <= n / 10 < 2 ^ Z.of_nat (S f1)).
    { split; [apply Z.div_pos; lia|].
      apply Z.div_lt_upper_bound; [lia|].
      replace (Z.of_nat (S (S f1))) with (Z.of_nat (S f1) + 1) in H1 by lia.
      rewrite Z.pow_add_r in H1 by lia.
      assert (0 < 2 ^ Z.of_nat (S f1)) by (apply Z.pow_pos_nonneg; lia).
      change (2 ^ 1) with 2 in H1.
      set (X := 2 ^ Z.of_nat (S f1)) in *. lia. }
    destruct f2 as [|f2].
    + change (2 ^ Z.of_nat 1) with 2 in H2. lia.
    + apply IH; [assumption|].
      apply Z.div_lt_upper_bound; [lia|].
      replace (Z.of_nat (S (S f2))) with (Z.of_nat (S f2) + 1) in H2 by lia.
      rewrite Z.pow_add_r in H2 by lia.
      assert (0 < 2 ^ Z.of_nat (S f2)) by (apply Z.pow_pos_nonneg; lia).
      change (2 ^ 1) with 2 in H2.
      set (X := 2 ^ Z.of_nat (S f2)) in *. lia.
Qed.

Lemma digits_of_bound (n : Z) :
  0 <= n -> 0 <= n < 2 ^ Z.of_nat (S (Z.to_nat (Z.log2 n))).
Proof.
  intros H. split; [assumption|].
  destruct (Z.eq_dec n 0) as [->|N]; [reflexivity|].
  pose proof (Z.log2_spec n ltac:(lia)) as [_ L].
  pose proof (Z.log2_nonneg n).
  replace (Z.of_nat (S (Z.to_nat (Z.log2 n)))) with (Z.succ (Z.log2 n)) by lia.
  exact L.
Qed.

(** The digits of ten times a number are its digits and a zero. *)
Lemma digits_of_ten (x : Z) : 1 <= x -> digits_of (10 * x) = digits_of x ++ "0".
Proof.
  intros H. unfold digits_of at 1.
  rewrite digits_onto_step.
  destruct (Z.ltb_spec (10 * x) 10) as [L|G]; [lia|].
  replace (10 * x mod 10) with 0 by (rewrite Z.mul_comm, Z.mod_mul; lia).
  replace (10 * x / 10) with x by (rewrite Z.mul_comm, Z.div_mul; lia).
  change (digit_char 0) with "0"%char.
  pose proof (digits_of_bound x ltac:(lia)) as Bx.
  pose proof (digits_of_bound (10 * x) ltac:(lia)) as B10.
  remember (Z.to_nat (Z.log2 (10 * x))) as L10 eqn:E10.
  destruct L10 as [|L10].
  { change (2 ^ Z.of_nat 1) with 2 in B10. lia. }
  assert (Bx' : x < 2 ^ Z.of_nat (S L10)).
  { replace (Z.of_nat (S (S L10))) with (Z.of_nat (S L10) + 1) in B10 by lia.
    rewrite Z.pow_add_r in B10 by lia.
    assert (0 < 2 ^ Z.of_nat (S L10)) by (apply Z.pow_pos_nonneg; lia).
    change (2 ^ 1) with 2 in B10.
    set (X := 2 ^ Z.of_nat (S L10)) in *. lia. }
  rewrite <- (digits_onto_enough (Z.to_nat (Z.log2 x)) L10 x "0" Bx Bx').
  rewrite digits_onto_app. reflexivity.
Qed.

Lemma repeat0_snoc (m : nat) : repeat0 m ++ "0" = repeat0 (S m).
Proof. induction m as [|m IH]; [reflexivity|]. cbn [repeat0 append]. rewrite IH. reflexivity. Qed.

Lemma repeat0_add (a b : nat) : repeat0 a ++ repeat0 b = repeat0 (a + b).
Proof. induction a as [|a IH]; [reflexivity|]. cbn [repeat0 append Nat.add]. rewrite IH. reflexivity. Qed.

Lemma digits_of_shift (x : Z) (m : nat) :
  1 <= x -> digits_of (x * 10 ^ Z.of_nat m) = digits_of x ++ repeat0 m.
Proof.
  intros H. induction m as [|m IH].
  - rewrite Z.mul_1_r, app_empty_r. reflexivity.
  - replace (x * 10 ^ Z.of_nat (S m)) with (10 * (x * 10 ^ Z.of_nat m)).
    + rewrite digits_of_ten.
      * rewrite IH, app_assoc', repeat0_snoc. reflexivity.
      * pose proof (Z.pow_pos_nonneg 10 (Z.of_nat m)). nia.
    + replace (Z.of_nat (S m)) with (Z.of_nat m + 1) by lia.
      rewrite Z.pow_add_r by lia. change (10 ^ 1) with 10. ring.
Qed.

(** ** Trailing zeros *)

Lemma rev_cons (c : ascii) (s : string) : rev (String c s) = rev s ++ String c "".
Proof. change (String c s) with (String c "" ++ s). rewrite rev_app. reflexivity. Qed.

Lemma rev_repeat0 (m : nat) : rev (repeat0 m) = repeat0 m.
Proof.
  induction m as [|m IH]; [reflexivity|].
  cbn [repeat0]. rewrite rev_cons, IH. apply repeat0_snoc.
Qed.

Lemma strip_rev_zeros (m : nat) (t : string) :
  strip_trailing_zeros_rev (repeat0 m ++ t) = strip_trailing_zeros_rev t.
Proof. induction m as [|m IH]; [reflexivity|]. cbn [repeat0 append]. exact IH. Qed.

Lemma strip_app_zeros (s : string) (m : nat) :
  strip_trailing_zeros (s ++ repeat0 m) = strip_trailing_zeros s.
Proof.
  unfold strip_trailing_zeros. rewrite rev_app, rev_repeat0, strip_rev_zeros. reflexivity.
Qed.

(** A text that is empty or ends with a character other than the zero. *)
Definition trimmed (s : string) : Prop :=
  s = "" \/ exists r c, s = r ++ String c "" /\ c <> "0"%char.

Lemma strip_rev_decomp (t : string) :
  exists j, t = repeat0 j ++ strip_trailing_zeros_rev t
            /\ (strip_trailing_zeros_rev t = ""
                \/ exists c r, strip_trailing_zeros_rev t = String c r /\ c <> "0"%char).
Proof.
  induction t as [|c t [j [E H]]].
  - exists 0%nat. split; [reflexivity | left; reflexivity].
  - destruct (Ascii.eqb_spec c "0") as [->|N].
    + exists (S j). cbn [strip_trailing_zeros_rev repeat0 append].
      split; [f_equal; exact E | exact H].
    + exists 0%nat.
      assert (S' : strip_trailing_zeros_rev (String c t) = String c t).
      { destruct c as [b0 b1 b2 b3 b4 b5 b6 b7].
        destruct b0, b1, b2, b3, b4, b5, b6, b7; try reflexivity. exfalso. apply N. reflexivity. }
      rewrite S'. split; [reflexivity|]. right. exists c, t. split; [reflexivity | exact N].
Qed.

Lemma strip_decomp (s : string) :
  exists j, s = strip_trailing_zeros s ++ repeat0 j
            /\ trimmed (strip_trailing_zeros s).
Proof.
  destruct (strip_rev_decomp (rev s)) as [j [E H]].
  exists j. unfold strip_trailing_zeros. split.
  - rewrite <- (rev_involutive s) at 1. rewrite E at 1.
    rewrite rev_app, rev_repeat0. reflexivity.
  - destruct H as [H|[c [r [H N]]]].
    + left. rewrite H. reflexivity.
    + right. exists (rev r), c. rewrite H, rev_cons. split; [reflexivity | exact N].
Qed.

Lemma strip_trimmed (s : string) : trimmed s -> strip_trailing_zeros s = s.
Proof.
  intros [->|[r [c [-> N]]]]; [reflexivity|].
  unfold strip_trailing_zeros. rewrite rev_app.
  change (rev (String c "")) with (String c "").
  assert (S' : strip_trailing_zeros_rev (String c "" ++ rev r) = String c "" ++ rev r).
  { cbn [append]. destruct c as [b0 b1 b2 b3 b4 b5 b6 b7].
    destruct b0, b1, b2, b3, b4, b5, b6, b7; try reflexivity. exfalso. apply N. reflexivity. }
  rewrite S', rev_app, rev_involutive. reflexivity.
Qed.

Lemma trimmed_app (a s : string) : trimmed s -> s <> "" -> trimmed (a ++ s).
Proof.
  intros [->|[r [c [-> N]]]] H; [congruence|].
  right. exists (a ++ r), c. rewrite app_assoc'. split; [reflexivity | exact N].
Qed.

Lemma strip_idem_app (a s : string) :
  strip_trailing_zeros s <> "" ->
  strip_trailing_zeros (a ++ s) = a ++ strip_trailing_zeros s.
Proof.
  intros H. destruct (strip_decomp s) as [j [E T]].
  rewrite E at 1. rewrite <- app_assoc', strip_app_zeros.
  apply strip_trimmed. apply trimmed_app; assumption.
Qed.

Lemma digits_value_zeros (m : nat) : digits_value 0 (repeat0 m) = 0.
Proof.
  destruct (repeat0_spec m) as [_ [_ V]].
  rewrite <- (app_empty_r (repeat0 m)). rewrite V. reflexivity.
Qed.

Lemma strip_digits_of (C : Z) : 1 <= C -> strip_trailing_zeros (digits_of C) <> "".
Proof.
  intros H E. destruct (strip_decomp (digits_of C)) as [j [D _]].
  rewrite E in D. cbn [append] in D.
  destruct (digits_of_spec C ltac:(lia)) as [V _].
  rewrite D, digits_value_zeros in V. lia.
Qed.

(** ** The text of a positive number *)

(** Where [Number::toString] puts the point: the digits [ds], of which
    [n] stand before the point. *)
Definition place (ds : string) (n : Z) : string :=
  let k := Z.of_nat (length ds) in
  if (k <=? n) && (n <=? 21) then ds ++ repeat0 (Z.to_nat (n - k))
  else if (0 <? n) && (n <=? 21) then
    take (Z.to_nat n) ds ++ "." ++ drop (Z.to_nat n) ds
  else if (-6 <? n) && (n <=? 0) then
    "0." ++ repeat0 (Z.to_nat (- n)) ++ ds
  else
    match ds with
    | String d EmptyString => String d (exponent_text (n - 1))
    | String d r => String d ("." ++ r ++ exponent_text (n - 1))
    | EmptyString => "0"
    end.

Lemma to_string_pos_place (q : Q) :
  to_string_pos q
  = let '(c, e10) := shortest_digits 17 1 (ilog10 q + 1) q in
    place (strip_trailing_zeros (digits_of c))
          (Z.of_nat (length (digits_of c)) + e10).
Proof. unfold to_string_pos. destruct (shortest_digits _ _ _ _). reflexivity. Qed.

Lemma pow10Q_small_steps : (pow2 (-40) <= (999 # 1000) * pow10Q (-6))%Q.
Proof. unfold Qle. vm_compute. discriminate. Qed.

Lemma pow10Q_large_steps : ((1001 # 1000) * pow10Q 15 < pow2 59)%Q.
Proof. unfold Qlt. vm_compute. reflexivity. Qed.

(** The text of the binary64 number nearest to a decimal of at most
    fifteen digits and at most six decimals is made of the digits of the
    decimal, without its trailing zeros. *)
Lemma to_string_decimal (C : Z) (f : nat) (q : Q) :
  1 <= C <= 10 ^ 15 -> (f <= 6)%nat ->
  rnd (inject_Z C * pow10Q (- Z.of_nat f)) = Fin q ->
  to_string_pos q
  = place (strip_trailing_zeros (digits_of C))
          (Z.of_nat (length (digits_of C)) - Z.of_nat f).
Proof.
  intros HC Hf R.
  set (d := (inject_Z C * pow10Q (- Z.of_nat f))%Q) in *.
  set (Cq := inject_Z C) in *. set (U := pow2 (-53)).
  set (g := pow10Q (- Z.of_nat f)) in *.
  assert (G0 : (0 < g)%Q) by apply pow10Q_pos.
  assert (G6 : (pow10Q (-6) <= g)%Q) by (apply pow10Q_le; lia).
  assert (G1 : (g <= 1)%Q) by (apply (pow10Q_le _ 0); lia).
  assert (C1 : (1 <= Cq)%Q) by (unfold Cq; change 1%Q with (inject_Z 1); rewrite <- Zle_Qle; lia).
  assert (C2 : (Cq <= pow10Q 15)%Q).
  { rewrite pow10Q_Z by lia. unfold Cq. rewrite <- Zle_Qle. lia. }
  assert (U0 : (0 < U)%Q) by apply pow2_pos.
  assert (U1 := u_milli). fold U in U1.
  assert (Dg : (g <= d)%Q).
  { unfold d. assert (1 * g <= Cq * g)%Q by (apply Qmult_le_compat_r; lra). lra. }
  assert (Dhi : (d <= pow10Q 15)%Q).
  { unfold d. assert (Cq * g <= Cq * 1)%Q by (apply Qmult_le_l; lra). lra. }
  assert (S1 := pow10Q_small_steps). assert (S2 := pow10Q_large_steps).
  assert (P6 : (0 < pow10Q (-6))%Q) by apply pow10Q_pos.
  assert (P15 : (0 < pow10Q 15)%Q) by apply pow10Q_pos.
  assert (N1 : (pow2 (-1022) <= pow2 (-40))%Q) by (apply pow2_le; lia).
  assert (N2 : (pow2 59 <= pow2 1023)%Q) by (apply pow2_le; lia).
  destruct (rnd_rel_pos d) as [q' [R' [A B]]]; [lra | lra |].
  fold U in A, B. rewrite R in R'. injection R' as <-.
  assert (DU : (d * U <= d * (1 # 1000))%Q) by (apply Qmult_le_l; lra).
  assert (DU0 : (0 <= d * U)%Q) by (apply Qmult_le_0_compat; lra).
  assert (Q0 : (0 < q)%Q) by lra.
  destruct (ilog10_spec q) as [I1 I2]; [lra | lra |].
  set (n0 := ilog10 q + 1) in *.
  replace (ilog10 q) with (n0 - 1) in I1 by (unfold n0; lia).
  assert (Nlo : - Z.of_nat f <= n0).
  { destruct (Z.le_gt_cases (- Z.of_nat f) n0) as [L|G]; [exact L|]. exfalso.
    assert (pow10Q n0 <= pow10Q (- Z.of_nat f - 1))%Q by (apply pow10Q_le; lia).
    assert (pow10Q (- Z.of_nat f - 1) * 10 == g)%Q.
    { unfold g. replace (- Z.of_nat f) with (- Z.of_nat f - 1 + 1) at 2 by lia.
      rewrite pow10Q_add. reflexivity. }
    lra. }
  assert (Nhi : n0 + Z.of_nat f <= 16).
  { destruct (Z.le_gt_cases (n0 + Z.of_nat f) 16) as [L|G]; [exact L|]. exfalso.
    assert (pow10Q (16 - Z.of_nat f) <= pow10Q (n0 - 1))%Q by (apply pow10Q_le; lia).
    assert (pow10Q (16 - Z.of_nat f) == pow10Q 15 * 10 * g)%Q.
    { unfold g. replace (16 - Z.of_nat f) with (16 + - Z.of_nat f) by lia.
      rewrite pow10Q_add. reflexivity. }
    assert (Cq * g <= pow10Q 15 * g)%Q by (apply Qmult_le_compat_r; lra).
    assert (0 < pow10Q 15 * g)%Q by (apply Qmult_lt_0_compat; lra).
    unfold d in *. lra. }
  rewrite to_string_pos_place. fold n0.
  destruct (Z.eq_dec (n0 + Z.of_nat f) 0) as [Z0|NZ].
  - (* the decimal is a power of ten that rounds downward *)
    assert (C = 1).
    { destruct (Z.eq_dec C 1) as [E|E]; [exact E|]. exfalso.
      assert (2 <= Cq)%Q by (unfold Cq; change 2%Q with (inject_Z 2); rewrite <- Zle_Qle; lia).
      assert (2 * g <= Cq * g)%Q by (apply Qmult_le_compat_r; lra).
      assert (pow10Q n0 <= g)%Q by (apply pow10Q_le; lia).
      unfold d in *. lra. }
    subst C.
    assert (Ed : (d == inject_Z 10 * pow10Q (n0 - 1))%Q).
    { unfold d, Cq, g. replace (- Z.of_nat f) with (1 + (n0 - 1)) by lia.
      rewrite pow10Q_add. change (pow10Q 1) with (10 # 1)%Q.
      change (inject_Z 10) with (10 # 1)%Q. change (inject_Z 1) with 1%Q. ring. }
    destruct (shortest_exact q d n0 10 1 R Q0 I2 Ed ltac:(split; [lia | vm_compute; discriminate])
                ltac:(lia) ltac:(lia) ltac:(lia) 0%nat 1 17%nat ltac:(lia) ltac:(lia) ltac:(lia))
      as [c [kf [K [S E]]]].
    assert (kf = 1) by lia. subst kf. rewrite Z.sub_diag, Z.mul_1_r in E. subst c.
    rewrite S. change (digits_of 10) with "10". change (digits_of 1) with "1".
    change (strip_trailing_zeros "10") with "1". change (strip_trailing_zeros "1") with "1".
    f_equal. cbn [length]. lia.
  - assert (Ed : (d == inject_Z C * pow10Q (n0 - (n0 + Z.of_nat f)))%Q).
    { unfold d, Cq, g. replace (n0 - (n0 + Z.of_nat f)) with (- Z.of_nat f) by lia.
      reflexivity. }
    destruct (shortest_exact q d n0 C (n0 + Z.of_nat f) R Q0 I2 Ed HC
                ltac:(lia) ltac:(lia) ltac:(lia)
                (Z.to_nat (n0 + Z.of_nat f - 1)) 1 17%nat ltac:(lia) ltac:(lia) ltac:(lia))
      as [c [kf [K [S E]]]].
    rewrite S.
    set (m1 := Z.to_nat (n0 + Z.of_nat f - kf)).
    replace (n0 + Z.of_nat f - kf) with (Z.of_nat m1) in E by (unfold m1; lia).
    assert (Hc : 1 <= c).
    { pose proof (Z.pow_pos_nonneg 10 (Z.of_nat m1)). nia. }
    assert (W : digits_of C = digits_of c ++ repeat0 m1).
    { rewrite <- E. apply digits_of_shift. exact Hc. }
    rewrite W, strip_app_zeros. f_equal.
    rewrite length_app'. destruct (repeat0_spec m1) as [_ [L _]]. rewrite L.
    unfold m1. lia.
Qed.

(** ** The two parts of the text *)

Lemma take_app_le (n : nat) (a b : string) :
  (n <= length a)%nat -> take n (a ++ b) = take n a.
Proof.
  revert a. induction n as [|n IH]; intros [|c a] H.
  - destruct b; reflexivity.
  - reflexivity.
  - simpl in H. lia.
  - cbn [append take]. rewrite IH by (simpl in H; lia). reflexivity.
Qed.

Lemma take_app_ge (n : nat) (a b : string) :
  (length a <= n)%nat -> take n (a ++ b) = a ++ take (n - length a) b.
Proof.
  revert n. induction a as [|c a IH]; intros n H.
  - cbn [append length]. rewrite Nat.sub_0_r. reflexivity.
  - destruct n as [|n]; [simpl in H; lia|].
    cbn [append take length Nat.sub]. rewrite IH by (simpl in H; lia). reflexivity.
Qed.

Lemma drop_app_le (n : nat) (a b : string) :
  (n <= length a)%nat -> drop n (a ++ b) = drop n a ++ b.
Proof.
  revert a. induction n as [|n IH]; intros [|c a] H.
  - reflexivity.
  - reflexivity.
  - simpl in H. lia.
  - cbn [append drop]. apply IH. simpl in H. lia.
Qed.

Lemma drop_app_ge (n : nat) (a b : string) :
  (length a <= n)%nat -> drop n (a ++ b) = drop (n - length a) b.
Proof.
  revert n. induction a as [|c a IH]; intros n H.
  - cbn [append length]. rewrite Nat.sub_0_r. reflexivity.
  - destruct n as [|n]; [simpl in H; lia|].
    cbn [append drop length Nat.sub]. apply IH. simpl in H. lia.
Qed.

Lemma take_repeat0 (n m : nat) : (n <= m)%nat -> take n (repeat0 m) = repeat0 n.
Proof.
  revert m. induction n as [|n IH]; intros [|m] H; try reflexivity; [lia|].
  cbn [repeat0 take]. rewrite IH by lia. reflexivity.
Qed.

Lemma drop_repeat0 (n m : nat) : drop n (repeat0 m) = repeat0 (m - n).
Proof.
  revert m. induction n as [|n IH]; intros [|m]; try reflexivity.
  cbn [repeat0 drop Nat.sub]. apply IH.
Qed.

Lemma strip_zeros (m : nat) : strip_trailing_zeros (repeat0 m) = "".
Proof. exact (strip_app_zeros "" m). Qed.

Lemma all_digits_take (n : nat) (s : string) :
  all_digits s = true -> all_digits (take n s) = true /\ all_digits (drop n s) = true.
Proof.
  intros A. rewrite <- (take_drop n s), all_digits_app in A.
  apply andb_prop in A. exact A.
Qed.

Lemma digit_not_point (c : ascii) : is_digit c = true -> Ascii.eqb c "." = false.
Proof. intros H. apply digit_eqb_other; [assumption | left; apply Nat.ltb_lt; reflexivity]. Qed.

Lemma split_digits (s : string) : all_digits s = true -> split_on "." s = [s].
Proof.
  induction s as [|c s IH]; [reflexivity|].
  cbn [all_digits split_on]. intros H. apply andb_prop in H. destruct H as [D A].
  rewrite (digit_not_point c D), (IH A). reflexivity.
Qed.

Lemma split_point (a b : string) :
  all_digits a = true -> all_digits b = true ->
  split_on "." (a ++ String "." b) = [a; b].
Proof.
  intros A B. induction a as [|c a IH].
  - cbn [append split_on]. rewrite Ascii.eqb_refl, (split_digits b B). reflexivity.
  - cbn [all_digits] in A. apply andb_prop in A. destruct A as [D A].
    cbn [append split_on]. rewrite (digit_not_point c D), (IH A). reflexivity.
Qed.

Lemma trimmed_drop (n : nat) (s : string) :
  trimmed s -> (n < length s)%nat -> trimmed (drop n s) /\ drop n s <> "".
Proof.
  intros [->|[r [c [-> N]]]] H; [simpl in H; lia|].
  rewrite length_app' in H. cbn [length] in H.
  rewrite drop_app_le by lia. split.
  - right. exists (drop n r), c. split; [reflexivity | exact N].
  - destruct (drop n r); discriminate.
Qed.

(** The text before the point and the text after it, without its
    trailing zeros, of the decimal text of [C] units in the [p]-th
    decimal place. *)
Definition plain_parts (C : Z) (p : nat) : string * string :=
  let m := digits_of C in
  let m := repeat0 (S p - length m) ++ m in
  let k := length m in
  (take (k - p) m, strip_trailing_zeros (drop (k - p) m)).

Definition parts_list (parts : string * string) : list string :=
  match snd parts with
  | EmptyString => [fst parts]
  | _ => [fst parts; snd parts]
  end.

Lemma place_parts (C : Z) (p : nat) :
  1 <= C -> (p <= 6)%nat -> (length (digits_of C) <= 16)%nat ->
  split_on "." (place (strip_trailing_zeros (digits_of C))
                      (Z.of_nat (length (digits_of C)) - Z.of_nat p))
  = parts_list (plain_parts C p)
  /\ all_digits (fst (plain_parts C p)) = true.
Proof.
  intros HC Hp HL.
  destruct (digits_of_spec C ltac:(lia)) as [_ [AW LW]].
  destruct (strip_decomp (digits_of C)) as [j [EW TS]].
  pose proof (strip_digits_of C HC) as NS.
  set (W := digits_of C) in *. set (S := strip_trailing_zeros W) in *.
  assert (AS : all_digits S = true).
  { rewrite EW, all_digits_app in AW. apply andb_prop in AW. apply AW. }
  assert (LS : length W = (length S + j)%nat).
  { rewrite EW at 1. rewrite length_app'. destruct (repeat0_spec j) as [_ [L _]].
    rewrite L. reflexivity. }
  assert (KS : (1 <= length S)%nat).
  { destruct S; [congruence | simpl; lia]. }
  unfold place, plain_parts, parts_list. cbv zeta. fold W.
  destruct (Nat.le_gt_cases (length W) p) as [Small|Big].
  - (* nothing before the point *)
    destruct (Z.leb_spec (Z.of_nat (length S)) (Z.of_nat (length W) - Z.of_nat p));
      [lia|]. cbn [andb].
    destruct (Z.ltb_spec 0 (Z.of_nat (length W) - Z.of_nat p)); [lia|]. cbn [andb].
    destruct (Z.ltb_spec (-6) (Z.of_nat (length W) - Z.of_nat p)); [|lia].
    destruct (Z.leb_spec (Z.of_nat (length W) - Z.of_nat p) 0); [|lia]. cbn [andb].
    replace (Z.to_nat (- (Z.of_nat (length W) - Z.of_nat p))) with (p - length W)%nat by lia.
    replace (Datatypes.S p - length W)%nat with (Datatypes.S (p - length W)) by lia.
    rewrite length_app'. destruct (repeat0_spec (Datatypes.S (p - length W))) as [_ [L _]].
    rewrite L.
    replace (Datatypes.S (p - length W) + length W - p)%nat with 1%nat by lia.
    cbn [repeat0 append take drop fst snd].
    assert (F : strip_trailing_zeros (repeat0 (p - length W) ++ W)
                = repeat0 (p - length W) ++ S) by (apply strip_idem_app; exact NS).
    rewrite F.
    assert (AF : all_digits (repeat0 (p - length W) ++ S) = true).
    { rewrite all_digits_app, AS. destruct (repeat0_spec (p - length W)) as [Z _].
      rewrite Z. reflexivity. }
    split; [|reflexivity].
    pose proof (split_point "0" (repeat0 (p - length W) ++ S) eq_refl AF) as SP.
    cbn [append] in SP |- *. rewrite SP.
    destruct (repeat0 (p - length W) ++ S) eqn:E; [|reflexivity].
    exfalso. destruct (repeat0 (p - length W)); [|discriminate E].
    cbn [append] in E. congruence.
  - replace (Datatypes.S p - length W)%nat with 0%nat by lia.
    cbn [repeat0 append fst snd].
    set (n := (length W - p)%nat).
    replace (Z.of_nat (length W) - Z.of_nat p) with (Z.of_nat n) by (unfold n; lia).
    destruct (all_digits_take n W AW) as [AT AD].
    split; [|exact AT].
    destruct (Z.leb_spec (Z.of_nat (length S)) (Z.of_nat n)) as [Le|Gt].
    + destruct (Z.leb_spec (Z.of_nat n) 21); [|lia]. cbn [andb].
      replace (Z.to_nat (Z.of_nat n - Z.of_nat (length S))) with (n - length S)%nat by lia.
      assert (T : take n W = S ++ repeat0 (n - length S)).
      { rewrite EW at 1. rewrite take_app_ge by lia.
        rewrite take_repeat0 by (unfold n; lia). reflexivity. }
      assert (D : drop n W = repeat0 (j - (n - length S))).
      { rewrite EW at 1. rewrite drop_app_ge by lia. apply drop_repeat0. }
      rewrite D, strip_zeros, T.
      apply split_digits. rewrite <- T. exact AT.
    + cbn [andb].
      destruct (Z.ltb_spec 0 (Z.of_nat n)); [|unfold n in *; lia].
      destruct (Z.leb_spec (Z.of_nat n) 21); [|lia]. cbn [andb].
      rewrite Nat2Z.id.
      assert (T : take n W = take n S).
      { rewrite EW at 1. apply take_app_le. lia. }
      assert (D : drop n W = drop n S ++ repeat0 j).
      { rewrite EW at 1. apply drop_app_le. lia. }
      destruct (trimmed_drop n S TS ltac:(lia)) as [TD ND].
      rewrite D, strip_app_zeros, (strip_trimmed _ TD), T.
      destruct (all_digits_take n S AS) as [AT' AD'].
      rewrite (split_point (take n S) (drop n S) AT' AD').
      destruct (drop n S); [congruence | reflexivity].
Qed.

(** ** The text of a decimal amount *)

Lemma rnd_decimal_pos (C : Z) (f : nat) :
  1 <= C <= 10 ^ 15 -> (f <= 6)%nat ->
  exists q, rnd (inject_Z C * pow10Q (- Z.of_nat f)) = Fin q /\ (0 < q)%Q.
Proof.
  intros HC Hf.
  set (d := (inject_Z C * pow10Q (- Z.of_nat f))%Q) in *.
  set (Cq := inject_Z C) in *. set (U := pow2 (-53)).
  set (g := pow10Q (- Z.of_nat f)) in *.
  assert (G0 : (0 < g)%Q) by apply pow10Q_pos.
  assert (G6 : (pow10Q (-6) <= g)%Q) by (apply pow10Q_le; lia).
  assert (G1 : (g <= 1)%Q) by (apply (pow10Q_le _ 0); lia).
  assert (C1 : (1 <= Cq)%Q)
    by (unfold Cq; change 1%Q with (inject_Z 1); rewrite <- Zle_Qle; lia).
  assert (C2 : (Cq <= pow10Q 15)%Q).
  { rewrite pow10Q_Z by lia. unfold Cq. rewrite <- Zle_Qle. lia. }
  assert (U0 : (0 < U)%Q) by apply pow2_pos.
  assert (U1 := u_milli). fold U in U1.
  assert (Dg : (g <= d)%Q).
  { unfold d. assert (1 * g <= Cq * g)%Q by (apply Qmult_le_compat_r; lra). lra. }
  assert (Dhi : (d <= pow10Q 15)%Q).
  { unfold d. assert (Cq * g <= Cq * 1)%Q by (apply Qmult_le_l; lra). lra. }
  assert (S1 := pow10Q_small_steps). assert (S2 := pow10Q_large_steps).
  assert (P6 : (0 < pow10Q (-6))%Q) by apply pow10Q_pos.
  assert (N1 : (pow2 (-1022) <= pow2 (-40))%Q) by (apply pow2_le; lia).
  assert (N2 : (pow2 59 <= pow2 1023)%Q) by (apply pow2_le; lia).
  destruct (rnd_rel_pos d) as [q [R [A B]]]; [lra | lra |].
  fold U in A, B. exists q. split; [exact R|].
  assert (DU : (d * U <= d * (1 # 1000))%Q) by (apply Qmult_le_l; lra).
  lra.
Qed.

Lemma place_head (d : ascii) (r : string) (n : Z) :
  is_digit d = true ->
  exists c t, place (String d r) n = String c t /\ is_digit c = true.
Proof.
  intros D. unfold place. cbv zeta.
  destruct ((_ <=? n) && (n <=? 21)).
  - exists d. eexists. split; [reflexivity | exact D].
  - destruct (Z.ltb_spec 0 n) as [P|P]; cbn [andb].
    + destruct (n <=? 21).
      * destruct (Z.to_nat n) as [|m] eqn:E; [lia|].
        exists d. eexists. split; [reflexivity | exact D].
      * destruct ((-6 <? n) && (n <=? 0)).
        -- exists "0"%char. eexists. split; reflexivity.
        -- destruct r; exists d; eexists; (split; [reflexivity | exact D]).
    + destruct ((-6 <? n) && (n <=? 0)).
      * exists "0"%char. eexists. split; reflexivity.
      * destruct r; exists d; eexists; (split; [reflexivity | exact D]).
Qed.

Lemma strip_minus_digit (c : ascii) (t : string) :
  is_digit c = true -> strip_minus (String c t) = String c t.
Proof.
  intros D. unfold strip_minus.
  destruct c as [b0 b1 b2 b3 b4 b5 b6 b7].
  destruct b0, b1, b2, b3, b4, b5, b6, b7; try reflexivity; discriminate D.
Qed.

Lemma Qopp_twice (q : Q) : (- - q)%Q = q.
Proof. destruct q as [n d]. unfold Qopp. cbn [Qnum Qden]. rewrite Z.opp_involutive. reflexivity. Qed.

Lemma plain_parts_zero (f : nat) : plain_parts 0 f = ("0", "").
Proof.
  unfold plain_parts. change (digits_of 0) with "0". cbv zeta.
  change (length "0") with 1%nat.
  replace (S f - 1)%nat with f by lia.
  rewrite repeat0_snoc.
  destruct (repeat0_spec (S f)) as [_ [L _]]. rewrite L.
  replace (S f - f)%nat with 1%nat by lia.
  cbn [repeat0 take drop]. rewrite strip_zeros.
  destruct (repeat0 f); reflexivity.
Qed.

Lemma digits_onto_length (fuel : nat) :
  forall (n : Z) (acc : string) (k : nat),
    0 <= n < 10 ^ Z.of_nat (S k) ->
    (length (digits_onto fuel n acc) <= length acc + S k)%nat.
Proof.
  induction fuel as [|fuel IH]; intros n acc k H.
  - cbn [digits_onto]. lia.
  - rewrite digits_onto_step. destruct (Z.ltb_spec n 10) as [L|G].
    + cbn [length]. lia.
    + destruct k as [|k]; [change (10 ^ Z.of_nat 1) with 10 in H; lia|].
      assert (B : 0 <= n / 10 < 10 ^ Z.of_nat (S k)).
      { split; [apply Z.div_pos; lia|].
        apply Z.div_lt_upper_bound; [lia|].
        replace (Z.of_nat (S (S k))) with (1 + Z.of_nat (S k)) in H by lia.
        rewrite Z.pow_add_r in H by lia. change (10 ^ 1) with 10 in H. lia. }
      pose proof (IH (n / 10) (String (digit_char (n mod 10)) acc) k B) as I.
      cbn [length] in I. lia.
Qed.

(** The text of the number nearest to [a] units in the [f]-th decimal
    place, without its sign, and the sign test on that number. *)
Lemma number_text (a : Z) (f : nat) :
  - 10 ^ 15 <= a <= 10 ^ 15 -> (f <= 6)%nat ->
  split_on "." (strip_minus (number_to_string
                               (rnd (inject_Z a * pow10Q (- Z.of_nat f)))))
  = parts_list (plain_parts (Z.abs a) f)
  /\ all_digits (fst (plain_parts (Z.abs a) f)) = true
  /\ JS.ge (rnd (inject_Z a * pow10Q (- Z.of_nat f))) (JS.of_Z 0) = (0 <=? a).
Proof.
  intros Ha Hf.
  assert (Text : forall C q, 1 <= C <= 10 ^ 15 ->
            rnd (inject_Z C * pow10Q (- Z.of_nat f)) = Fin q ->
            strip_minus (to_string_pos q) = to_string_pos q
            /\ split_on "." (to_string_pos q) = parts_list (plain_parts C f)
            /\ all_digits (fst (plain_parts C f)) = true).
  { intros C q HC R. rewrite (to_string_decimal C f q HC Hf R).
    assert (L : (length (digits_of C) <= 16)%nat).
    { pose proof (digits_onto_length (S (Z.to_nat (Z.log2 C))) C "" 15) as B.
      apply B. change (10 ^ Z.of_nat 16) with 10000000000000000.
      change (10 ^ 15) with 1000000000000000 in HC. lia. }
    destruct (place_parts C f ltac:(lia) Hf L) as [P A].
    pose proof (strip_digits_of C ltac:(lia)) as NS.
    destruct (digits_of_spec C ltac:(lia)) as [_ [AW _]].
    destruct (strip_decomp (digits_of C)) as [j [EW _]].
    assert (AS : all_digits (strip_trailing_zeros (digits_of C)) = true).
    { rewrite EW, all_digits_app in AW. apply andb_prop in AW. apply AW. }
    destruct (strip_trailing_zeros (digits_of C)) as [|d r] eqn:ES; [congruence|].
    cbn [all_digits] in AS. apply andb_prop in AS. destruct AS as [Dd _].
    destruct (place_head d r (Z.of_nat (length (digits_of C)) - Z.of_nat f) Dd)
      as [c [t [E Dc]]].
    rewrite E in P |- *. rewrite strip_minus_digit by exact Dc.
    repeat split; assumption. }
  destruct (Z.lt_trichotomy a 0) as [N|[Z|P]].
  - destruct (rnd_decimal_pos (- a) f ltac:(lia) Hf) as [q [R Q0]].
    assert (E : rnd (inject_Z a * pow10Q (- Z.of_nat f)) = Fin (- q)).
    { rewrite (rnd_comp _ (- (inject_Z (- a) * pow10Q (- Z.of_nat f))))
        by (rewrite inject_Z_opp; ring).
      rewrite rnd_opp, R. reflexivity. }
    rewrite E. cbn [number_to_string].
    destruct (Qcompare_spec (- q) 0) as [C|C|C]; try lra.
    change ("-" ++ to_string_pos (- - q)) with (String "-" (to_string_pos (- - q))).
    cbn [strip_minus]. rewrite Qopp_twice.
    rewrite Z.abs_neq by lia.
    destruct (Text (- a) q ltac:(lia) R) as [_ [T A]].
    split; [exact T|]. split; [exact A|].
    destruct (Z.leb_spec 0 a); [lia|].
    unfold JS.ge, JS.of_Z. apply Qle_bool_false. change (inject_Z 0) with 0%Q. lra.
  - subst a. cbn [Z.abs].
    rewrite (rnd_comp _ 0) by ring. change (rnd 0) with (Fin 0).
    rewrite plain_parts_zero. split; [|split]; reflexivity.
  - destruct (rnd_decimal_pos a f ltac:(lia) Hf) as [q [R Q0]].
    rewrite R. cbn [number_to_string].
    destruct (Qcompare_spec q 0) as [C|C|C]; try lra.
    rewrite Z.abs_eq by lia.
    destruct (Text a q ltac:(lia) R) as [M [T A]].
    rewrite M. split; [exact T|]. split; [exact A|].
    destruct (Z.leb_spec 0 a); [|lia].
    unfold JS.ge, JS.of_Z. apply Qle_bool_iff. change (inject_Z 0) with 0%Q. lra.
Qed.

End NumberText.

(** * Whole amounts *)

Import DecimalText GroupingFacts CleanFacts.

Local Open Scope string_scope.
Local Open Scope Z_scope.

(** ** The settings an instance carries through the operations *)

(** The settings the constructor builds when it is given the settings [st]
    of an instance as its options, as every operation does. *)
Definition rebuilt (st : Settings) : Settings :=
  {| symbol := symbol st;
     separator := separator st;
     decimal := decimal st;
     errorOnInvalid := errorOnInvalid st;
     precision := precision st;
     increment := if JS.truthy (increment st) then increment st
                  else JS.div one (pow (precision st));
     useVedic := useVedic st;
     pattern := pattern st;
     negativePattern := negativePattern st;
     format_fn := format_fn st;
     fromCents := fromCents st;
     groups := if useVedic st then vedicRegex else groupRegex |}.

Lemma currency_rebuilt input (st : Settings) c :
  currency input (as_options st) = Ok c ->
  _settings c = rebuilt st /\ _precision c = pow (precision st).
Proof.
  unfold currency. cbn [assign as_options defaults over get o_precision o_fromCents
    o_errorOnInvalid o_decimal o_symbol o_separator o_increment o_useVedic o_pattern
    o_negativePattern o_format o_groups].
  destruct (parse _ _ _) as [v|e]; cbn [bind]; [|discriminate].
  intros E. injection E as <-. cbn [_settings _precision]. split; reflexivity.
Qed.

Lemma rebuilt_built input opts c :
  currency input opts = Ok c ->
  rebuilt (_settings c) = _settings c
  /\ _precision c = pow (precision (_settings c)).
Proof.
  unfold currency. cbv zeta.
  remember (JS.div one _) as d eqn:Ed.
  remember (o_increment _) as oi eqn:Eo.
  remember (match oi with
            | Some i => if JS.truthy i then i else d
            | None => d
            end) as inc eqn:Ei.
  assert (A : (if JS.truthy inc then inc else d) = inc).
  { rewrite Ei. destruct oi as [i|].
    - destruct (JS.truthy i) eqn:T.
      + rewrite T. reflexivity.
      + destruct (JS.truthy d); reflexivity.
    - destruct (JS.truthy d); reflexivity. }
  destruct (parse _ _ _) as [v|e]; cbn [bind]; [|discriminate].
  intros E. injection E as <-. cbn [_settings _precision precision]. split; [|reflexivity].
  unfold rebuilt. cbn [symbol separator decimal errorOnInvalid precision increment
    useVedic pattern negativePattern format_fn fromCents groups].
  rewrite Ed in A. f_equal. exact A.
Qed.

(** An operation is one of the four arithmetic methods applied to an
    argument. *)
Inductive Operation : Type :=
| Add (n : Any)
| Subtract (n : Any)
| Multiply (n : Any)
| Divide (n : Any).

Definition apply (this : Currency) (op : Operation) : result Currency :=
  match op with
  | Add n => add this n
  | Subtract n => subtract this n
  | Multiply n => multiply this n
  | Divide n => divide this n
  end.

Lemma apply_rebuilt this op c :
  apply this op = Ok c ->
  _settings c = rebuilt (_settings this)
  /\ _precision c = pow (precision (_settings this)).
Proof.
  destruct op as [n|n|n|n]; cbn [apply]; unfold add, subtract, multiply, divide.
  - destruct (parse n _ true) as [v|e]; cbn [bind]; [|discriminate].
    apply currency_rebuilt.
  - destruct (parse n _ true) as [v|e]; cbn [bind]; [|discriminate].
    apply currency_rebuilt.
  - destruct (any_to_number n) as [v|e]; cbn [bind]; [|discriminate].
    apply currency_rebuilt.
  - destruct (parse n _ false) as [v|e]; cbn [bind]; [|discriminate].
    apply currency_rebuilt.
Qed.

(** Every instance an arithmetic method returns carries the settings and
    the scale of the instance it was called on, whatever the argument. *)
Theorem settings_carried (input : Any) (opts : Options) (this c : Currency)
    (op : Operation) :
  currency input opts = Ok this ->
  apply this op = Ok c ->
  _settings c = _settings this /\ _precision c = _precision this.
Proof.
  intros B E. destruct (rebuilt_built _ _ _ B) as [R P].
  destruct (apply_rebuilt _ _ _ E) as [S' P'].
  rewrite S', P', R, P. split; reflexivity.
Qed.

Lemma settings_carried_witness :
  exists c,
    apply hundred_dollars (Multiply (ANumber (JS.of_Z 3))) = Ok c
    /\ _settings c = _settings hundred_dollars
    /\ _precision c = _precision hundred_dollars.
Proof.
  destruct (apply hundred_dollars (Multiply (ANumber (JS.of_Z 3)))) as [c|e] eqn:E;
    [|vm_compute in E; discriminate E].
  exists c. split; [reflexivity|].
  apply (settings_carried (ANumber (JS.of_Z 100)) no_options hundred_dollars c
           (Multiply (ANumber (JS.of_Z 3)))).
  - vm_compute. reflexivity.
  - exact E.
Defined.

(** ** Exact arithmetic on whole amounts *)

(** The minor-units switch of the settings the constructor builds from
    [opts]. *)
Definition merged_fromCents (opts : Options) : bool :=
  get false (o_fromCents (assign defaults opts)).


(** The instance [c] holds the whole amount of [a] minor units, as the
    constructor leaves it. *)
Definition amount (c : Currency) (a : Z) : Prop :=
  intValue c = JS.of_Z a
  /\ value c = JS.div (JS.of_Z a) (pow (precision (_settings c)))
  /\ _precision c = pow (precision (_settings c)).

Lemma currency_amount (st : Settings) (k : Z) :
  (precision st <= 22)%nat -> small k ->
  exists c,
    currency (ANumber (JS.div (JS.of_Z k) (scale st (pow (precision st)))))
             (as_options st) = Ok c
    /\ amount c k /\ _settings c = rebuilt st.
Proof.
  intros Hd Hk.
  assert (E : exists c,
             currency (ANumber (JS.div (JS.of_Z k) (scale st (pow (precision st)))))
                      (as_options st) = Ok c
             /\ intValue c = JS.of_Z k
             /\ value c = JS.div (JS.of_Z k) (pow (precision st))).
  { unfold currency. cbn [assign as_options defaults over get o_precision o_fromCents
      o_errorOnInvalid o_decimal o_symbol o_separator o_increment o_useVedic o_pattern
      o_negativePattern o_format o_groups].
    set (st' := Build_Settings _ _ _ _ _ _ _ _ _ _ _ _).
    assert (P : parse (ANumber (JS.div (JS.of_Z k) (scale st (pow (precision st))))) st' true
                = Ok (VNumber (JS.of_Z k))).
    { change (scale st (pow (precision st))) with (scale st' (pow (precision st'))).
      apply parse_scaled; assumption. }
    rewrite P. cbn [bind to_number]. eexists. repeat split. }
  destruct E as [c [E [I V]]]. exists c.
  destruct (currency_rebuilt _ _ _ E) as [R P].
  split; [exact E|]. split; [|exact R].
  unfold amount. rewrite R. cbn [precision rebuilt]. auto.
Qed.

(** [parse] reads an instance of the same precision as the whole amount it
    holds. *)
Lemma parse_amount (other : Currency) (st : Settings) (b : Z) :
  amount other b ->
  precision (_settings other) = precision st ->
  (precision st <= 22)%nat -> small b ->
  parse (ACurrency other) st true = Ok (VNumber (JS.of_Z b)).
Proof.
  intros [I [V _]] Hp Hd Hb. unfold parse.
  destruct (fromCents st) eqn:FC.
  - rewrite I. reflexivity.
  - cbn [bind to_number]. rewrite V, Hp. rewrite pow_exact by assumption.
    destruct (scaled_back b (10 ^ Z.of_nat (precision st)) Hb (pow10_range _ Hd))
      as [t [T R]].
    rewrite T. cbn [bind]. unfold round. cbn [to_number]. rewrite R. reflexivity.
Qed.

(** The argument [n] of an operation stands for the whole amount [b]
    under the settings [st]: it is the binary64 number nearest to [b]
    divided by the scale ([b] itself when amounts are given in minor
    units), an instance of [b] minor units of the same precision, or the
    decimal text of [b] when the point is the decimal mark and amounts are
    not given in minor units. *)
Inductive reads (st : Settings) : Any -> Z -> Prop :=
| reads_number (b : Z) :
    reads st (ANumber (JS.div (JS.of_Z b) (scale st (pow (precision st))))) b
| reads_instance (other : Currency) (b : Z) :
    amount other b -> precision (_settings other) = precision st ->
    reads st (ACurrency other) b
| reads_text (b : Z) :
    decimal st = "."%char -> fromCents st = false ->
    reads st (AString (decimal_text b (precision st))) b.

Lemma parse_whole_amount (st : Settings) (n : Any) (b : Z) :
  reads st n b -> (precision st <= 22)%nat -> small b ->
  parse n st true = Ok (VNumber (JS.of_Z b)).
Proof.
  intros [k|other k Ho Hp|k Em Ef] Hd Hb.
  - apply parse_scaled; assumption.
  - apply parse_amount; assumption.
  - apply parse_decimal_text; assumption.
Qed.

(** Adding and subtracting whole amounts is exact: for an instance of [a]
    minor units and an argument that stands for [b] minor units in the
    sense of [reads] (a number, which is [b] over the scale and [b] itself
    when amounts are given in minor units; an instance of the same
    precision; or a decimal text, when the point is the decimal mark and
    amounts are not given in minor units), with a precision of at most 22
    and [a], [b] and the result within 10^15 in magnitude, [add] returns
    the instance of [a + b] and [subtract] that of [a - b], with the
    settings the constructor rebuilds from those of the receiver. *)
Theorem add_subtract_exact (this : Currency) (n : Any) (a b : Z) :
  amount this a -> reads (_settings this) n b ->
  (precision (_settings this) <= 22)%nat ->
  small a -> small b ->
  (small (a + b) ->
   exists c, add this n = Ok c
             /\ amount c (a + b) /\ _settings c = rebuilt (_settings this))
  /\ (small (a - b) ->
      exists c, subtract this n = Ok c
                /\ amount c (a - b) /\ _settings c = rebuilt (_settings this)).
Proof.
  intros [I [V P]] Hn Hd Ha Hb.
  pose proof (parse_whole_amount (_settings this) n b Hn Hd Hb) as PA.
  split; intros Hs.
  - unfold add. rewrite PA. cbn [bind to_number]. rewrite I, P.
    rewrite add_int by (apply small_53; assumption).
    apply currency_amount; assumption.
  - unfold subtract. rewrite PA. cbn [bind to_number]. rewrite I, P.
    rewrite sub_int by (apply small_53; assumption).
    apply currency_amount; assumption.
Qed.

Lemma small_compute k :
  (- 1000000000000000 <=? k) && (k <=? 1000000000000000) = true -> small k.
Proof.
  intros H. apply andb_true_iff in H. destruct H as [A B].
  apply Z.leb_le in A. apply Z.leb_le in B.
  unfold small. change (10 ^ 15) with 1000000000000000. lia.
Qed.

Lemma amount_hundred : amount hundred_dollars 10000.
Proof. unfold amount. repeat split; vm_compute; reflexivity. Qed.

Lemma add_subtract_exact_witness :
  (exists c, add hundred_dollars (AString "0.10") = Ok c
             /\ amount c 10010
             /\ _settings c = rebuilt (_settings hundred_dollars))
  /\ (exists c, subtract hundred_dollars (AString "0.10") = Ok c
                /\ amount c 9990
                /\ _settings c = rebuilt (_settings hundred_dollars)).
Proof.
  destruct (add_subtract_exact hundred_dollars (AString "0.10") 10000 10)
    as [A B].
  - exact amount_hundred.
  - apply (reads_text (_settings hundred_dollars) 10); reflexivity.
  - vm_compute. lia.
  - apply small_compute. reflexivity.
  - apply small_compute. reflexivity.
  - split; [apply A | apply B]; apply small_compute; reflexivity.
Defined.

Local Open Scope string_scope.
Local Open Scope Z_scope.

(** [toFixed(4)] of a whole number reads back as that number. *)
Lemma fixed_whole (z : Z) :
  - 2 ^ 53 < z < 2 ^ 53 ->
  exists t, to_fixed (JS.of_Z z) 4 = Ok t /\ string_to_number t = JS.of_Z z.
Proof.
  intros Hz.
  assert (B : (Qabs (inject_Z z) < inject_Z (10 ^ 21))%Q).
  { apply Qabs_case; intros _.
    - rewrite <- Zlt_Qlt. change (2 ^ 53) with 9007199254740992 in Hz.
      change (10 ^ 21) with 1000000000000000000000. lia.
    - rewrite <- inject_Z_opp, <- Zlt_Qlt. change (2 ^ 53) with 9007199254740992 in Hz.
      change (10 ^ 21) with 1000000000000000000000. lia. }
  destruct (to_fixed_read (inject_Z z) 4 ltac:(lia) B) as [t [T R]].
  exists t. split; [exact T|]. rewrite R. clear R T.
  assert (A : (Qabs (inject_Z z) == inject_Z (Z.abs z))%Q).
  { apply Qabs_case; intros H.
    - change 0%Q with (inject_Z 0) in H.
      rewrite <- (Zle_Qle 0 z) in H. rewrite Z.abs_eq by assumption. reflexivity.
    - change 0%Q with (inject_Z 0) in H.
      rewrite <- (Zle_Qle z 0) in H. rewrite Z.abs_neq by assumption.
      rewrite inject_Z_opp. reflexivity. }
  assert (F : Qfloor (Qabs (inject_Z z) * inject_Z (10 ^ Z.of_nat 4) + (1 # 2))
              = Z.abs z * 10000).
  { apply floor_unique.
    - rewrite A, inject_Z_mult. change (inject_Z (10 ^ Z.of_nat 4)) with (inject_Z 10000).
      lra.
    - rewrite A, inject_Z_mult. change (inject_Z (10 ^ Z.of_nat 4)) with (inject_Z 10000).
      lra. }
  cbv zeta. rewrite F.
  assert (E : (inject_Z (Z.abs z * 10000) * pow10Q (- Z.of_nat 4) == inject_Z (Z.abs z))%Q).
  { rewrite pow10Q_neg4, inject_Z_mult. change (inject_Z 10000) with (10000 # 1)%Q. field. }
  destruct (JS.is_neg (JS.Fin (inject_Z z))) eqn:N.
  - apply is_neg_Fin in N. change 0%Q with (inject_Z 0) in N.
    rewrite <- (Zlt_Qlt z 0) in N.
    apply rnd_int; [exact Hz|]. rewrite E, Z.abs_neq by lia.
    rewrite inject_Z_opp. ring.
  - assert (0 <= z).
    { destruct (Z.lt_ge_cases z 0) as [L|G]; [|exact G].
      assert (N' : JS.is_neg (JS.Fin (inject_Z z)) = true)
        by (apply is_neg_Fin; change 0%Q with (inject_Z 0);
            rewrite <- (Zlt_Qlt z 0); exact L).
      congruence. }
    apply rnd_int; [exact Hz|]. rewrite E, Z.abs_eq by lia. reflexivity.
Qed.

(** Multiplying by a whole number is exact: an instance of [a] minor units
    multiplied by the number [k] is the instance of [a * k], as long as the
    product stays within 10^15 in magnitude. *)
Theorem multiply_exact (this : Currency) (a k : Z) :
  amount this a ->
  (precision (_settings this) <= 22)%nat ->
  small (a * k) ->
  exists c, multiply this (ANumber (JS.of_Z k)) = Ok c
            /\ amount c (a * k) /\ _settings c = rebuilt (_settings this).
Proof.
  intros [I [V P]] Hd Hs. unfold multiply. cbn [any_to_number bind].
  rewrite I. rewrite mul_int by (apply small_53; assumption).
  apply currency_amount; assumption.
Qed.

Lemma multiply_exact_witness :
  exists c, multiply hundred_dollars (ANumber (JS.of_Z 3)) = Ok c
            /\ amount c 30000
            /\ _settings c = rebuilt (_settings hundred_dollars).
Proof.
  apply (multiply_exact hundred_dollars 10000 3).
  - exact amount_hundred.
  - vm_compute. lia.
  - apply small_compute. reflexivity.
Defined.

Lemma div_cancel (b k P : Z) :
  k <> 0 -> P <> 0 ->
  JS.div (JS.of_Z (b * k)) (JS.of_Z (k * P)) = JS.div (JS.of_Z b) (JS.of_Z P).
Proof.
  intros Hk HP. rewrite !div_of_Z by nia.
  apply rnd_comp. rewrite !inject_Z_mult. field.
  split; intro E.
  - change 0%Q with (inject_Z 0) in E. rewrite inject_Z_injective in E. lia.
  - change 0%Q with (inject_Z 0) in E. rewrite inject_Z_injective in E. lia.
Qed.

(** Dividing by a whole number that divides the amount is exact: an
    instance of [b * k] minor units divided by the number [k], which is not
    0, is the instance of [b]. *)
Theorem divide_exact (this : Currency) (b k : Z) :
  amount this (b * k) ->
  (precision (_settings this) <= 22)%nat ->
  k <> 0 -> small b -> small (b * k) ->
  - 2 ^ 53 < k * 10 ^ Z.of_nat (precision (_settings this)) < 2 ^ 53 ->
  exists c, divide this (ANumber (JS.of_Z k)) = Ok c
            /\ amount c b /\ _settings c = rebuilt (_settings this).
Proof.
  intros [I [V P]] Hd Hk Hb Hs Hr. unfold divide, parse.
  pose proof (pow10_range _ Hd) as R.
  set (p := precision (_settings this)) in *.
  set (st := _settings this) in *.
  destruct (fromCents st) eqn:FC.
  - cbn [bind to_number]. rewrite I.
    replace (JS.div (JS.of_Z (b * k)) (JS.of_Z k)) with (JS.of_Z b).
    + rewrite <- (div_one b) by (apply small_53; assumption).
      replace one with (scale st (pow (precision st)))
        by (unfold scale; rewrite FC; reflexivity).
      apply currency_amount; assumption.
    + rewrite div_of_Z by assumption. symmetry. apply rnd_int.
      * apply small_53. assumption.
      * rewrite inject_Z_mult. field. intro E.
        change 0%Q with (inject_Z 0) in E. rewrite inject_Z_injective in E. lia.
  - cbn [bind to_number]. fold p. rewrite pow_exact by assumption.
    rewrite mul_int by assumption.
    destruct (fixed_whole _ Hr) as [t [T S]].
    rewrite T. cbn [bind to_number]. rewrite S, I.
    rewrite div_cancel by lia.
    rewrite <- (pow_exact p) by assumption.
    replace (pow p) with (scale st (pow (precision st)))
      by (unfold scale; rewrite FC; reflexivity).
    apply currency_amount; assumption.
Qed.

Lemma divide_exact_witness :
  exists c, divide hundred_dollars (ANumber (JS.of_Z 4)) = Ok c
            /\ amount c 2500
            /\ _settings c = rebuilt (_settings hundred_dollars).
Proof.
  apply (divide_exact hundred_dollars 2500 4).
  - exact amount_hundred.
  - vm_compute. lia.
  - discriminate.
  - apply small_compute. reflexivity.
  - apply small_compute. reflexivity.
  - vm_compute. split; reflexivity.
Defined.

(** The constructor applied to an instance of [b] minor units, within
    10^15 in magnitude and with a precision of at most 22, under options
    of the same precision, returns an instance of [b] minor units. *)
Theorem constructor_keeps_amount (other : Currency) (opts : Options) (b : Z) :
  amount other b ->
  merged_precision opts = precision (_settings other) ->
  (precision (_settings other) <= 22)%nat -> small b ->
  exists c, currency (ACurrency other) opts = Ok c /\ amount c b.
Proof.
  intros Ho Hp Hd Hb. unfold currency, merged_precision in *.
  set (st := Build_Settings _ _ _ _ _ _ _ _ _ _ _ _).
  assert (P : parse (ACurrency other) st true = Ok (VNumber (JS.of_Z b))).
  { apply parse_amount; try assumption.
    - symmetry. exact Hp.
    - change (precision st) with (get 0%nat (o_precision (assign defaults opts))).
      rewrite Hp. exact Hd. }
  rewrite P. cbn [bind to_number]. eexists. split; [reflexivity|].
  unfold amount. cbn [intValue value _settings _precision precision]. auto.
Qed.

Lemma constructor_keeps_amount_witness :
  exists c, currency (ACurrency hundred_dollars) no_options = Ok c
            /\ amount c 10000.
Proof.
  apply (constructor_keeps_amount hundred_dollars no_options 10000).
  - exact amount_hundred.
  - reflexivity.
  - vm_compute. lia.
  - apply small_compute. reflexivity.
Defined.

Local Open Scope string_scope.
Local Open Scope Z_scope.

(** ** Whole amounts from numbers *)

(** The constructor applied to the binary64 number nearest to [k / 10^p],
    where [p] is the precision of the options (at most 22), holds exactly
    [k] minor units, for [k] within 10^15 in magnitude; with amounts given
    in minor units, it holds [k] when applied to [k] itself. *)
Theorem whole_amount_constructed (opts : Options) (k : Z) :
  (merged_precision opts <= 22)%nat -> small k ->
  exists c,
    currency
      (ANumber (JS.div (JS.of_Z k)
                       (if merged_fromCents opts then one
                        else pow (merged_precision opts))))
      opts = Ok c
    /\ amount c k.
Proof.
  intros Hp Hk. unfold currency, merged_precision, merged_fromCents in *.
  set (st := Build_Settings _ _ _ _ _ _ _ _ _ _ _ _).
  match goal with
  | |- context [parse ?i st true] =>
      assert (P : parse i st true = Ok (VNumber (JS.of_Z k)))
        by (apply (parse_scaled st k); assumption)
  end.
  rewrite P. cbn [bind to_number]. eexists. split; [reflexivity|].
  unfold amount. cbn [intValue value _settings _precision precision]. auto.
Qed.

Lemma whole_amount_constructed_witness :
  exists c, currency (ANumber (literal 115 100)) no_options = Ok c
            /\ amount c 115.
Proof.
  apply (whole_amount_constructed no_options 115).
  - vm_compute. lia.
  - apply small_compute. reflexivity.
Defined.

(** The number [toJSON] returns for an instance of [a] minor units,
    within 10^15 in magnitude and with a precision of at most 22, is read
    back by the constructor, under options of the same precision and
    amounts not given in minor units, as an instance of [a] minor units. *)
Theorem json_round_trip (this : Currency) (opts : Options) (a : Z) :
  amount this a ->
  (precision (_settings this) <= 22)%nat -> small a ->
  merged_precision opts = precision (_settings this) ->
  merged_fromCents opts = false ->
  exists c, currency (ANumber (toJSON this)) opts = Ok c /\ amount c a.
Proof.
  intros [I [V P]] Hp Ha Ep Ef. unfold toJSON. rewrite V, <- Ep.
  rewrite <- Ep in Hp.
  unfold currency, merged_precision, merged_fromCents in *.
  set (st := Build_Settings _ _ _ _ _ _ _ _ _ _ _ _).
  match goal with
  | |- context [parse ?i st true] =>
      assert (R : parse i st true = Ok (VNumber (JS.of_Z a)))
  end.
  { pose proof (parse_scaled st a Hp Ha) as R. unfold scale in R.
    cbn [fromCents precision st] in R. rewrite Ef in R. exact R. }
  rewrite R. cbn [bind to_number]. eexists. split; [reflexivity|].
  unfold amount. cbn [intValue value _settings _precision precision]. auto.
Qed.

Lemma json_round_trip_witness :
  exists c, currency (ANumber (toJSON hundred_dollars)) no_options = Ok c
            /\ amount c 10000.
Proof.
  apply (json_round_trip hundred_dollars no_options 10000).
  - exact amount_hundred.
  - vm_compute. lia.
  - apply small_compute. reflexivity.
  - reflexivity.
  - reflexivity.
Defined.

(** ** The number of shares *)

Lemma distribute_loop_count (c : nat) :
  forall (fuel : nat) this split precision pennies acc,
    (c < fuel)%nat -> Z.of_nat c < 2 ^ 53 ->
    exists items,
      distribute_loop fuel this split precision (JS.of_Z (Z.of_nat c)) pennies acc
      = Some (Ok (acc ++ items)%list)
      /\ List.length items = c.
Proof.
  induction c as [|c IH]; intros fuel this split precision pennies acc Hf Hc.
  - destruct fuel as [|fuel]; [lia|]. exists []. cbn [distribute_loop].
    change (JS.strict_ne (JS.of_Z (Z.of_nat 0)) zero) with false. cbv iota.
    rewrite app_nil_r. split; reflexivity.
  - destruct fuel as [|fuel]; [lia|]. cbn [distribute_loop].
    unfold zero at 1. rewrite strict_ne_int.
    destruct (Z.eqb_spec (Z.of_nat (S c)) 0) as [E|_]; [lia|]. cbn [negb].
    destruct (currency_number_ok (JS.div split precision) (as_options (_settings this)))
      as [item C].
    rewrite C. cbn [bind].
    assert (S' : exists item',
      (if JS.gt pennies zero
       then if JS.ge (intValue this) zero
            then add item (ANumber (JS.div one precision))
            else subtract item (ANumber (JS.div one precision))
       else Ok item) = Ok item').
    { destruct (JS.gt pennies zero); [|eauto].
      destruct (JS.ge (intValue this) zero);
        [apply add_number_ok | apply subtract_number_ok]. }
    destruct S' as [item' S']. rewrite S'.
    unfold one at 1. rewrite sub_int by lia.
    replace (Z.of_nat (S c) - 1) with (Z.of_nat c) by lia.
    destruct (IH fuel this split precision (JS.sub pennies one) (acc ++ [item'])%list
                ltac:(lia) ltac:(lia)) as [items [L N]].
    exists (item' :: items). rewrite L. rewrite <- app_assoc. cbn [app List.length].
    split; [reflexivity | lia].
Qed.

(** For every instance, whatever it holds, [distribute(n)] with a count
    [n] that is a natural number below 2^53 returns exactly [n] instances
    and raises no error; with a count that is not a number, or that is
    infinite, it does not return. *)
Theorem distribute_returns_count (this : Currency) :
  (forall (n fuel : nat),
      (n < fuel)%nat -> Z.of_nat n < 2 ^ 53 ->
      exists shares,
        distribute fuel this (JS.of_Z (Z.of_nat n)) = Some (Ok shares)
        /\ List.length shares = n)
  /\ (forall fuel, distribute fuel this JS.NaN = None)
  /\ (forall fuel, distribute fuel this JS.PosInf = None).
Proof.
  split; [|split].
  - intros n fuel Hf Hn. unfold distribute.
    destruct (distribute_loop_count n fuel this
                (if JS.ge (intValue this) zero
                 then JS.floor (JS.div (intValue this) (JS.of_Z (Z.of_nat n)))
                 else JS.ceil (JS.div (intValue this) (JS.of_Z (Z.of_nat n))))
                (scale (_settings this) (_precision this))
                (JS.abs (JS.sub (intValue this)
                   (JS.mul (if JS.ge (intValue this) zero
                            then JS.floor (JS.div (intValue this) (JS.of_Z (Z.of_nat n)))
                            else JS.ceil (JS.div (intValue this) (JS.of_Z (Z.of_nat n))))
                           (JS.of_Z (Z.of_nat n)))))
                [] Hf Hn) as [items [L N]].
    exists items. split; [exact L | exact N].
  - intros fuel. unfold distribute.
    generalize (JS.abs (JS.sub (intValue this)
      (JS.mul (if JS.ge (intValue this) zero
               then JS.floor (JS.div (intValue this) JS.NaN)
               else JS.ceil (JS.div (intValue this) JS.NaN)) JS.NaN))).
    generalize (if JS.ge (intValue this) zero
                then JS.floor (JS.div (intValue this) JS.NaN)
                else JS.ceil (JS.div (intValue this) JS.NaN)).
    generalize (@nil Currency).
    induction fuel as [|fuel IH]; intros acc split pennies; [reflexivity|].
    cbn [distribute_loop]. change (JS.strict_ne JS.NaN zero) with true. cbv iota.
    destruct (currency_number_ok (JS.div split (scale (_settings this) (_precision this)))
                (as_options (_settings this))) as [item C].
    rewrite C. cbn [bind].
    assert (S' : exists item',
      (if JS.gt pennies zero
       then if JS.ge (intValue this) zero
            then add item (ANumber (JS.div one (scale (_settings this) (_precision this))))
            else subtract item (ANumber (JS.div one (scale (_settings this) (_precision this))))
       else Ok item) = Ok item').
    { destruct (JS.gt pennies zero); [|eauto].
      destruct (JS.ge (intValue this) zero);
        [apply add_number_ok | apply subtract_number_ok]. }
    destruct S' as [item' S']. rewrite S'.
    change (JS.sub JS.NaN one) with JS.NaN. apply IH.
  - intros fuel. unfold distribute.
    generalize (JS.abs (JS.sub (intValue this)
      (JS.mul (if JS.ge (intValue this) zero
               then JS.floor (JS.div (intValue this) JS.PosInf)
               else JS.ceil (JS.div (intValue this) JS.PosInf)) JS.PosInf))).
    generalize (if JS.ge (intValue this) zero
                then JS.floor (JS.div (intValue this) JS.PosInf)
                else JS.ceil (JS.div (intValue this) JS.PosInf)).
    generalize (@nil Currency).
    induction fuel as [|fuel IH]; intros acc split pennies; [reflexivity|].
    cbn [distribute_loop]. change (JS.strict_ne JS.PosInf zero) with true. cbv iota.
    destruct (currency_number_ok (JS.div split (scale (_settings this) (_precision this)))
                (as_options (_settings this))) as [item C].
    rewrite C. cbn [bind].
    assert (S' : exists item',
      (if JS.gt pennies zero
       then if JS.ge (intValue this) zero
            then add item (ANumber (JS.div one (scale (_settings this) (_precision this))))
            else subtract item (ANumber (JS.div one (scale (_settings this) (_precision this))))
       else Ok item) = Ok item').
    { destruct (JS.gt pennies zero); [|eauto].
      destruct (JS.ge (intValue this) zero);
        [apply add_number_ok | apply subtract_number_ok]. }
    destruct S' as [item' S']. rewrite S'.
    change (JS.sub JS.PosInf one) with JS.PosInf. apply IH.
Qed.

Local Open Scope string_scope.
Local Open Scope Z_scope.
Local Open Scope Q_scope.

(** ** Printing a whole amount *)

(** The numbers [toString] goes through for a whole amount [a > 0] at the
    scale [P], with an increment of [k] minor units: the quotient [a / P],
    the increment [k / P], their quotient, which rounds to the multiple
    [M] of the increment nearest to the amount when the amount is not
    halfway between two multiples, and the product of [M] and the
    increment, which is within a quarter of a unit of [M * k / P] in the
    last decimal place. *)
Lemma increment_chain (a k M P : Z) :
  (1 <= a <= 10 ^ 15)%Z -> (1 <= k <= 10 ^ 15)%Z -> (1 <= P <= 10 ^ 22)%Z ->
  (2 * k * M + 1 <= 2 * a + k)%Z -> (2 * a + 1 <= 2 * k * M + k)%Z ->
  (M * k <= 10 ^ 15)%Z ->
  exists r1 ri r3,
    JS.rnd (inject_Z a / inject_Z P) = JS.Fin r1
    /\ JS.rnd (inject_Z k / inject_Z P) = JS.Fin ri
    /\ 0 < ri
    /\ JS.rnd (r1 / ri) = JS.Fin r3
    /\ inject_Z M - (1 # 2) < r3 /\ r3 < inject_Z M + (1 # 2)
    /\ (0 <= M)%Z
    /\ ((1 <= M)%Z ->
        exists r4,
          JS.rnd (inject_Z M * ri) = JS.Fin r4
          /\ 0 < r4 /\ r4 < inject_Z (10 ^ 21)
          /\ Qfloor (r4 * inject_Z P + (1 # 2)) = (M * k)%Z).
Proof.
  intros Ha Hk HP Hn1 Hn2 HN.
  assert (M0 : (0 <= M)%Z) by nia.
  set (A := inject_Z a). set (K := inject_Z k). set (Pq := inject_Z P).
  set (Mq := inject_Z M). set (U := JS.pow2 (-53)).
  assert (A1 : 1 <= A) by (unfold A; change 1 with (inject_Z 1); rewrite <- Zle_Qle; lia).
  assert (A2 : A <= inject_Z (10 ^ 15)) by (unfold A; rewrite <- Zle_Qle; lia).
  assert (K1 : 1 <= K) by (unfold K; change 1 with (inject_Z 1); rewrite <- Zle_Qle; lia).
  assert (K2 : K <= inject_Z (10 ^ 15)) by (unfold K; rewrite <- Zle_Qle; lia).
  assert (P1 : 1 <= Pq) by (unfold Pq; change 1 with (inject_Z 1); rewrite <- Zle_Qle; lia).
  assert (P2 : Pq <= inject_Z (10 ^ 22)) by (unfold Pq; rewrite <- Zle_Qle; lia).
  assert (Mq0 : 0 <= Mq) by (unfold Mq; change 0 with (inject_Z 0); rewrite <- Zle_Qle; lia).
  assert (N1 : 2 * K * Mq + 1 <= 2 * A + K).
  { rewrite Zle_Qle in Hn1.
    repeat (rewrite inject_Z_plus in Hn1 || rewrite inject_Z_mult in Hn1).
    exact Hn1. }
  assert (N2 : 2 * A + 1 <= 2 * K * Mq + K).
  { rewrite Zle_Qle in Hn2.
    repeat (rewrite inject_Z_plus in Hn2 || rewrite inject_Z_mult in Hn2).
    exact Hn2. }
  assert (N3 : Mq * K <= inject_Z (10 ^ 15)).
  { unfold Mq, K. rewrite <- inject_Z_mult, <- Zle_Qle. exact HN. }
  assert (U0 : 0 < U) by apply pow2_pos.
  assert (U1 := u_milli). fold U in U1.
  assert (UB := u_bound). fold U in UB.
  assert (D : A * U <= 112 # 1000).
  { assert (A * U <= inject_Z (10 ^ 15) * U) by (apply Qmult_le_compat_r; lra). lra. }
  assert (D0 : 0 <= A * U) by (apply Qmult_le_0_compat; lra).
  assert (TN := tiny_normal). assert (HN' := huge_normal).
  assert (QN := half_normal). assert (BN := big_normal).
  change (inject_Z (10 ^ 15)) with (1000000000000000 # 1) in *.
  change (inject_Z (10 ^ 16)) with (10000000000000000 # 1) in *.
  change (inject_Z (10 ^ 21)) with (1000000000000000000000 # 1) in *.
  change (inject_Z (10 ^ 22)) with (10000000000000000000000 # 1) in *.
  (* the increment *)
  set (qi := K / Pq).
  assert (Ei : qi * Pq == K) by (unfold qi; field; lra).
  assert (Qilo : 1 # 10000000000000000000000 <= qi).
  { unfold qi. apply Qle_shift_div_l; lra. }
  assert (Qihi : qi <= K).
  { unfold qi. apply Qle_shift_div_r; [lra|].
    assert (K * 1 <= K * Pq) by (apply Qmult_le_l; lra). lra. }
  assert (QiU : qi * U <= qi * (1 # 1000)) by (apply Qmult_le_l; lra).
  assert (QiU0 : 0 <= qi * U) by (apply Qmult_le_0_compat; lra).
  destruct (rnd_rel_pos qi) as [ri [Ri [Ai Bi]]]; [lra | lra |]. fold U in Ai, Bi.
  assert (Hri : 0 < ri) by lra.
  (* the amount against the increment *)
  set (t := A / K).
  assert (Et : t * K == A) by (unfold t; field; lra).
  assert (T0 : 0 < t) by (unfold t; apply Qlt_shift_div_l; lra).
  assert (TA : t <= A).
  { unfold t. apply Qle_shift_div_r; [lra|].
    assert (A * 1 <= A * K) by (apply Qmult_le_l; lra). lra. }
  assert (Tlo : 1 # 1000000000000000 <= t).
  { unfold t. apply Qle_shift_div_l; lra. }
  set (e := t * U).
  assert (E0 : 0 < e) by (unfold e; apply Qmult_lt_0_compat; lra).
  assert (EK : e * K == A * U) by (unfold e; rewrite <- Et; ring).
  assert (EU : e * U <= e * (1 # 1000)) by (apply Qmult_le_l; lra).
  assert (EU0 : 0 <= e * U) by (apply Qmult_le_0_compat; lra).
  set (h := (1 # 2) / K).
  assert (Eh : h * K == 1 # 2) by (unfold h; field; lra).
  assert (Eeh : e <= (224 # 1000) * h).
  { apply (Qmult_le_r _ _ K); [lra|].
    assert ((224 # 1000) * h * K == (224 # 1000) * (h * K)) by ring.
    rewrite Eh in H. lra. }
  assert (Tn1 : Mq - (1 # 2) + h <= t).
  { apply (Qmult_le_r _ _ K); [lra|].
    assert ((Mq - (1 # 2) + h) * K == Mq * K - (1 # 2) * K + h * K) by ring.
    rewrite Eh in H. lra. }
  assert (Tn2 : t <= Mq + (1 # 2) - h).
  { apply (Qmult_le_r _ _ K); [lra|].
    assert ((Mq + (1 # 2) - h) * K == Mq * K + (1 # 2) * K - h * K) by ring.
    rewrite Eh in H. lra. }
  (* the quotient by the scale *)
  set (q1 := A / Pq).
  assert (E1 : q1 == t * qi) by (unfold q1, t, qi; field; lra).
  assert (Q1lo : 1 # 100000000000000000000000 <= q1).
  { unfold q1. apply Qle_shift_div_l; lra. }
  assert (Q1hi : q1 <= A).
  { unfold q1. apply Qle_shift_div_r; [lra|].
    assert (A * 1 <= A * Pq) by (apply Qmult_le_l; lra). lra. }
  destruct (rnd_rel_pos q1) as [r1 [R1 [A1' B1]]]; [lra | lra |]. fold U in A1', B1.
  rewrite E1 in A1', B1.
  set (T := t * qi) in *.
  assert (T'0 : 0 < T) by (unfold T; apply Qmult_lt_0_compat; lra).
  assert (TU0 : 0 < T * U) by (apply Qmult_lt_0_compat; lra).
  assert (TUU0 : 0 <= T * U * U) by (apply Qmult_le_0_compat; lra).
  assert (TUU : T * U * U <= T * U * (1 # 1000)) by (apply Qmult_le_l; lra).
  (* the quotient by the increment *)
  set (q3 := r1 / ri).
  assert (Q3hi : q3 <= t + 3 * e).
  { unfold q3. apply Qle_shift_div_r; [assumption|].
    assert ((t + 3 * e) * (qi - qi * U) <= (t + 3 * e) * ri)
      by (apply Qmult_le_l; lra).
    assert ((t + 3 * e) * (qi - qi * U) == T + 2 * (T * U) - 3 * (T * U * U))
      by (unfold T, e; ring).
    lra. }
  assert (Q3lo : t - 3 * e <= q3).
  { unfold q3. apply Qle_shift_div_l; [assumption|].
    assert (e <= t * (1 # 1000)) by (unfold e; apply Qmult_le_l; lra).
    assert ((t - 3 * e) * ri <= (t - 3 * e) * (qi + qi * U))
      by (apply Qmult_le_l; lra).
    assert ((t - 3 * e) * (qi + qi * U) == T - 2 * (T * U) - 3 * (T * U * U))
      by (unfold T, e; ring).
    lra. }
  assert (EtU : e <= t * (1 # 1000)) by (unfold e; apply Qmult_le_l; lra).
  destruct (rnd_rel_pos q3) as [r3 [R3 [A3 B3]]]; [lra | lra |]. fold U in A3, B3.
  assert (Q3U : q3 * U <= e + 3 * (e * U)).
  { assert (q3 * U <= (t + 3 * e) * U) by (apply Qmult_le_compat_r; lra).
    assert ((t + 3 * e) * U == e + 3 * (e * U)) by (unfold e; ring). lra. }
  assert (Q3U0 : 0 <= q3 * U) by (apply Qmult_le_0_compat; lra).
  assert (R3lo : Mq - (1 # 2) < r3) by lra.
  assert (R3hi : r3 < Mq + (1 # 2)) by lra.
  exists r1, ri, r3.
  fold A K Pq Mq. fold q1 qi. rewrite R1, Ri. fold q3. rewrite R3.
  split; [reflexivity|]. split; [reflexivity|]. split; [assumption|].
  split; [reflexivity|]. split; [assumption|]. split; [assumption|].
  split; [assumption|].
  intros HM.
  assert (Mq1 : 1 <= Mq) by (unfold Mq; change 1 with (inject_Z 1); rewrite <- Zle_Qle; lia).
  set (N := Mq * K) in *.
  assert (N0 : 1 <= N).
  { unfold N. assert (1 * 1 <= Mq * K) by (apply Qmult_le_compat_nonneg; split; lra). lra. }
  assert (NU : N * U <= 112 # 1000).
  { assert (N * U <= (1000000000000000 # 1) * U) by (apply Qmult_le_compat_r; lra). lra. }
  assert (NU0 : 0 <= N * U) by (apply Qmult_le_0_compat; lra).
  assert (NUU : N * U * U <= (112 # 1000) * (1 # 1000)).
  { apply Qmult_le_compat_nonneg; split; lra. }
  set (q4 := Mq * ri).
  assert (Q4ri : ri <= q4).
  { unfold q4. assert (1 * ri <= Mq * ri) by (apply Qmult_le_compat_r; lra). lra. }
  assert (Wlo : K - K * U <= ri * Pq).
  { assert ((qi - qi * U) * Pq <= ri * Pq) by (apply Qmult_le_compat_r; lra).
    assert ((qi - qi * U) * Pq == qi * Pq - qi * Pq * U) by ring.
    rewrite Ei in *. lra. }
  assert (Whi : ri * Pq <= K + K * U).
  { assert (ri * Pq <= (qi + qi * U) * Pq) by (apply Qmult_le_compat_r; lra).
    assert ((qi + qi * U) * Pq == qi * Pq + qi * Pq * U) by ring.
    rewrite Ei in *. lra. }
  assert (W4 : q4 * Pq == Mq * (ri * Pq)) by (unfold q4; ring).
  assert (V4lo : N - N * U <= q4 * Pq).
  { rewrite W4. assert (Mq * (K - K * U) <= Mq * (ri * Pq)) by (apply Qmult_le_l; lra).
    assert (Mq * (K - K * U) == N - N * U) by (unfold N; ring). lra. }
  assert (V4hi : q4 * Pq <= N + N * U).
  { rewrite W4. assert (Mq * (ri * Pq) <= Mq * (K + K * U)) by (apply Qmult_le_l; lra).
    assert (Mq * (K + K * U) == N + N * U) by (unfold N; ring). lra. }
  assert (Q4hi : q4 <= N + N * U).
  { assert (q4 * 1 <= q4 * Pq) by (apply Qmult_le_l; lra). lra. }
  destruct (rnd_rel_pos q4) as [r4 [R4 [A4 B4]]]; [lra | lra |]. fold U in A4, B4.
  assert (Q4Um : q4 * U <= q4 * (1 # 1000)) by (apply Qmult_le_l; lra).
  assert (Q4U0 : 0 <= q4 * U) by (apply Qmult_le_0_compat; lra).
  assert (V4U : q4 * Pq * U <= N * U + N * U * U).
  { assert (q4 * Pq * U <= (N + N * U) * U) by (apply Qmult_le_compat_r; lra).
    assert ((N + N * U) * U == N * U + N * U * U) by ring. lra. }
  assert (V4U0 : 0 <= q4 * Pq * U).
  { apply Qmult_le_0_compat; [|lra]. lra. }
  assert (R4lo : q4 * Pq - q4 * Pq * U <= r4 * Pq).
  { assert ((q4 - q4 * U) * Pq <= r4 * Pq) by (apply Qmult_le_compat_r; lra).
    assert ((q4 - q4 * U) * Pq == q4 * Pq - q4 * Pq * U) by ring. lra. }
  assert (R4hi : r4 * Pq <= q4 * Pq + q4 * Pq * U).
  { assert (r4 * Pq <= (q4 + q4 * U) * Pq) by (apply Qmult_le_compat_r; lra).
    assert ((q4 + q4 * U) * Pq == q4 * Pq + q4 * Pq * U) by ring. lra. }
  exists r4. fold q4. rewrite R4.
  split; [reflexivity|]. split; [lra|]. split; [lra|].
  apply floor_unique.
  - rewrite inject_Z_mult. fold Mq K N. lra.
  - rewrite inject_Z_mult. fold Mq K N. lra.
Qed.

Local Open Scope Z_scope.

Lemma Qabs_opp_pos r : (0 < r)%Q -> (Qabs (- r) == r)%Q.
Proof. intros H. rewrite Qabs_opp. apply Qabs_pos. lra. Qed.

Lemma to_fixed_pos r (n : Z) (p : nat) :
  (p <= 22)%nat -> (0 < r)%Q -> (r < inject_Z (10 ^ 21))%Q ->
  Qfloor (r * inject_Z (10 ^ Z.of_nat p) + (1 # 2)) = n ->
  to_fixed (JS.Fin r) p = Ok (fixed_text n p)
  /\ to_fixed (JS.Fin (- r)) p = Ok ("-" ++ fixed_text n p).
Proof.
  intros Hp H0 H1 Hn. unfold to_fixed.
  destruct (Nat.ltb_spec 100 p); [lia|].
  assert (EA : (Qabs r == r)%Q) by (apply Qabs_pos; lra).
  assert (EB : (Qabs (- r) == r)%Q) by (apply Qabs_opp_pos; assumption).
  split.
  - rewrite Qle_bool_false by (rewrite EA; assumption).
    assert (N : JS.is_neg (JS.Fin r) = false).
    { destruct (JS.is_neg (JS.Fin r)) eqn:E; [|reflexivity]. apply is_neg_Fin in E. lra. }
    rewrite N.
    rewrite (Qfloor_comp _ (r * inject_Z (10 ^ Z.of_nat p) + (1 # 2)))
      by (rewrite EA; reflexivity).
    rewrite Hn. reflexivity.
  - rewrite Qle_bool_false by (rewrite EB; assumption).
    assert (N : JS.is_neg (JS.Fin (- r)) = true) by (apply is_neg_Fin; lra).
    rewrite N.
    rewrite (Qfloor_comp _ (r * inject_Z (10 ^ Z.of_nat p) + (1 # 2)))
      by (rewrite EB; reflexivity).
    rewrite Hn. reflexivity.
Qed.

Lemma nonzero_pos r : (0 < r)%Q -> Qeq_bool r 0 = false.
Proof.
  intros H. destruct (Qeq_bool r 0) eqn:E; [|reflexivity].
  apply Qeq_bool_eq in E. lra.
Qed.

(** The multiple of [k] nearest to [a], as a number of multiples, and
    whether [a] is halfway between two multiples. *)
Definition nearest (a k : Z) : Z := (2 * a + k) / (2 * k).
Definition halfway (a k : Z) : bool := (2 * a + k) mod (2 * k) =? 0.

Lemma nearest_facts (a k : Z) :
  1 <= k -> halfway a k = false ->
  2 * k * nearest a k + 1 <= 2 * a + k
  /\ 2 * a + 1 <= 2 * k * nearest a k + k.
Proof.
  intros Hk H. unfold halfway in H. apply Z.eqb_neq in H. unfold nearest.
  pose proof (Z.div_mod (2 * a + k) (2 * k) ltac:(lia)) as E.
  pose proof (Z.mod_pos_bound (2 * a + k) (2 * k) ltac:(lia)) as B.
  set (M := (2 * a + k) / (2 * k)) in *.
  set (r := (2 * a + k) mod (2 * k)) in *.
  nia.
Qed.

Lemma to_fixed_zero (p : nat) :
  (p <= 22)%nat -> to_fixed (JS.Fin 0) p = Ok (decimal_text 0 p).
Proof.
  intros Hp. unfold to_fixed. destruct (Nat.ltb_spec 100 p); [lia|]. reflexivity.
Qed.

(** What [toString] computes for a whole amount, at the level of the
    numbers: the amount divided by the scale, rounded to an increment of
    [k] minor units and printed, is the decimal text of the multiple of
    [k] nearest to the amount, when the amount is not halfway between two
    multiples. *)
Lemma rounded_increment_text (a k : Z) (p : nat) :
  small a -> (p <= 22)%nat -> 1 <= k <= 10 ^ 15 ->
  halfway a k = false -> small (nearest a k * k) ->
  to_fixed
    (rounding (JS.div (JS.of_Z a) (pow p)) (JS.div (JS.of_Z k) (pow p))) p
  = Ok (decimal_text (nearest a k * k) p).
Proof.
  intros Ha Hp Hk Hh Hs. rewrite pow_exact by assumption.
  pose proof (pow10_range p Hp) as HP. set (P := 10 ^ Z.of_nat p) in *.
  destruct (nearest_facts a k ltac:(lia) Hh) as [F1 F2].
  set (M := nearest a k) in *.
  unfold small in Ha, Hs. unfold rounding, round. cbn [to_number].
  rewrite !div_of_Z by lia.
  destruct (Z.lt_trichotomy a 0) as [N|[->|Pz]].
  - destruct (increment_chain (- a) k (- M) P ltac:(lia) Hk HP ltac:(lia) ltac:(lia) ltac:(lia))
      as [r1 [ri [r3 [R1 [Ri [Hri [R3 [L3 [H3 [M0 R4]]]]]]]]]].
    rewrite Ri.
    replace (JS.rnd (inject_Z a / inject_Z P)) with (JS.Fin (- r1)).
    2:{ rewrite (rnd_comp (inject_Z a / inject_Z P) (- (inject_Z (- a) / inject_Z P))).
        - rewrite rnd_opp, R1. reflexivity.
        - rewrite inject_Z_opp. field. intro E.
          change 0%Q with (inject_Z 0) in E. rewrite inject_Z_injective in E. lia. }
    unfold JS.div. rewrite (nonzero_pos ri) by assumption.
    rewrite (rnd_comp (- r1 / ri) (- (r1 / ri))) by (field; lra).
    rewrite rnd_opp, R3. cbn [JS.neg].
    rewrite inject_Z_opp in L3, H3.
    rewrite (round_near (- r3) M) by lra.
    unfold JS.mul, JS.of_Z.
    destruct (Z.eq_dec M 0) as [E0|E0].
    + rewrite E0. rewrite (rnd_zero (inject_Z 0 * ri)) by ring.
      apply to_fixed_zero. assumption.
    + destruct (R4 ltac:(lia)) as [r4 [R4' [L4 [H4 F]]]].
      rewrite (rnd_comp (inject_Z M * ri) (- (inject_Z (- M) * ri)))
        by (rewrite inject_Z_opp; ring).
      rewrite rnd_opp, R4'. cbn [JS.neg].
      destruct (to_fixed_pos r4 (- M * k) p Hp L4 H4 F) as [_ T]. rewrite T.
      unfold decimal_text. destruct (Z.ltb_spec (M * k) 0); [|nia].
      replace (Z.abs (M * k)) with (- M * k) by lia. reflexivity.
  - destruct (increment_chain k k 1 P ltac:(lia) Hk HP ltac:(lia) ltac:(lia) ltac:(lia))
      as [r1 [ri [r3 [R1 [Ri [Hri _]]]]]].
    rewrite Ri.
    rewrite (rnd_zero (inject_Z 0 / inject_Z P)).
    2:{ field. intro E. change 0%Q with (inject_Z 0) in E.
        rewrite inject_Z_injective in E. lia. }
    unfold JS.div. rewrite (nonzero_pos ri) by assumption.
    rewrite (rnd_zero (0 / ri)) by (field; lra).
    change (JS.round (JS.Fin 0)) with (JS.Fin 0).
    unfold JS.mul. rewrite (rnd_zero (0 * ri)) by ring.
    assert (M = 0) by nia.
    replace (M * k) with 0 by lia. apply to_fixed_zero. assumption.
  - destruct (increment_chain a k M P ltac:(lia) Hk HP F1 F2 ltac:(lia))
      as [r1 [ri [r3 [R1 [Ri [Hri [R3 [L3 [H3 [M0 R4]]]]]]]]]].
    rewrite Ri, R1.
    unfold JS.div. rewrite (nonzero_pos ri) by assumption.
    rewrite R3.
    rewrite (round_near r3 M) by lra.
    unfold JS.mul, JS.of_Z.
    destruct (Z.eq_dec M 0) as [E0|E0].
    + rewrite E0. rewrite (rnd_zero (inject_Z 0 * ri)) by ring.
      apply to_fixed_zero. assumption.
    + destruct (R4 ltac:(lia)) as [r4 [R4' [L4 [H4 F]]]].
      rewrite R4'.
      destruct (to_fixed_pos r4 (M * k) p Hp L4 H4 F) as [T _]. rewrite T.
      unfold decimal_text. destruct (Z.ltb_spec (M * k) 0); [nia|].
      rewrite Z.abs_eq by lia. reflexivity.
Qed.

Lemma nearest_one (a : Z) : nearest a 1 = a /\ halfway a 1 = false.
Proof.
  unfold nearest, halfway. change (2 * 1) with 2. split.
  - pose proof (Z.div_mod (2 * a + 1) 2 ltac:(lia)).
    pose proof (Z.mod_pos_bound (2 * a + 1) 2 ltac:(lia)). lia.
  - apply Z.eqb_neq.
    pose proof (Z.div_mod (2 * a + 1) 2 ltac:(lia)).
    pose proof (Z.mod_pos_bound (2 * a + 1) 2 ltac:(lia)). lia.
Qed.

(** With the default increment, of one minor unit, the text is that of
    the amount itself. *)
Lemma rounded_text (a : Z) (p : nat) :
  small a -> (p <= 22)%nat ->
  to_fixed
    (rounding (JS.div (JS.of_Z a) (pow p)) (JS.div one (pow p))) p
  = Ok (decimal_text a p).
Proof.
  intros Ha Hp. destruct (nearest_one a) as [N H].
  change one with (JS.of_Z 1).
  rewrite (rounded_increment_text a 1 p Ha Hp); try assumption.
  - rewrite N, Z.mul_1_r. reflexivity.
  - change (10 ^ 15) with 1000000000000000. lia.
  - rewrite N, Z.mul_1_r. assumption.
Qed.

(** The instance prints with the default increment. *)
Definition default_increment (c : Currency) : Prop :=
  increment (_settings c) = JS.div one (pow (precision (_settings c))).

(** [toString] of a whole amount is its decimal text, and [valueOf] reads
    it back as the [value] of the instance: for an instance of [a] minor
    units, within 10^15 in magnitude, with a precision of at most 22 and
    the default increment. *)
Theorem toString_exact (this : Currency) (a : Z) :
  amount this a -> default_increment this ->
  (precision (_settings this) <= 22)%nat -> small a ->
  toString this = Ok (decimal_text a (precision (_settings this)))
  /\ valueOf this = Ok (value this).
Proof.
  intros [I [V P]] Hi Hp Ha.
  assert (T : toString this = Ok (decimal_text a (precision (_settings this)))).
  { unfold toString. rewrite I, P, Hi. apply rounded_text; assumption. }
  split; [exact T|].
  unfold valueOf. rewrite T. cbn [bind]. rewrite decimal_text_read, V.
  rewrite pow_exact by assumption.
  rewrite div_of_Z by (pose proof (pow10_range _ Hp); lia).
  rewrite (rnd_comp _ _ (pow10Q_inv a _)). reflexivity.
Qed.

Lemma default_hundred : default_increment hundred_dollars.
Proof. unfold default_increment. vm_compute. reflexivity. Qed.

Lemma toString_exact_witness :
  toString hundred_dollars = Ok "100.00"
  /\ valueOf hundred_dollars = Ok (value hundred_dollars).
Proof.
  apply (toString_exact hundred_dollars 10000).
  - exact amount_hundred.
  - exact default_hundred.
  - vm_compute. lia.
  - apply small_compute. reflexivity.
Defined.

(** With an increment of [k] minor units, [toString] prints the multiple
    of the increment nearest to the amount: for an instance of [a] minor
    units that is not halfway between two multiples, with the amount and
    the multiple within 10^15 in magnitude and a precision of at most
    22. *)
Theorem toString_increment (this : Currency) (a k : Z) :
  amount this a ->
  increment (_settings this)
  = JS.div (JS.of_Z k) (pow (precision (_settings this))) ->
  (precision (_settings this) <= 22)%nat -> 1 <= k <= 10 ^ 15 ->
  small a -> halfway a k = false -> small (nearest a k * k) ->
  toString this
  = Ok (decimal_text (nearest a k * k) (precision (_settings this))).
Proof.
  intros [I [V P]] Hi Hp Hk Ha Hh Hs.
  unfold toString. rewrite I, P, Hi. apply rounded_increment_text; assumption.
Qed.

(** An instance of 1.03 with an increment of five hundredths. *)
Definition nickel : Currency :=
  {| intValue := JS.of_Z 103;
     value := literal 103 100;
     _settings := settings_of (currency (ANumber (literal 103 100)) nickel_increment);
     _precision := pow 2 |}.

Lemma toString_increment_witness : toString nickel = Ok "1.05".
Proof.
  apply (toString_increment nickel 103 5).
  - unfold amount. repeat split; vm_compute; reflexivity.
  - vm_compute. reflexivity.
  - vm_compute. lia.
  - vm_compute. split; discriminate.
  - apply small_compute. reflexivity.
  - reflexivity.
  - apply small_compute. reflexivity.
Defined.

(** Printing and parsing are inverse on whole amounts: for an instance of
    [a] minor units, within 10^15 in magnitude, with the default increment
    and a precision of at most 22, the text [toString] prints is read by
    the constructor, under options with the same precision, the point as
    the decimal mark and amounts not given in minor units, as an instance
    of [a] minor units again. *)
Theorem print_parse_round_trip (this : Currency) (opts : Options) (a : Z) :
  amount this a -> default_increment this ->
  (precision (_settings this) <= 22)%nat -> small a ->
  merged_precision opts = precision (_settings this) ->
  merged_decimal opts = "."%char ->
  merged_fromCents opts = false ->
  exists s c,
    toString this = Ok s /\ currency (AString s) opts = Ok c /\ amount c a.
Proof.
  intros [I [V P]] Hi Hp Ha Ep Em Ef.
  exists (decimal_text a (precision (_settings this))).
  assert (T : toString this = Ok (decimal_text a (precision (_settings this)))).
  { unfold toString. rewrite I, P, Hi. apply rounded_text; assumption. }
  unfold currency, merged_precision, merged_decimal, merged_fromCents in *.
  set (st := Build_Settings _ _ _ _ _ _ _ _ _ _ _ _).
  set (p := precision (_settings this)) in *.
  assert (Q : parse (AString (decimal_text a p)) st true = Ok (VNumber (JS.of_Z a))).
  { rewrite <- Ep. apply (parse_decimal_text st a).
    - exact Em.
    - exact Ef.
    - change (precision st) with (get 0%nat (o_precision (assign defaults opts))).
      rewrite Ep. exact Hp.
    - exact Ha. }
  rewrite Q. cbn [bind to_number]. eexists. split; [exact T|]. split; [reflexivity|].
  unfold amount. cbn [intValue value _settings _precision precision]. auto.
Qed.

Lemma print_parse_round_trip_witness :
  exists s c,
    toString hundred_dollars = Ok s
    /\ currency (AString s) no_options = Ok c /\ amount c 10000.
Proof.
  apply (print_parse_round_trip hundred_dollars no_options 10000).
  - exact amount_hundred.
  - exact default_hundred.
  - vm_compute. lia.
  - apply small_compute. reflexivity.
  - reflexivity.
  - reflexivity.
  - reflexivity.
Defined.

Local Open Scope string_scope.
Local Open Scope Z_scope.

(** ** The two parts of an amount *)

(** Truncating the binary64 quotient of a whole amount by a scale gives
    the quotient of the integers. *)
Lemma trunc_quotient (a n : Z) :
  small a -> 1 <= n <= 2 ^ 53 ->
  exists r, JS.div (JS.of_Z a) (JS.of_Z n) = JS.Fin r
            /\ JS.Qtrunc r = Z.quot a n.
Proof.
  intros Ha Hn. unfold small in Ha. rewrite div_of_Z by lia.
  destruct (Z.lt_trichotomy a 0) as [N|[->|Pz]].
  - destruct (quotient_facts (- a) n ltac:(lia) Hn) as [r [R [L H]]].
    exists (- r)%Q.
    rewrite (rnd_comp (inject_Z a / inject_Z n) (- (inject_Z (- a) / inject_Z n))).
    2:{ rewrite inject_Z_opp. field. intro E.
        change 0%Q with (inject_Z 0) in E. rewrite inject_Z_injective in E. lia. }
    rewrite rnd_opp, R. split; [reflexivity|].
    assert (F : Qfloor r = - a / n) by (apply floor_unique; assumption).
    assert (Q : Z.quot a n = - (- a / n)).
    { rewrite <- (Z.opp_involutive a) at 1. rewrite Z.quot_opp_l by lia.
      rewrite Z.quot_div_nonneg by lia. reflexivity. }
    assert (K0 : 0 <= - a / n) by (apply Z.div_pos; lia).
    assert (R0 : (0 <= r)%Q).
    { apply (Qle_trans _ (inject_Z (- a / n))); [|exact L].
      change 0%Q with (inject_Z 0). rewrite <- Zle_Qle. exact K0. }
    unfold JS.Qtrunc. destruct (Qcompare_spec (- r) 0) as [E|E|E].
    + assert (E' : (r == 0)%Q) by lra.
      rewrite Q, <- F. rewrite (Qfloor_comp _ _ E), (Qfloor_comp _ _ E').
      reflexivity.
    + unfold Qceiling. rewrite (Qfloor_comp (- - r) r) by ring.
      rewrite F, Q. reflexivity.
    + lra.
  - exists 0%Q. split; [apply rnd_zero; field; intro E;
                        change 0%Q with (inject_Z 0) in E;
                        rewrite inject_Z_injective in E; lia|].
    rewrite Z.quot_0_l by lia. reflexivity.
  - destruct (quotient_facts a n ltac:(lia) Hn) as [r [R [L H]]].
    exists r. split; [exact R|].
    assert (F : Qfloor r = a / n) by (apply floor_unique; assumption).
    assert (K0 : 0 <= a / n) by (apply Z.div_pos; lia).
    assert (R0 : (0 <= r)%Q).
    { apply (Qle_trans _ (inject_Z (a / n))); [|exact L].
      change 0%Q with (inject_Z 0). rewrite <- Zle_Qle. exact K0. }
    rewrite Z.quot_div_nonneg by lia. rewrite <- F.
    unfold JS.Qtrunc. destruct (Qcompare_spec r 0) as [E|E|E]; try reflexivity. lra.
Qed.

Lemma remainder_whole (a p : Z) :
  1 <= p <= 2 ^ 31 ->
  JS.bitnot2 (JS.rem (JS.of_Z a) (JS.of_Z p)) = JS.of_Z (Z.rem a p).
Proof.
  intros Hr. unfold JS.bitnot2, JS.rem, JS.of_Z.
  destruct (Qeq_bool (inject_Z p) 0) eqn:E.
  - apply Qeq_bool_eq in E. change 0%Q with (inject_Z 0) in E.
    rewrite inject_Z_injective in E. lia.
  - rewrite trunc_ratio by lia.
    assert (R : (inject_Z a - inject_Z p * inject_Z (Z.quot a p) == inject_Z (Z.rem a p))%Q).
    { unfold Qminus. rewrite <- inject_Z_mult, <- inject_Z_opp, <- inject_Z_plus.
      apply inject_Z_injective. pose proof (Z.quot_rem' a p). lia. }
    rewrite (fin_int _ _ R). unfold JS.of_Z. rewrite to_int32_small.
    + rewrite trunc_int. reflexivity.
    + rewrite trunc_int. pose proof (Z.rem_bound_abs a p ltac:(lia)).
      change (2 ^ 31) with 2147483648 in *. lia.
Qed.

(** [dollars()] and [cents()] split a whole amount: for an instance of [a]
    minor units, within 10^15 in magnitude, with a precision [p] of at
    most 9, the two are the quotient and the remainder of [a] by 10^p,
    both truncated toward zero, as long as the quotient is a 32-bit
    integer. *)
Theorem accessors_split (this : Currency) (a : Z) :
  amount this a ->
  (precision (_settings this) <= 9)%nat -> small a ->
  - 2 ^ 31 <= Z.quot a (10 ^ Z.of_nat (precision (_settings this))) < 2 ^ 31 ->
  dollars this
  = JS.of_Z (Z.quot a (10 ^ Z.of_nat (precision (_settings this))))
  /\ cents this
     = JS.of_Z (Z.rem a (10 ^ Z.of_nat (precision (_settings this)))).
Proof.
  intros [I [V P]] Hp Ha Hq.
  set (p := precision (_settings this)) in *.
  assert (HP : 1 <= 10 ^ Z.of_nat p <= 10 ^ 9).
  { split.
    - pose proof (Z.pow_pos_nonneg 10 (Z.of_nat p)). lia.
    - apply Z.pow_le_mono_r; lia. }
  change (10 ^ 9) with 1000000000 in HP.
  split.
  - unfold dollars, JS.bitnot2. rewrite V. rewrite pow_exact by lia.
    destruct (trunc_quotient a (10 ^ Z.of_nat p) Ha) as [r [R T]].
    { change (2 ^ 53) with 9007199254740992. lia. }
    rewrite R, to_int32_small by (rewrite T; exact Hq). rewrite T. reflexivity.
  - unfold cents. rewrite I, P. rewrite pow_exact by lia.
    apply remainder_whole. change (2 ^ 31) with 2147483648. lia.
Qed.

(** An instance of -1234.56. *)
Definition small_debt : Currency :=
  {| intValue := JS.of_Z (-123456);
     value := literal (-123456) 100;
     _settings := _settings hundred_dollars;
     _precision := pow 2 |}.

Lemma accessors_split_witness :
  dollars small_debt = JS.of_Z (-1234)
  /\ cents small_debt = JS.of_Z (-56).
Proof.
  apply (accessors_split small_debt (-123456)).
  - unfold amount. repeat split; vm_compute; reflexivity.
  - vm_compute. lia.
  - apply small_compute. reflexivity.
  - vm_compute. split; [discriminate | reflexivity].
Defined.

Local Open Scope string_scope.
Local Open Scope nat_scope.

(** ** Where [format] puts the separators *)

(** On a text of digits, and with a separator that holds no dollar sign,
    the replacement [format] makes with the grouping expression puts the
    separator after exactly the digits that are followed by a positive
    multiple of three digits, or, with the vedic expression, by an odd
    number of at least three digits; when the separator holds no digit,
    the digits of the result are those of the text. *)
Theorem separators_placed (g : Groups) (sep digits before : string) :
  no_dollar sep = true -> Str.all_digits digits = true ->
  replace_groups g ("$1" ++ sep) before digits = grouped (marks g) sep digits
  /\ (no_digit sep = true ->
      Str.filter Str.is_digit
        (replace_groups g ("$1" ++ sep) before digits) = digits).
Proof.
  intros Hs Hd.
  rewrite (replace_groups_digits g sep digits Hs Hd before).
  split; [reflexivity|]. intros Hn. apply filter_grouped; assumption.
Qed.

Lemma separators_placed_witness :
  replace_groups groupRegex ("$1" ++ ",") "" "1234567" = "1,234,567"
  /\ (no_digit "," = true ->
      Str.filter Str.is_digit
        (replace_groups groupRegex ("$1" ++ ",") "" "1234567") = "1234567").
Proof.
  apply (separators_placed groupRegex "," "1234567" "").
  - reflexivity.
  - reflexivity.
Defined.

Local Open Scope string_scope.
Local Open Scope Z_scope.

(** ** The characters of a string the constructor reads *)

(** Of a string without an opening parenthesis the constructor reads the
    minus signs, the digits and the decimal marks only: every other
    character, a letter [e] of an exponent included, is passed over.  This
    holds for every decimal mark but the closing bracket, with which the
    first expression removes pairs of characters instead. *)
Theorem only_kept_characters_read (s : string) (opts : Options) :
  Ascii.eqb (merged_decimal opts) "]" = false ->
  no_open s = true ->
  currency (AString s) opts
  = currency (AString (Str.filter (kept (merged_decimal opts)) s)) opts.
Proof.
  intros Hd H. apply currency_clean. symmetry. apply clean_kept; assumption.
Qed.

Lemma only_kept_characters_read_witness :
  currency (AString "$1,234.56 USD") no_options
  = currency (AString "1234.56") no_options.
Proof.
  apply (only_kept_characters_read "$1,234.56 USD" no_options); reflexivity.
Defined.

(** With a closing bracket as the decimal mark the bracket is removed
    together with a letter before it: "1a]5" is read as 15, "1]5" as
    1.5. *)
Definition bracket_mark : Options :=
  {| o_symbol := None; o_separator := None; o_decimal := Some "]"%char;
     o_errorOnInvalid := None; o_precision := None; o_increment := None;
     o_useVedic := None; o_pattern := None; o_negativePattern := None;
     o_format := None; o_fromCents := None; o_groups := None |}.

Lemma bracket_mark_pairs :
  (exists c, currency (AString "1a]5") bracket_mark = Ok c
             /\ intValue c = JS.of_Z 1500)
  /\ (exists c, currency (AString "1]5") bracket_mark = Ok c
                /\ intValue c = JS.of_Z 150).
Proof.
  split.
  - destruct (currency (AString "1a]5") bracket_mark) as [c|e] eqn:E;
      vm_compute in E; [|discriminate E].
    injection E as <-. eexists. split; reflexivity.
  - destruct (currency (AString "1]5") bracket_mark) as [c|e] eqn:E;
      vm_compute in E; [|discriminate E].
    injection E as <-. eexists. split; reflexivity.
Qed.

(** A text between parentheses is read as the text after a minus sign,
    when it is on one line and holds no opening parenthesis itself. *)
Theorem parenthesised_is_negative (s : string) (opts : Options) :
  one_line s = true -> no_open s = true ->
  currency (AString ("(" ++ s ++ ")")) opts
  = currency (AString ("-" ++ s)) opts.
Proof.
  intros L N. apply currency_clean. apply clean_parenthesised; assumption.
Qed.

Lemma parenthesised_is_negative_witness :
  currency (AString "($1.99)") no_options
  = currency (AString "-$1.99") no_options.
Proof.
  apply (parenthesised_is_negative "$1.99" no_options); reflexivity.
Defined.

(** ** Printing with more than 100 decimals *)

Lemma to_fixed_range x f :
  (to_fixed x f = Throw RangeError <-> (100 < f)%nat)
  /\ (forall e, to_fixed x f = Throw e -> e = RangeError).
Proof.
  unfold to_fixed. destruct (Nat.ltb_spec 100 f) as [H|H].
  - split; [split; auto|]. intros e E. injection E as <-. reflexivity.
  - split.
    + split; [|lia].
      destruct x as [| | |q]; try discriminate.
      destruct (Qle_bool _ _); discriminate.
    + intros e. destruct x as [| | |q]; try discriminate.
      destruct (Qle_bool _ _); discriminate.
Qed.

(** [toString] raises a range error exactly when the precision of the
    instance is above 100, and raises no other error; [valueOf] and the
    module's [format] then raise it too. *)
Theorem printing_range (this : Currency) (st : Settings) :
  (toString this = Throw RangeError
   <-> (100 < precision (_settings this))%nat)
  /\ (forall e, toString this = Throw e -> e = RangeError)
  /\ ((100 < precision (_settings this))%nat ->
      valueOf this = Throw RangeError /\ format this st = Throw RangeError).
Proof.
  unfold toString.
  destruct (to_fixed_range
              (rounding (JS.div (intValue this) (_precision this))
                        (increment (_settings this)))
              (precision (_settings this))) as [A B].
  split; [exact A|]. split; [exact B|].
  intros H. apply A in H.
  unfold format, valueOf, toString. rewrite H. split; reflexivity.
Qed.

Import Str NumberText.

Local Open Scope string_scope.
Local Open Scope Z_scope.

(** ** What [format] prints *)

(** The amount as [format] prints it for [a] minor units at precision [p]:
    the digits before the point, grouped, and, when a decimal other than
    zero remains, the decimal mark and the decimals without their trailing
    zeros. *)
Definition amount_text (st : Settings) (a : Z) (p : nat) : string :=
  let parts := plain_parts (Z.abs a) p in
  grouped (marks (groups st)) (separator st) (fst parts)
  ++ match snd parts with
     | EmptyString => EmptyString
     | String c r => String (decimal st) (String c r)
     end.

(** [format] prints the number that [valueOf] gives, not the text of
    [toString]: for an instance of [a] minor units, within 10^15 in
    magnitude, with the default increment and a precision of at most 6,
    and for settings whose separator holds no dollar sign, the amount put
    in the pattern is the grouped digits before the point followed by the
    decimals without their trailing zeros, and by nothing when all decimals
    are zero; the pattern is the negative one exactly when [a] is
    negative. *)
Theorem format_whole_amount (this : Currency) (st : Settings) (a : Z) :
  amount this a -> default_increment this ->
  (precision (_settings this) <= 6)%nat -> small a ->
  no_dollar (separator st) = true ->
  format this st
  = Ok (replace_first "#" (amount_text st a (precision (_settings this)))
          (replace_first "!" (symbol st)
             (if 0 <=? a then pattern st else negativePattern st))).
Proof.
  intros [I [V P]] Hi Hp Ha Hs.
  set (p := precision (_settings this)) in *.
  assert (T : toString this = Ok (decimal_text a p)).
  { unfold toString. rewrite I, P, Hi. apply rounded_text; [assumption | lia]. }
  assert (Vx : value this = JS.rnd (inject_Z a * pow10Q (- Z.of_nat p))).
  { rewrite V. rewrite pow_exact by lia.
    rewrite div_of_Z by (pose proof (pow10_range p ltac:(lia)); lia).
    rewrite (rnd_comp _ _ (pow10Q_inv a _)). reflexivity. }
  unfold format, valueOf. rewrite T. cbn [bind]. rewrite decimal_text_read, Vx.
  destruct (number_text a p Ha Hp) as [S [A G]].
  cbv zeta. rewrite S. change zero with (JS.of_Z 0). rewrite G.
  unfold parts_list, amount_text. cbv zeta.
  destruct (snd (plain_parts (Z.abs a) p)) as [|c r]; cbn [nth nth_error];
    rewrite (replace_groups_digits _ _ _ Hs A); reflexivity.
Qed.

(** An instance of -1234567.50. *)
Definition large_debt : Currency :=
  {| intValue := JS.of_Z (-123456750);
     value := literal (-123456750) 100;
     _settings := _settings hundred_dollars;
     _precision := pow 2 |}.

Lemma format_whole_amount_witness :
  format large_debt (_settings large_debt) = Ok "-$1,234,567.5".
Proof.
  refine (eq_trans
            (format_whole_amount large_debt (_settings large_debt) (-123456750)
               _ _ _ _ _) _).
  - unfold amount. repeat split; vm_compute; reflexivity.
  - unfold default_increment. vm_compute. reflexivity.
  - vm_compute. lia.
  - apply small_compute. reflexivity.
  - reflexivity.
  - vm_compute. reflexivity.
Defined.

(** * What the operations write *)

Import Heap.

(** [h] still holds the first [n0] objects of [h0]. *)
Definition agree (n0 : nat) (h0 h : heap) : Prop :=
  (n0 <= List.length h)%nat
  /\ forall l, (l < n0)%nat -> nth_error h l = nth_error h0 l.

(** [m] keeps the first [n0] objects, whatever it returns, and a value it
    returns satisfies [Q]. *)
Definition keeps (n0 : nat) (h0 : heap) {A : Type} (m : M A) (Q : A -> Prop)
  : Prop :=
  forall h, agree n0 h0 h ->
    agree n0 h0 (snd (m h))
    /\ forall a, fst (m h) = Some (Ok a) -> Q a.

Section Keeps.

Variable n0 : nat.
Variable h0 : heap.





Lemma keeps_weaken {A} (m : M A) (Q Q' : A -> Prop) :
  keeps n0 h0 m Q -> (forall a, Q a -> Q' a) -> keeps n0 h0 m Q'.
Proof.
  intros Hm HQ h Ha. destruct (Hm h Ha) as [A1 Q1]. split; auto.
Qed.


























End Keeps.


Local Open Scope nat_scope.
Local Open Scope list_scope.

(** ** The heap operations compute the values of [CurrencyJs] *)

Lemma load_old (h t : heap) (l : loc) (o : object) :
  nth_error h l = Some o -> load l (h ++ t) = (Some (Ok o), h ++ t).
Proof.
  intros H. unfold load. rewrite nth_error_app1 by (apply nth_error_Some; congruence).
  rewrite H. reflexivity.
Qed.

Lemma load_new (h t : heap) (i : nat) (o : object) :
  nth_error t i = Some o ->
  load (List.length h + i) (h ++ t) = (Some (Ok o), h ++ t).
Proof.
  intros H. unfold load. rewrite nth_error_app2 by lia.
  replace (List.length h + i - List.length h)%nat with i by lia.
  rewrite H. reflexivity.
Qed.

Lemma update_new (h t : heap) (i : nat) (o : object) :
  update (List.length h + i) o (h ++ t) = h ++ update i o t.
Proof.
  induction h as [|x h IH]; simpl; [reflexivity|].
  rewrite IH. reflexivity.
Qed.

Lemma store_new (h t : heap) (i : nat) (o : object) :
  store (List.length h + i) o (h ++ t) = (Some (Ok tt), h ++ update i o t).
Proof. unfold store. rewrite update_new. reflexivity. Qed.

Lemma load_end (h t : heap) (o : object) :
  nth_error t 0 = Some o ->
  load (List.length h) (h ++ t) = (Some (Ok o), h ++ t).
Proof.
  intros H. rewrite <- (Nat.add_0_r (List.length h)) at 1.
  apply load_new. assumption.
Qed.

Lemma store_end (h t : heap) (o : object) :
  store (List.length h) o (h ++ t) = (Some (Ok tt), h ++ update 0 o t).
Proof. rewrite <- (Nat.add_0_r (List.length h)) at 1. apply store_new. Qed.

Lemma options_old (h t : heap) (l : loc) (o : Options) :
  nth_error h l = Some (ObjOptions o) ->
  options_at l (h ++ t) = (Some (Ok o), h ++ t).
Proof.
  intros H. unfold options_at, bindM. rewrite (load_old h t l _ H). reflexivity.
Qed.

Lemma options_new (h t : heap) (i : nat) (o : Options) :
  nth_error t i = Some (ObjOptions o) ->
  options_at (List.length h + i) (h ++ t) = (Some (Ok o), h ++ t).
Proof.
  intros H. unfold options_at, bindM. rewrite (load_new h t i _ H). reflexivity.
Qed.

(** [parse] reads four fields of the settings. *)
Lemma parse_reads (a : Any) (s s' : Settings) (b : bool) :
  decimal s = decimal s' -> errorOnInvalid s = errorOnInvalid s' ->
  precision s = precision s' -> fromCents s = fromCents s' ->
  parse a s b = parse a s' b.
Proof.
  intros D E P F. unfold parse. rewrite D, E, P, F. reflexivity.
Qed.

(** An argument that is resolved in [h] is resolved to the same value in a
    heap that extends [h]. *)
Lemma instance_at_inv (h : heap) (l : loc) (c : Currency * loc) (h' : heap) :
  instance_at l h = (Some (Ok c), h') ->
  exists iv v sl p o,
    nth_error h l = Some (ObjInstance (Some iv) (Some v) (Some sl) (Some p))
    /\ nth_error h sl = Some (ObjOptions o)
    /\ c = ({| intValue := iv; value := v;
               _settings := read_settings o; _precision := p |}, sl)
    /\ h' = h.
Proof.
  unfold instance_at, bindM, load.
  destruct (nth_error h l) as [ob|] eqn:L; [|discriminate].
  destruct ob as [ob|[iv|] [v|] [sl|] [p|]]; try discriminate.
  unfold options_at, bindM, load.
  destruct (nth_error h sl) as [ob|] eqn:S'; [|discriminate].
  destruct ob as [ob|]; [|discriminate].
  unfold ret. intros E. injection E as <- <-.
  exists iv, v, sl, p, ob. auto.
Qed.

Lemma instance_at_intro (h : heap) (l sl : loc) iv v p o :
  nth_error h l = Some (ObjInstance (Some iv) (Some v) (Some sl) (Some p)) ->
  nth_error h sl = Some (ObjOptions o) ->
  instance_at l h
  = (Some (Ok ({| intValue := iv; value := v;
                  _settings := read_settings o; _precision := p |}, sl)), h).
Proof.
  intros L S'. unfold instance_at, bindM, load. rewrite L.
  unfold options_at, bindM, load. rewrite S'. reflexivity.
Qed.

Lemma nth_error_old (h t : heap) (l : loc) (o : object) :
  nth_error h l = Some o -> nth_error (h ++ t) l = Some o.
Proof.
  intros H. rewrite nth_error_app1 by (apply nth_error_Some; congruence). assumption.
Qed.

Lemma instance_old (h t : heap) (l : loc) (c : Currency * loc) :
  instance_at l h = (Some (Ok c), h) ->
  instance_at l (h ++ t) = (Some (Ok c), h ++ t).
Proof.
  intros H. apply instance_at_inv in H.
  destruct H as [iv [v [sl [p [o [L [S' [-> _]]]]]]]].
  apply instance_at_intro; apply nth_error_old; assumption.
Qed.

Lemma resolve_old (h t : heap) (r : Ref) (a : Any) :
  resolve r h = (Some (Ok a), h) ->
  resolve r (h ++ t) = (Some (Ok a), h ++ t).
Proof.
  destruct r as [x|s|l|v]; simpl; unfold ret;
    try (intros E; injection E as <-; reflexivity).
  unfold bindM. destruct (instance_at l h) as [[[c|e]|] h1] eqn:I; try discriminate.
  intros E. injection E as Ea Eh. subst h1 a.
  rewrite (instance_old h t l c I). reflexivity.
Qed.

(** The settings the constructor builds, as an options object. *)
Definition built_options (o : Options) : Options :=
  let merged := assign defaults o in
  let precision := pow (get 0%nat (o_precision merged)) in
  {| o_symbol := o_symbol merged; o_separator := o_separator merged;
     o_decimal := o_decimal merged; o_errorOnInvalid := o_errorOnInvalid merged;
     o_precision := o_precision merged;
     o_increment :=
       Some (match o_increment merged with
             | Some i => if JS.truthy i then i else JS.div one precision
             | None => JS.div one precision
             end);
     o_useVedic := o_useVedic merged; o_pattern := o_pattern merged;
     o_negativePattern := o_negativePattern merged; o_format := o_format merged;
     o_fromCents := o_fromCents merged;
     o_groups :=
       Some (if get false (o_useVedic merged) then vedicRegex else groupRegex) |}.

(** The constructor on the heap does what the constructor on values does:
    it throws the same error, or it returns a new instance that reads as
    the same value, left after the heap it started from together with its
    settings object. *)
Theorem heap_constructor_agrees (h : heap) (input : Ref) (a : Any)
    (opts : option loc) (o : Options) :
  nth_error h defaults_loc = Some (ObjOptions defaults) ->
  match opts with
  | Some l => nth_error h l = Some (ObjOptions o)
  | None => o = no_options
  end ->
  resolve input h = (Some (Ok a), h) ->
  match CurrencyJs.currency a o with
  | Ok c =>
      Heap.currency input opts h
      = (Some (Ok (List.length h)),
         h ++ [ObjInstance (Some (intValue c)) (Some (value c))
                           (Some (S (List.length h))) (Some (_precision c));
               ObjOptions (built_options o)])
      /\ read_settings (built_options o) = _settings c
  | Throw e =>
      Heap.currency input opts h
      = (Some (Throw e),
         h ++ [ObjInstance None None None None;
               ObjOptions (assign defaults o)])
  end.
Proof.
  intros Hd Ho Hr.
  set (t0 := [ObjInstance None None None None; ObjOptions no_options]).
  assert (A : object_assign (List.length h + 1) defaults_loc opts (h ++ t0)
              = (Some (Ok (assign defaults o)),
                 h ++ [ObjInstance None None None None; ObjOptions (assign defaults o)])).
  { unfold object_assign. unfold bindM at 1.
    rewrite (options_new h t0 1 no_options eq_refl).
    unfold bindM at 1. rewrite (options_old h t0 _ _ Hd).
    unfold bindM at 1.
    assert (B : (match opts with
                 | Some l => options_at l
                 | None => ret no_options
                 end) (h ++ t0) = (Some (Ok o), h ++ t0)).
    { destruct opts as [l|]; [apply options_old; assumption | rewrite Ho; reflexivity]. }
    rewrite B. unfold bindM at 1. rewrite store_new. reflexivity. }
  unfold CurrencyJs.currency.
  set (merged := assign defaults o) in *.
  set (t1 := [ObjInstance None None None None; ObjOptions merged]) in *.
  set (st := Build_Settings _ _ _ _ _ _ _ _ _ _ _ _).
  assert (P : parse a (read_settings merged) true = parse a st true)
    by (apply parse_reads; reflexivity).
  destruct (parse a st true) as [v|e]; cbn [bind].
  - split; [|reflexivity].
    unfold Heap.currency.
    unfold bindM at 1. unfold alloc at 1. cbv iota beta.
    unfold bindM at 1. unfold alloc at 1. cbv iota beta.
    rewrite <- app_assoc. cbn [app]. rewrite length_app. cbn [List.length].
    fold t0. unfold bindM at 1. rewrite A. fold t1.
    unfold bindM at 1. rewrite (resolve_old h t1 input a Hr).
    unfold bindM at 1. unfold lift at 1. rewrite P.
    unfold set_intValue, set_value, set_increment, set_groups, set_settings, set_precision.
    repeat (first
      [ match goal with
        | |- context [load (List.length ?h0) (?h0 ++ ?t)] =>
            rewrite (load_end h0 t _ eq_refl)
        | |- context [options_at (List.length ?h0 + 1) (?h0 ++ ?t)] =>
            rewrite (options_new h0 t 1 _ eq_refl)
        end
      | rewrite store_end
      | rewrite store_new
      | progress (cbn [update])
      | progress (unfold bindM at 1) ]).
    unfold ret, t1. cbv iota beta. rewrite Nat.add_1_r.
    cbn [o_symbol o_separator o_decimal o_errorOnInvalid o_precision o_increment
         o_useVedic o_pattern o_negativePattern o_format o_fromCents o_groups].
    reflexivity.
  - unfold Heap.currency.
    unfold bindM at 1. unfold alloc at 1. cbv iota beta.
    unfold bindM at 1. unfold alloc at 1. cbv iota beta.
    rewrite <- app_assoc. cbn [app]. rewrite length_app. cbn [List.length].
    fold t0. unfold bindM at 1. rewrite A. fold t1.
    unfold bindM at 1. rewrite (resolve_old h t1 input a Hr).
    unfold bindM at 1. unfold lift at 1. rewrite P. reflexivity.
Qed.

Lemma heap_constructor_agrees_witness :
  fst (Heap.currency (RString "1.50") None initial_heap) = Some (Ok 1).
Proof.
  pose proof (heap_constructor_agrees initial_heap (RString "1.50")
                (AString "1.50") None no_options eq_refl eq_refl eq_refl) as H.
  destruct (CurrencyJs.currency (AString "1.50") no_options) as [c|e] eqn:E.
  - destruct H as [H _]. rewrite H. reflexivity.
  - vm_compute in E. discriminate E.
Defined.

(** ** What the operations return *)




























